(** * PKCE OAuth proxy (src/src/pkcehandler.ts): transaction and token lifecycle

    A shallow embedding of the class [PKCEOAuthProxy]: its two stores, the
    token file, the PKCE generator, the callback and token-exchange
    handlers, the expiry sweeper and the persistence layer; of the server
    built around it (src/src/server.ts): the options it passes and the
    check of each request, [authenticate]; and of the pure parts of the
    utilities, the tools and the command line (src/src/tools/index.ts).

    Conventions of the embedding.
    - A JavaScript [Map] is an insertion-ordered association list with the
      operations [get], [set] and [delete] of the language.
    - A [Date] is its time value, the number of milliseconds since the epoch.
      An invalid [Date] is [None] where a date is parsed; a [Date] kept in a
      store is a valid one, so that what the code does once a sum of times
      has left the range of time values is outside the model (the
      statements concerned say so).
    - A plain object is an association list too; its keys are taken to name
      ordinary own properties, listed by [Object.entries] in the order of
      the language (array indices first). Where the code assigns to a key
      it does not control, the key "__proto__" is set apart.
    - [new URL(text)] is followed for a [text] that it accepts; the
      [TypeError] it throws for any other text is not in the methods'
      definitions (the statements concerned are about texts it accepts),
      and is taken into account where sequences of calls are followed.
    - The operating system is part of the state: the token file, a counter of
      [fs.writeFileSync] calls and whether each fails, before or after
      opening the file, the clock (one reading per [new Date()] or
      [Date.now()]) and the entropy source behind [crypto.randomBytes].
    - A number is a whole number where the code computes with it (ports,
      counts, limits, time values).
    - [console.log] output is not part of the model.

    The file has three parts: the model (the language's data structures,
    then the types and the methods of the class, in the order of the
    source, then the server, the utilities and the tools), the vocabulary
    of the statements with a few example states, and the facts. *)

From Stdlib Require Import ZArith List String Ascii Bool Lia Permutation Sorted.
From Stdlib Require Import Strings.Byte DecimalString.
Import ListNotations.
Local Open Scope string_scope.
Local Open Scope list_scope.
Local Open Scope Z_scope.

(* ================================================================== *)
(** ** JavaScript [Map<string, V>]                                      *)
(* ================================================================== *)

Module JsMap.

Section Ops.

Context {V : Type}.

(** Entries in insertion order. *)
Definition t := list (string * V).

Definition empty : t := [].

Fixpoint get (k : string) (m : t) : option V :=
  match m with
  | [] => None
  | (k', v) :: m' => if String.eqb k k' then Some v else get k m'
  end.

(** [Map.prototype.set]: an existing key keeps its position and takes the
    new value, a new key goes to the end. *)
Fixpoint set (k : string) (v : V) (m : t) : t :=
  match m with
  | [] => [(k, v)]
  | (k', v') :: m' =>
      if String.eqb k k' then (k', v) :: m' else (k', v') :: set k v m'
  end.

Definition delete (k : string) (m : t) : t :=
  filter (fun kv => negb (String.eqb k (fst kv))) m.

Definition keys (m : t) : list string := map fst m.

Definition size (m : t) : nat := List.length m.

(** A [Map] holds every key once. *)
Definition wf (m : t) : Prop := NoDup (keys m).

End Ops.

Arguments t V : clear implicits.

End JsMap.

(* ================================================================== *)
(** ** Node.js [Buffer] encodings and SHA-256                           *)
(* ================================================================== *)

Module Buffer.

Definition Z_of_byte (b : byte) : Z := Z.of_N (Byte.to_N b).

Definition byte_of_Z (z : Z) : byte :=
  match Byte.of_N (Z.to_N (z mod 256)) with
  | Some b => b
  | None => x00
  end.

Definition char_at (alphabet : string) (i : Z) : ascii :=
  match String.get (Z.to_nat i) alphabet with
  | Some c => c
  | None => "?"%char
  end.

Fixpoint string_forallb (p : ascii -> bool) (s : string) : bool :=
  match s with
  | EmptyString => true
  | String c s' => p c && string_forallb p s'
  end.

(** *** [buf.toString("hex")] *)

Definition hex_digit (i : Z) : ascii := char_at "0123456789abcdef" i.

Definition hex_of_byte (b : byte) : string :=
  let z := Z_of_byte b in
  String (hex_digit (Z.shiftr z 4)) (String (hex_digit (Z.land z 15)) "").

Fixpoint hex (bs : list byte) : string :=
  match bs with
  | [] => ""
  | b :: bs' => (hex_of_byte b ++ hex bs')%string
  end.

(** *** [buf.toString("base64url")]: RFC 4648 section 5, no padding *)

Definition base64url_alphabet : string :=
  "ABCDEFGHIJKLMNOPQRSTUVWXYZabcdefghijklmnopqrstuvwxyz0123456789-_".

Definition sextet (z : Z) (shift : Z) : ascii :=
  char_at base64url_alphabet (Z.land (Z.shiftr z shift) 63).

Definition group24 (a b c : byte) : Z :=
  Z.lor (Z.shiftl (Z_of_byte a) 16)
        (Z.lor (Z.shiftl (Z_of_byte b) 8) (Z_of_byte c)).

Fixpoint base64url (bs : list byte) : string :=
  match bs with
  | [] => ""
  | [a] =>
      let z := group24 a x00 x00 in
      String (sextet z 18) (String (sextet z 12) "")
  | [a; b] =>
      let z := group24 a b x00 in
      String (sextet z 18) (String (sextet z 12) (String (sextet z 6) ""))
  | a :: b :: c :: rest =>
      let z := group24 a b c in
      String (sextet z 18) (String (sextet z 12)
        (String (sextet z 6) (String (sextet z 0) (base64url rest))))
  end.

(** The characters a PKCE verifier may use (RFC 7636 section 4.1), which are
    the unreserved characters of a URL: letters, digits, "-", ".", "_", "~". *)
Definition url_safe (c : ascii) : bool :=
  let n := Z.of_N (N_of_ascii c) in
  ((65 <=? n) && (n <=? 90)) || ((97 <=? n) && (n <=? 122)) ||
  ((48 <=? n) && (n <=? 57)) ||
  (n =? 45) || (n =? 46) || (n =? 95) || (n =? 126).

End Buffer.

Module SHA256.

(** FIPS 180-4, on 32-bit words held in [Z]. *)

Definition w32 (x : Z) : Z := x mod 4294967296.

Definition add32 (x y : Z) : Z := w32 (x + y).

Definition rotr (n x : Z) : Z := Z.lor (Z.shiftr x n) (w32 (Z.shiftl x (32 - n))).

Definition not32 (x : Z) : Z := Z.lxor x 4294967295.

Definition Ch (x y z : Z) : Z := Z.lxor (Z.land x y) (Z.land (not32 x) z).

Definition Maj (x y z : Z) : Z :=
  Z.lxor (Z.lxor (Z.land x y) (Z.land x z)) (Z.land y z).

Definition Sum0 (x : Z) : Z := Z.lxor (Z.lxor (rotr 2 x) (rotr 13 x)) (rotr 22 x).

Definition Sum1 (x : Z) : Z := Z.lxor (Z.lxor (rotr 6 x) (rotr 11 x)) (rotr 25 x).

Definition sig0 (x : Z) : Z := Z.lxor (Z.lxor (rotr 7 x) (rotr 18 x)) (Z.shiftr x 3).

Definition sig1 (x : Z) : Z := Z.lxor (Z.lxor (rotr 17 x) (rotr 19 x)) (Z.shiftr x 10).

(** The round constants: the first 32 bits of the fractional parts of the
    cube roots of the first 64 primes. *)
Definition round_constants : list Z :=
  ( 1116352408 :: 1899447441 :: 3049323471 :: 3921009573
 :: 961987163 :: 1508970993 :: 2453635748 :: 2870763221
 :: 3624381080 :: 310598401 :: 607225278 :: 1426881987
 :: 1925078388 :: 2162078206 :: 2614888103 :: 3248222580
 :: 3835390401 :: 4022224774 :: 264347078 :: 604807628
 :: 770255983 :: 1249150122 :: 1555081692 :: 1996064986
 :: 2554220882 :: 2821834349 :: 2952996808 :: 3210313671
 :: 3336571891 :: 3584528711 :: 113926993 :: 338241895
 :: 666307205 :: 773529912 :: 1294757372 :: 1396182291
 :: 1695183700 :: 1986661051 :: 2177026350 :: 2456956037
 :: 2730485921 :: 2820302411 :: 3259730800 :: 3345764771
 :: 3516065817 :: 3600352804 :: 4094571909 :: 275423344
 :: 430227734 :: 506948616 :: 659060556 :: 883997877
 :: 958139571 :: 1322822218 :: 1537002063 :: 1747873779
 :: 1955562222 :: 2024104815 :: 2227730452 :: 2361852424
 :: 2428436474 :: 2756734187 :: 3204031479 :: 3329325298 :: nil ).

Record state := mkState
  { ha : Z; hb : Z; hc : Z; hd : Z; he : Z; hf : Z; hg : Z; hh : Z }.

Definition initial : state :=
  mkState 1779033703 3144134277 1013904242 2773480762
          1359893119 2600822924 528734635 1541459225.

(** Padding (section 5.1.1): the bit 1, zero bits up to 448 modulo 512 and
    the length in bits on 64 bits. *)
Definition be_bytes (n : nat) (x : Z) : list Z :=
  map (fun i => Z.land (Z.shiftr x (8 * Z.of_nat (n - 1 - i))) 255) (seq 0 n).

Definition pad (msg : list Z) : list Z :=
  let len := Z.of_nat (List.length msg) in
  msg ++ 128 :: repeat 0 (Z.to_nat ((55 - len) mod 64)) ++ be_bytes 8 (8 * len).

Fixpoint words (n : nat) (bytes : list Z) : list Z :=
  match n, bytes with
  | S n', a :: b :: c :: d :: rest =>
      (a * 16777216 + b * 65536 + c * 256 + d) :: words n' rest
  | _, _ => []
  end.

Fixpoint blocks (n : nat) (ws : list Z) : list (list Z) :=
  match n with
  | O => []
  | S n' => firstn 16 ws :: blocks n' (skipn 16 ws)
  end.

(** One round (section 6.2.2, step 3) on the window [W_t .. W_(t+15)] of the
    message schedule; the window then moves on by one word (step 1). *)
Definition round (sw : state * list Z) (k : Z) : state * list Z :=
  let (s, window) := sw in
  let wt := nth 0 window 0 in
  let t1 := add32 (add32 (add32 (add32 (hh s) (Sum1 (he s)))
                                (Ch (he s) (hf s) (hg s))) k) wt in
  let t2 := add32 (Sum0 (ha s)) (Maj (ha s) (hb s) (hc s)) in
  let next := add32 (add32 (add32 (sig1 (nth 14 window 0)) (nth 9 window 0))
                           (sig0 (nth 1 window 0))) wt in
  (mkState (add32 t1 t2) (ha s) (hb s) (hc s) (add32 (hd s) t1) (he s) (hf s) (hg s),
   tl window ++ [next]).

Definition compress (s : state) (block : list Z) : state :=
  let r := fst (fold_left round round_constants (s, block)) in
  mkState (add32 (ha s) (ha r)) (add32 (hb s) (hb r)) (add32 (hc s) (hc r))
          (add32 (hd s) (hd r)) (add32 (he s) (he r)) (add32 (hf s) (hf r))
          (add32 (hg s) (hg r)) (add32 (hh s) (hh r)).

Definition digest_bytes (s : state) : list byte :=
  map Buffer.byte_of_Z
      (be_bytes 4 (ha s) ++ be_bytes 4 (hb s) ++ be_bytes 4 (hc s) ++
       be_bytes 4 (hd s) ++ be_bytes 4 (he s) ++ be_bytes 4 (hf s) ++
       be_bytes 4 (hg s) ++ be_bytes 4 (hh s)).

Definition sha256 (msg : list byte) : list byte :=
  let padded := pad (map Buffer.Z_of_byte msg) in
  let n := List.length padded in
  digest_bytes
    (fold_left compress (blocks (Nat.div n 64) (words (Nat.div n 4) padded)) initial).

End SHA256.

(** [crypto.createHash("sha256").update(s).digest("base64url")] on a string:
    the string is hashed as its UTF-8 bytes. *)
Definition sha256_base64url (s : string) : string :=
  Buffer.base64url (SHA256.sha256 (list_byte_of_string s)).

Definition rfc7636_verifier : string := "dBjftJeZ4CVP-mB92K27uhbUJU1p1r_wW1gFWFOEjXk".

(* ================================================================== *)
(** ** JavaScript [Date]: time values and the ISO 8601 text form        *)
(* ================================================================== *)

Module JsDate.

(** A time value: milliseconds since 1970-01-01T00:00:00Z. *)
Definition t := Z.

Definition msPerDay : Z := 86400000.

(** Day number (days since the epoch) to year, month, day in the
    proleptic Gregorian calendar. Years are counted from 1 March, in
    400-year eras of 146097 days. *)
Definition civil_of_day (day : Z) : Z * Z * Z :=
  let z := day + 719468 in
  let era := z / 146097 in
  let doe := z mod 146097 in
  let yoe := (doe - doe / 1460 + doe / 36524 - doe / 146096) / 365 in
  let doy := doe - (365 * yoe + yoe / 4 - yoe / 100) in
  let mp := (5 * doy + 2) / 153 in
  let d := doy - (153 * mp + 2) / 5 + 1 in
  let m := if mp <? 10 then mp + 3 else mp - 9 in
  let y := yoe + era * 400 + (if m <=? 2 then 1 else 0) in
  (y, m, d).

Definition day_of_civil (y m d : Z) : Z :=
  let y' := if m <=? 2 then y - 1 else y in
  let era := y' / 400 in
  let yoe := y' mod 400 in
  let mp := if 2 <? m then m - 3 else m + 9 in
  let doy := (153 * mp + 2) / 5 + d - 1 in
  let doe := yoe * 365 + yoe / 4 - yoe / 100 + doy in
  era * 146097 + doe - 719468.

Definition digit (d : Z) : ascii := ascii_of_N (Z.to_N (48 + d)).

(** [n] on [width] decimal digits, zero-padded. *)
Fixpoint digits (width : nat) (n : Z) : string :=
  match width with
  | O => ""
  | S w => (digits w (n / 10) ++ String (digit (n mod 10)) "")%string
  end.

Definition year_text (y : Z) : string :=
  if (0 <=? y) && (y <=? 9999) then digits 4 y
  else ((if (y <? 0)%Z then "-" else "+") ++ digits 6 (Z.abs y))%string.

(** [Date.prototype.toISOString] (ECMAScript 21.4.4.36):
    YYYY-MM-DDTHH:mm:ss.sssZ, the year on six signed digits outside
    0..9999. *)
Definition toISOString (tv : t) : string :=
  let '(y, m, d) := civil_of_day (tv / msPerDay) in
  let ms := tv mod msPerDay in
  (year_text y ++ "-" ++ digits 2 m ++ "-" ++ digits 2 d ++ "T" ++
   digits 2 (ms / 3600000) ++ ":" ++ digits 2 (ms / 60000 mod 60) ++ ":" ++
   digits 2 (ms / 1000 mod 60) ++ "." ++ digits 3 (ms mod 1000) ++ "Z")%string.

(** Reading a decimal number. *)
Fixpoint number_from (acc : Z) (s : string) : option Z :=
  match s with
  | EmptyString => Some acc
  | String c s' =>
      let n := Z.of_N (N_of_ascii c) in
      if (48 <=? n) && (n <=? 57) then number_from (10 * acc + (n - 48)) s'
      else None
  end.

Definition number (s : string) : option Z :=
  match s with
  | EmptyString => None
  | _ => number_from 0 s
  end.

Definition field (s : string) (start len : nat) : option Z :=
  let f := String.substring start len s in
  if Nat.eqb (String.length f) len then number f else None.

Definition is_leap (y : Z) : bool :=
  ((y mod 4 =? 0) && negb (y mod 100 =? 0)) || (y mod 400 =? 0).

Definition days_in_month (y m : Z) : Z :=
  if m =? 2 then (if is_leap y then 29 else 28)
  else if (m =? 4) || (m =? 6) || (m =? 9) || (m =? 11) then 30 else 31.

(** The range of time values a [Date] can hold (TimeClip). *)
Definition in_range (tv : Z) : bool := (-8640000000000000 <=? tv) && (tv <=? 8640000000000000).

(** The date-time part after the year: -MM-DDTHH:mm:ss.sssZ. *)
Definition parse_after_year (y : Z) (s : string) : option t :=
  if negb (String.eqb (String.substring 0 1 s) "-" &&
           String.eqb (String.substring 3 1 s) "-" &&
           String.eqb (String.substring 6 1 s) "T" &&
           String.eqb (String.substring 9 1 s) ":" &&
           String.eqb (String.substring 12 1 s) ":" &&
           String.eqb (String.substring 15 1 s) "." &&
           String.eqb (String.substring 19 1 s) "Z" &&
           Nat.eqb (String.length s) 20)
  then None
  else
    match field s 1 2, field s 4 2, field s 7 2, field s 10 2, field s 13 2,
          field s 16 3 with
    | Some m, Some d, Some hh, Some mm, Some ss, Some ms =>
        if (1 <=? m) && (m <=? 12) && (1 <=? d) && (d <=? days_in_month y m) &&
           (hh <=? 23) && (mm <=? 59) && (ss <=? 59)
        then
          let tv := day_of_civil y m d * msPerDay +
                    hh * 3600000 + mm * 60000 + ss * 1000 + ms in
          if in_range tv then Some tv else None
        else None
    | _, _, _, _, _, _ => None
    end.

(** [Date.parse] on the text form [toISOString] writes; [None] is an
    invalid date. Other spellings, for which engines differ, are not
    recognised by this parser. *)
Definition parse_iso (s : string) : option t :=
  match s with
  | String "+" rest =>
      match field rest 0 6 with
      | Some y => parse_after_year y (String.substring 6 (String.length rest - 6) rest)
      | None => None
      end
  | String "-" rest =>
      match field rest 0 6 with
      | Some y =>
          if y =? 0 then None
          else parse_after_year (- y) (String.substring 6 (String.length rest - 6) rest)
      | None => None
      end
  | _ =>
      match field s 0 4 with
      | Some y => parse_after_year y (String.substring 4 (String.length s - 4) s)
      | None => None
      end
  end.

(** The text after the year. *)
Definition tail_text (m d ms : Z) : string :=
  ("-" ++ digits 2 m ++ "-" ++ digits 2 d ++ "T" ++
   digits 2 (ms / 3600000) ++ ":" ++ digits 2 (ms / 60000 mod 60) ++ ":" ++
   digits 2 (ms / 1000 mod 60) ++ "." ++ digits 3 (ms mod 1000) ++ "Z")%string.

End JsDate.

(* ================================================================== *)
(** ** Types (pkcehandler.ts, lines 18-50)                              *)
(* ================================================================== *)

Module PKCETransaction.

Record t := mk
  { codeVerifier : string;
    codeChallenge : string;
    clientCallbackUrl : string;
    clientId : string;
    clientState : string;
    scope : list string;
    createdAt : JsDate.t;
    expiresAt : JsDate.t }.

End PKCETransaction.

Module TokenData.

Record t := mk
  { accessToken : string;
    refreshToken : option string;
    expiresAt : JsDate.t }.

End TokenData.

(** Serializable version for file storage: the expiry is an ISO string. *)
Module SerializedTokenData.

Record t := mk
  { accessToken : string;
    refreshToken : option string;
    expiresAt : string }.

End SerializedTokenData.

(** The resolved configuration ([this.config]). *)
Module Config.

Record t := mk
  { baseUrl : string;
    clientId : string;
    authorizationEndpoint : string;
    tokenEndpoint : string;
    redirectPath : string;
    scopes : list string;
    tokenStoragePath : string }.

End Config.

(** [OAuthProxyError(code, description, statusCode)] of fastmcp/auth. *)
Record OAuthProxyError := mkError
  { error_code : string; error_description : string; error_status : Z }.

(** A URL under construction: the text it was parsed from and the search
    parameters set on it since, in the order of [URLSearchParams]. *)
Record Url := mkUrl { href : string; searchParams : JsMap.t string }.

Definition searchParams_set (name value : string) (u : Url) : Url :=
  mkUrl (href u) (JsMap.set name value (searchParams u)).

(** The two kinds of [Response] the handlers build: a JSON body with a
    status, and a redirect (status 302) with a [Location] header. *)
Inductive Response :=
| JsonResponse (status : Z) (body : JsMap.t string)
| RedirectResponse (location : Url).

Definition error_response (error : string) : Response :=
  JsonResponse 400 [("error", error)].

(** An incoming [Request], as far as the handlers read it: the query
    string of its URL, as name-value pairs in order. *)
Record Request := mkRequest { query : list (string * string) }.

(** [url.searchParams.get(name)]: the first value of that name, or null. *)
Definition searchParams_get (name : string) (r : Request) : option string :=
  JsMap.get name (query r).

(** What [fetch] sends to the upstream token endpoint and what it gets
    back: a failure with its text, or the token JSON. *)
Record FetchRequest := mkFetch { fetch_url : string; fetch_body : list (string * string) }.

Inductive FetchResponse :=
| NotOk (text : string)
| Ok (access_token : string) (refresh_token : option string) (expires_in : option Z).

(** The content of the token file: absent, not parsable as JSON, or a JSON
    object from token key to serialized record. *)
Inductive File :=
| NoFile
| Unparsable
| Snapshot (stored : JsMap.t SerializedTokenData.t).

(** The return value of [exchangeAuthorizationCode]. *)
Record TokenResponse := mkTokenResponse
  { access_token : string;
    token_type : string;
    expires_in : Z;
    refresh_token : option string }.

Record PKCE := mkPKCE { verifier : string; challenge : string }.

(* ================================================================== *)
(** ** The proxy object and its environment                            *)
(* ================================================================== *)

Record World := mkWorld
  { (* the two private maps of the class *)
    transactions : JsMap.t PKCETransaction.t;
    tokens : JsMap.t TokenData.t;
    (* the file at config.tokenStoragePath and the fs.writeFileSync calls
       made so far; the n-th call throws when [write_fails n], and has by
       then opened the file, which empties it, when [write_tears n] *)
    file : File;
    writes : nat;
    write_fails : nat -> bool;
    write_tears : nat -> bool;
    (* the clock: [clock n] is what the n-th reading returns *)
    clock : nat -> Z;
    ticks : nat;
    (* the entropy source: the n-th random byte drawn *)
    entropy : nat -> byte;
    drawn : nat }.

(** The time the next clock reading returns. *)
Definition now (w : World) : Z := clock w (ticks w).

Definition with_transactions (m : JsMap.t PKCETransaction.t) (w : World) : World :=
  mkWorld m (tokens w) (file w) (writes w) (write_fails w) (write_tears w)
          (clock w) (ticks w) (entropy w) (drawn w).

Definition with_tokens (m : JsMap.t TokenData.t) (w : World) : World :=
  mkWorld (transactions w) m (file w) (writes w) (write_fails w) (write_tears w)
          (clock w) (ticks w) (entropy w) (drawn w).

(** One [fs.writeFileSync] call; [content] is [None] when the call throws.
    The call opens the file with flag 'w', which creates or empties it,
    and then writes the text. A call that throws before the file is open
    leaves it as it was; one that throws later leaves a file that is empty
    or cut short, and so is no JSON text. *)
Definition with_write (content : option File) (w : World) : World :=
  mkWorld (transactions w) (tokens w)
          (match content with
           | Some f => f
           | None => if write_tears w (writes w) then Unparsable else file w
           end)
          (S (writes w)) (write_fails w) (write_tears w)
          (clock w) (ticks w) (entropy w) (drawn w).

Definition with_tick (w : World) : World :=
  mkWorld (transactions w) (tokens w) (file w) (writes w) (write_fails w)
          (write_tears w) (clock w) (S (ticks w)) (entropy w) (drawn w).

Definition with_drawn (n : nat) (w : World) : World :=
  mkWorld (transactions w) (tokens w) (file w) (writes w) (write_fails w)
          (write_tears w) (clock w) (ticks w) (entropy w) (drawn w + n).

(** *** Methods as state transformers that may throw *)

Inductive Outcome (A : Type) :=
| Return (a : A)
| Throw (e : OAuthProxyError).

Arguments Return {A} a.

Arguments Throw {A} e.

Definition M (A : Type) : Type := World -> Outcome A * World.

Definition ret {A} (a : A) : M A := fun w => (Return a, w).

Definition bind {A B} (m : M A) (k : A -> M B) : M B :=
  fun w =>
    match m w with
    | (Return a, w') => k a w'
    | (Throw e, w') => (Throw e, w')
    end.

Definition throw {A} (e : OAuthProxyError) : M A := fun w => (Throw e, w).

Notation "x <- m ;; k" := (bind m (fun x => k))
  (at level 61, m at next level, right associativity).

Notation "m ;;; k" := (bind m (fun _ => k))
  (at level 61, right associativity).

Definition gets {A} (f : World -> A) : M A := fun w => (Return (f w), w).

Definition modify (f : World -> World) : M unit := fun w => (Return tt, f w).

(** [for (const x of xs) body(x)] *)
Fixpoint for_of {A} (xs : list A) (body : A -> M unit) : M unit :=
  match xs with
  | [] => ret tt
  | x :: xs' => body x ;;; for_of xs' body
  end.

(** A loop that carries a local variable:
    [let s = s0; for (const x of xs) s = body(x, s)] *)
Fixpoint for_of_acc {A S} (xs : list A) (s : S) (body : A -> S -> M S) : M S :=
  match xs with
  | [] => ret s
  | x :: xs' => s' <- body x s ;; for_of_acc xs' s' body
  end.

(** [new Date()] and [Date.now()]: one clock reading. *)
Definition Date_now : M Z := fun w => (Return (now w), with_tick w).

(** The next [n] bytes the entropy source yields. *)
Definition next_bytes (n : nat) (w : World) : list byte :=
  map (fun i => entropy w (drawn w + i)%nat) (seq 0 n).

Arguments next_bytes : simpl never.

(** [crypto.randomBytes(n)] *)
Definition randomBytes (n : nat) : M (list byte) :=
  fun w => (Return (next_bytes n w), with_drawn n w).

(** JavaScript truthiness of a [string | null | undefined]. *)
Definition truthy (s : option string) : bool :=
  match s with
  | Some s' => negb (String.eqb s' "")
  | None => false
  end.

Definition or_else (s : option string) (d : string) : string :=
  match s with
  | Some s' => if String.eqb s' "" then d else s'
  | None => d
  end.

(* ================================================================== *)
(** ** Plain objects: the order of [Object.entries]                     *)
(* ================================================================== *)

Module JsObject.

(** A property name is an array index when it is the canonical decimal
    form of an integer below 2^32 - 1. *)
Definition array_index (name : string) : option Z :=
  match JsDate.number name with
  | Some n =>
      if (String.eqb name "0" || negb (String.eqb (String.substring 0 1 name) "0"))
         && (n <? 4294967295)
      then Some n else None
  | None => None
  end.

Section Entries.

Context {V : Type}.

Fixpoint insert_sorted (e : Z * (string * V)) (l : list (Z * (string * V))) :=
  match l with
  | [] => [e]
  | e' :: l' => if fst e <=? fst e' then e :: l else e' :: insert_sorted e l'
  end.

Definition sort_by_index (l : list (Z * (string * V))) : list (Z * (string * V)) :=
  fold_right insert_sorted [] l.

Definition indexed (o : JsMap.t V) : list (Z * (string * V)) :=
  flat_map (fun kv => match array_index (fst kv) with
                      | Some i => [(i, kv)]
                      | None => []
                      end) o.

Definition named (o : JsMap.t V) : list (string * V) :=
  filter (fun kv => match array_index (fst kv) with
                    | Some _ => false
                    | None => true
                    end) o.

(** [Object.entries(o)]: the array-index properties in ascending numeric
    order, then the other properties in the order they were created. *)
Definition entries (o : JsMap.t V) : list (string * V) :=
  map snd (sort_by_index (indexed o)) ++ named o.

End Entries.

End JsObject.

(* ================================================================== *)
(** ** The methods of [PKCEOAuthProxy]                                  *)
(* ================================================================== *)

Definition serialize (value : TokenData.t) : SerializedTokenData.t :=
  SerializedTokenData.mk
    (TokenData.accessToken value)
    (TokenData.refreshToken value)
    (JsDate.toISOString (TokenData.expiresAt value)).

(** The object [toStore] that [saveTokensToDisk] fills from the map
    (lines 115-122). The assignment [toStore[key] = {...}] creates or
    replaces the property [key], except for the key "__proto__": there it
    sets the prototype of [toStore] and creates no property, so that
    [JSON.stringify] does not write that record. *)
Definition toStore (m : JsMap.t TokenData.t) : JsMap.t SerializedTokenData.t :=
  fold_left (fun o kv =>
               if String.eqb (fst kv) "__proto__" then o
               else JsMap.set (fst kv) (serialize (snd kv)) o)
            m JsMap.empty.

(** [saveTokensToDisk] (lines 113-127). [JSON.stringify] writes the
    properties in the order of [Object.entries]; the whole file is
    replaced. A throwing [writeFileSync] is caught and logged. *)
Definition saveTokensToDisk : M unit :=
  fun w =>
    let content :=
      if write_fails w (writes w) then None
      else Some (Snapshot (JsObject.entries (toStore (tokens w)))) in
    (Return tt, with_write content w).

(** [loadTokensFromDisk] (lines 88-110). [Date_parse] is the engine's
    reading of a date string ([new Date(s)]), [None] for an invalid date,
    which compares false with every date. A missing or unparsable file
    loads nothing. *)
Definition loadTokensFromDisk (Date_parse : string -> option JsDate.t) : M unit :=
  fun w =>
    match file w with
    | Snapshot stored =>
        for_of (JsObject.entries stored)
          (fun kv =>
             let key := fst kv in
             let value := snd kv in
             let expiresAt := Date_parse (SerializedTokenData.expiresAt value) in
             current <- Date_now ;;
             match expiresAt with
             | Some e =>
                 if current <? e
                 then modify (fun w' =>
                        with_tokens
                          (JsMap.set key
                             (TokenData.mk (SerializedTokenData.accessToken value)
                                           (SerializedTokenData.refreshToken value) e)
                             (tokens w')) w')
                 else ret tt
             | None => ret tt
             end) w
    | NoFile | Unparsable => (Return tt, w)
    end.

(** The constructor (lines 73-85): a new object, with empty maps, that
    loads the token file. The sweeper it starts is [startCleanup_tick]. *)
Definition constructor (Date_parse : string -> option JsDate.t) : M unit :=
  modify (fun w => with_tokens JsMap.empty (with_transactions JsMap.empty w)) ;;;
  loadTokensFromDisk Date_parse.

(** [generatePKCE] (lines 130-141) *)
Definition generatePKCE : M PKCE :=
  bytes <- randomBytes 32 ;;
  let verifier := Buffer.base64url bytes in
  let challenge := sha256_base64url verifier in
  ret (mkPKCE verifier challenge).

(** [generateId] (lines 143-145) *)
Definition generateId : M string :=
  bytes <- randomBytes 16 ;;
  ret (Buffer.hex bytes).

(** [s.split(sep)] for a one-character separator. *)
Fixpoint split (sep : ascii) (s : string) : list string :=
  match s with
  | EmptyString => [""]
  | String c s' =>
      if Ascii.eqb c sep then "" :: split sep s'
      else match split sep s' with
           | h :: t => String c h :: t
           | [] => [String c ""]
           end
  end.

(** [authorize] (lines 162-214). The URL built at line 199 is modelled
    for an authorization endpoint that [new URL] accepts, an absolute URL:
    for any other text the source throws a [TypeError] there, with the
    transaction already stored, which this definition does not do; the
    statements about its redirect are therefore about endpoints that
    [new URL] accepts. *)
Definition authorize (config : Config.t)
    (client_id redirect_uri response_type : string)
    (state scope : option string) : M Response :=
  if negb (String.eqb response_type "code")
  then ret (error_response "unsupported_response_type")
  else
    pkce <- generatePKCE ;;
    transactionId <- generateId ;;
    clientState <- (if truthy state then ret (or_else state "") else generateId) ;;
    let scope' := if truthy scope then split " " (or_else scope "")
                  else Config.scopes config in
    createdAt <- Date_now ;;
    current <- Date_now ;;
    let transaction :=
      PKCETransaction.mk (verifier pkce) (challenge pkce) redirect_uri client_id
                         clientState scope' createdAt (current + 600 * 1000) in
    modify (fun w =>
      with_transactions (JsMap.set transactionId transaction (transactions w)) w) ;;;
    let authUrl :=
      searchParams_set "code_challenge_method" "S256"
     (searchParams_set "code_challenge" (challenge pkce)
     (searchParams_set "state" transactionId
     (searchParams_set "scope" (String.concat "," (PKCETransaction.scope transaction))
     (searchParams_set "response_type" "code"
     (searchParams_set "redirect_uri"
        (Config.baseUrl config ++ Config.redirectPath config)%string
     (searchParams_set "client_id" (Config.clientId config)
     (mkUrl (Config.authorizationEndpoint config) []))))))) in
    ret (RedirectResponse authUrl).

(** [tokens.expires_in || 3600] *)
Definition expires_in_or_default (e : option Z) : Z :=
  match e with
  | Some n => if n =? 0 then 3600 else n
  | None => 3600
  end.

(** The POST that [handleCallback] sends to the upstream token endpoint
    (lines 261-271): the upstream code, the proxy's own client id and
    callback, and the transaction's verifier; no client secret. *)
Definition token_request (config : Config.t) (code : string)
    (transaction : PKCETransaction.t) : FetchRequest :=
  mkFetch (Config.tokenEndpoint config)
    [("grant_type", "authorization_code");
     ("code", code);
     ("client_id", Config.clientId config);
     ("redirect_uri", (Config.baseUrl config ++ Config.redirectPath config)%string);
     ("code_verifier", PKCETransaction.codeVerifier transaction)].

(** [handleCallback] (lines 218-311). [fetch] is the upstream token
    endpoint; the handler is run to its end, with no other handler
    scheduled while it awaits the upstream answer. Two steps of the last
    branch are modelled on part of their inputs only. The expiry
    [new Date(Date.now() + lifetime * 1000)] (line 294) is the sum as
    long as that is a time value a [Date] can hold ([JsDate.in_range]);
    beyond it the source stores an Invalid Date, which [TokenData.t] does
    not represent. The URL built at line 299 is modelled for a client
    callback that [new URL] accepts: for any other text the source throws
    a [TypeError] there, with the token stored and saved and the
    transaction still in place ([after_callback] below follows that
    case). The statements about this branch are therefore about lifetimes
    in range and callbacks that [new URL] accepts. *)
Definition handleCallback (config : Config.t)
    (fetch : FetchRequest -> FetchResponse) (request : Request) : M Response :=
  let code := searchParams_get "code" request in
  let state := searchParams_get "state" request in
  if negb (truthy state) then ret (error_response "missing_state")
  else if negb (truthy code) then ret (error_response "missing_code")
  else
    let state := or_else state "" in
    let code := or_else code "" in
    found <- gets (fun w => JsMap.get state (transactions w)) ;;
    match found with
    | None => ret (error_response "invalid_state")
    | Some transaction =>
        current <- Date_now ;;
        if PKCETransaction.expiresAt transaction <? current
        then
          modify (fun w => with_transactions (JsMap.delete state (transactions w)) w) ;;;
          ret (error_response "transaction_expired")
        else
          let tokenResponse := fetch (token_request config code transaction) in
          match tokenResponse with
          | NotOk error =>
              ret (JsonResponse 400
                     [("error", "token_exchange_failed"); ("details", error)])
          | Ok upstream_access upstream_refresh upstream_expires_in =>
              proxyToken <- generateId ;;
              issued <- Date_now ;;
              modify (fun w =>
                with_tokens
                  (JsMap.set proxyToken
                     (TokenData.mk upstream_access upstream_refresh
                        (issued + expires_in_or_default upstream_expires_in * 1000))
                     (tokens w)) w) ;;;
              saveTokensToDisk ;;;
              let clientRedirect :=
                searchParams_set "state" (PKCETransaction.clientState transaction)
               (searchParams_set "code" proxyToken
               (mkUrl (PKCETransaction.clientCallbackUrl transaction) [])) in
              modify (fun w =>
                with_transactions (JsMap.delete state (transactions w)) w) ;;;
              ret (RedirectResponse clientRedirect)
          end
    end.

Definition invalid_request : OAuthProxyError :=
  mkError "invalid_request" "Missing authorization code" 400.

Definition invalid_grant_code : OAuthProxyError :=
  mkError "invalid_grant" "Invalid or expired authorization code" 400.

Definition invalid_grant_refresh : OAuthProxyError :=
  mkError "invalid_grant" "Refresh tokens are not supported. Please re-authenticate." 400.

(** [exchangeAuthorizationCode] (lines 315-360); [code] is [params.code],
    the one field of [params] the method reads. *)
Definition exchangeAuthorizationCode (code : option string) : M TokenResponse :=
  if negb (truthy code) then throw invalid_request
  else
    let code := or_else code "" in
    found <- gets (fun w => JsMap.get code (tokens w)) ;;
    match found with
    | None => throw invalid_grant_code
    | Some tokenData =>
        modify (fun w => with_tokens (JsMap.delete code (tokens w)) w) ;;;
        accessToken <- generateId ;;
        modify (fun w => with_tokens (JsMap.set accessToken tokenData (tokens w)) w) ;;;
        saveTokensToDisk ;;;
        current <- Date_now ;;
        let expiresIn := (TokenData.expiresAt tokenData - current) / 1000 in
        ret (mkTokenResponse accessToken "Bearer"
               (if 0 <? expiresIn then expiresIn else 3600) None)
    end.

(** [exchangeRefreshToken] (lines 365-386); no field of [params] is read. *)
Definition exchangeRefreshToken (refresh_token : string) : M TokenResponse :=
  throw invalid_grant_refresh.

(** [loadUpstreamTokens] (lines 404-413) *)
Definition loadUpstreamTokens (proxyToken : string) : M (option TokenData.t) :=
  found <- gets (fun w => JsMap.get proxyToken (tokens w)) ;;
  match found with
  | None => ret None
  | Some data =>
      current <- Date_now ;;
      if TokenData.expiresAt data <? current
      then
        modify (fun w => with_tokens (JsMap.delete proxyToken (tokens w)) w) ;;;
        saveTokensToDisk ;;;
        ret None
      else ret (Some data)
  end.

(** [getFirstValidToken] (lines 416-424): the loop returns at the first
    entry, in insertion order, that is still valid. *)
Definition getFirstValidToken : M (option TokenData.t) :=
  current <- Date_now ;;
  entries <- gets tokens ;;
  ret (option_map snd
         (find (fun kv => current <? TokenData.expiresAt (snd kv)) entries)).

(** One firing of the interval callback of [startCleanup] (lines 428-445).
    Each loop visits the entries the map holds when the loop starts; its
    body deletes no entry but the one it visits. *)
Definition startCleanup_tick : M unit :=
  current <- Date_now ;;
  txs <- gets transactions ;;
  for_of txs (fun kv =>
    if PKCETransaction.expiresAt (snd kv) <? current
    then modify (fun w => with_transactions (JsMap.delete (fst kv) (transactions w)) w)
    else ret tt) ;;;
  toks <- gets tokens ;;
  tokensChanged <-
    for_of_acc toks false (fun kv changed =>
      if TokenData.expiresAt (snd kv) <? current
      then
        modify (fun w => with_tokens (JsMap.delete (fst kv) (tokens w)) w) ;;;
        ret true
      else ret changed) ;;
  if tokensChanged then saveTokensToDisk else ret tt.

(** [destroy] (lines 448-455): the interval is cleared, the tokens saved. *)
Definition destroy : M unit := saveTokensToDisk.

(* ================================================================== *)
(** ** Options, metadata and registration (pkcehandler.ts)             *)
(* ================================================================== *)

(** The options the constructor takes ([PKCEOAuthProxyConfig], lines
    42-50); the last two are optional. *)
Module Options.

Record t := mk
  { baseUrl : string;
    clientId : string;
    authorizationEndpoint : string;
    tokenEndpoint : string;
    scopes : list string;
    redirectPath : option string;
    tokenStoragePath : option string }.

End Options.

(** [this.config] as the constructor fills it (lines 74-82).
    [home_tokens] is the value of
    [path.join(os.homedir(), ".reflect-mcp-tokens.json")]. *)
Definition config_of_options (home_tokens : string) (options : Options.t) : Config.t :=
  Config.mk (Options.baseUrl options)
            (Options.clientId options)
            (Options.authorizationEndpoint options)
            (Options.tokenEndpoint options)
            (or_else (Options.redirectPath options) "/oauth/callback")
            (Options.scopes options)
            (or_else (Options.tokenStoragePath options) home_tokens).

(** The value of [getAuthorizationServerMetadata]. *)
Module Metadata.

Record t := mk
  { issuer : string;
    authorizationEndpoint : string;
    tokenEndpoint : string;
    registrationEndpoint : string;
    responseTypesSupported : list string;
    grantTypesSupported : list string;
    codeChallengeMethodsSupported : list string;
    scopesSupported : list string }.

End Metadata.

(** [getAuthorizationServerMetadata] (lines 148-159) *)
Definition getAuthorizationServerMetadata (config : Config.t) : Metadata.t :=
  Metadata.mk (Config.baseUrl config)
              (Config.baseUrl config ++ "/oauth/authorize")%string
              (Config.baseUrl config ++ "/oauth/token")%string
              (Config.baseUrl config ++ "/oauth/register")%string
              ["code"]
              ["authorization_code"; "refresh_token"]
              ["S256"]
              (Config.scopes config).

(** The value of [registerClient]. *)
Module Registration.

Record t := mk
  { client_id : string;
    client_name : option string;
    redirect_uris : option (list string) }.

End Registration.

(** [registerClient] (lines 389-401) *)
Definition registerClient (redirect_uris : option (list string))
    (client_name : option string) : M Registration.t :=
  client_id <- generateId ;;
  ret (Registration.mk client_id client_name redirect_uris).

(* ================================================================== *)
(** ** The server (server.ts)                                          *)
(* ================================================================== *)

(** [try { m } catch (error) { handler(error) }] *)
Definition try_catch {A} (m : M A) (handler : OAuthProxyError -> M A) : M A :=
  fun w =>
    match m w with
    | (Return a, w') => (Return a, w')
    | (Throw e, w') => handler e w'
    end.

(** [s.startsWith(prefix)] *)
Definition startsWith (prefix s : string) : bool := String.prefix prefix s.

(** [s.slice(n)] for [n] from 0 on: [s] without its first [n] characters. *)
Fixpoint slice (n : nat) (s : string) : string :=
  match n, s with
  | O, _ => s
  | S n', String _ s' => slice n' s'
  | S _, EmptyString => EmptyString
  end.

Module Server.

(** [ServerConfig] (lines 11-15). A port is an integer, or is missing:
    [undefined], or the [NaN] that [parseInt] yields. *)
Module ServerConfig.

Record t := mk
  { clientId : string;
    port : option Z;
    dbPath : option string }.

End ServerConfig.

(** [String(n)] for an integer [n]: its decimal form. *)
Definition Number_toString (n : Z) : string :=
  DecimalString.NilZero.string_of_int (Z.to_int n).

(** [config.port || 3000] (line 18): zero is falsy too. *)
Definition port (config : ServerConfig.t) : Z :=
  match ServerConfig.port config with
  | Some p => if p =? 0 then 3000 else p
  | None => 3000
  end.

(** The template [`http://localhost:${port}`] (line 19) *)
Definition baseUrl (config : ServerConfig.t) : string :=
  ("http://localhost:" ++ Number_toString (port config))%string.

(** The options [startReflectMCPServer] constructs the proxy with
    (lines 22-28). *)
Definition pkceProxy_options (config : ServerConfig.t) : Options.t :=
  Options.mk (baseUrl config)
             (ServerConfig.clientId config)
             "https://reflect.app/oauth"
             "https://reflect.app/api/oauth/token"
             ["read:graph"; "write:graph"]
             None None.

(** What [authenticate] yields: the session object it returns, or the
    [Response] it throws, with its status and status text. *)
Inductive Authenticated :=
| Session (accessToken : string) (refreshToken : option string) (expiresIn : Z)
| Rejected (status : Z) (statusText : string).

(** [authenticate] (lines 46-91); [authorization] is
    [request.headers.authorization]. A [Response] thrown inside the [try]
    is thrown again by the [catch]; any other error becomes a 401 of its
    own. *)
Definition authenticate (authorization : option string) : M Authenticated :=
  match authorization with
  | None => ret (Rejected 401 "Unauthorized - Bearer token required")
  | Some authHeader =>
      if negb (startsWith "Bearer " authHeader)
      then ret (Rejected 401 "Unauthorized - Bearer token required")
      else
        let token := slice 7 authHeader in
        try_catch
          (tokenData <- loadUpstreamTokens token ;;
           match tokenData with
           | None => ret (Rejected 401 "Unauthorized - Invalid or expired token")
           | Some data =>
               current <- Date_now ;;
               let expiresIn := (TokenData.expiresAt data - current) / 1000 in
               ret (Session (TokenData.accessToken data)
                            (TokenData.refreshToken data) expiresIn)
           end)
          (fun _ => ret (Rejected 401 "Unauthorized - Token validation error"))
  end.

End Server.

(* ================================================================== *)
(** ** Utilities, the note tool and the command line                   *)
(* ================================================================== *)

(** [formatDate] (utils): [new Date(timestampMs).toISOString()], for a
    whole number of milliseconds. [toISOString] throws a [RangeError],
    here [None], for a time value no [Date] can hold. *)
Definition formatDate (timestampMs : Z) : option string :=
  if JsDate.in_range timestampMs then Some (JsDate.toISOString timestampMs)
  else None.

(** The line feed, [\n]. *)
Definition LF : ascii := "010"%char.

(** [lines.join("\n")] *)
Definition join_lines (lines : list string) : string :=
  String.concat (String LF "") lines.

(** The body of the note that the [create_note] tool posts
    (tools/index.ts, lines 713-729): a fixed first line, the tag as a
    backlink, the content with every line indented by two spaces and,
    when there are tasks, a task list. *)
Definition indentedContent (content : string) : string :=
  join_lines (map (fun line => "  " ++ line)%string (split LF content)).

Definition fullContent (tag content : string) (tasks : option (list string)) : string :=
  let contentParts :=
    [String.append "#ai-generated" (String LF "");
     ("- [[" ++ tag ++ "]]" ++ String LF "")%string;
     indentedContent content] ++
    match tasks with
    | Some (task :: tasks') =>
        [""; "  ## Tasks";
         join_lines (map (fun task => "  - + " ++ task)%string (task :: tasks'))]
    | Some [] | None => []
    end in
  join_lines contentParts.

(** The loop over the command line in [install] and [runServer] (cli,
    lines 1470-1476 and 1610-1616). [parseInt] is the engine's; it yields
    an integer, or [NaN], here [None]. An argument "--port" followed by a
    non-empty argument takes that argument as the port; any other
    argument that does not start with "--" is the database path. *)
Fixpoint parse_arguments (parseInt : string -> option Z) (args : list string)
    (dbPath : string) (port : option Z) : string * option Z :=
  match args with
  | [] => (dbPath, port)
  | arg :: rest =>
      let otherwise :=
        if negb (startsWith "--" arg) then parse_arguments parseInt rest arg port
        else parse_arguments parseInt rest dbPath port in
      match rest with
      | next :: rest' =>
          if (arg =? "--port")%string && negb (next =? "")%string
          then parse_arguments parseInt rest' dbPath (parseInt next)
          else otherwise
      | [] => otherwise
      end
  end.

Definition DEFAULT_DB_PATH : string :=
  "~/Library/Application Support/Reflect/File System/000/t/00/00000000".

Definition REFLECT_CLIENT_ID : string := "55798f25d5a24efb95e4174fff3d219e".

(** The configuration [runServer] starts the server with (cli, lines
    1606-1622). *)
Definition runServer (parseInt : string -> option Z) (serverArgs : list string)
    : Server.ServerConfig.t :=
  let '(dbPath, port) := parse_arguments parseInt serverArgs DEFAULT_DB_PATH (Some 3000) in
  Server.ServerConfig.mk REFLECT_CLIENT_ID port (Some dbPath).

(** A text without a line feed. *)
Definition single_line (s : string) : bool :=
  Buffer.string_forallb (fun c => negb (Ascii.eqb c LF)) s.

(** The inverse of the indentation: every line without its first two
    characters. *)
Definition unindent (text : string) : string :=
  join_lines (map (slice 2) (split LF text)).

Definition demo_content : string := ("Plan" ++ String LF "- ship it")%string.

(** *** [stripHtml]

    The regular expressions of [stripHtml] have a class, [\s], that holds
    characters outside ASCII; here a string is the list of its UTF-16 code
    units. A regular expression is given by its matcher: what follows the
    match that starts at the head of a text, if there is one. *)
Module Html.

Definition text := list Z.

(** The class [\s], and what [trim] removes: WhiteSpace and
    LineTerminator of the language. *)
Definition white_space (c : Z) : bool :=
  (c =? 9) || (c =? 10) || (c =? 11) || (c =? 12) || (c =? 13) || (c =? 32) ||
  (c =? 160) || (c =? 5760) || ((8192 <=? c) && (c <=? 8202)) ||
  (c =? 8232) || (c =? 8233) || (c =? 8239) || (c =? 8287) || (c =? 12288) ||
  (c =? 65279).

Definition LT : Z := 60.

Definition GT : Z := 62.

Definition SLASH : Z := 47.

Definition NL : Z := 10.

(** [\s*], greedy: what follows the longest run of white space. *)
Fixpoint skip_white_space (s : text) : text :=
  match s with
  | c :: s' => if white_space c then skip_white_space s' else s
  | [] => []
  end.

(** [/<br\s*\/?>/i] *)
Definition match_br (s : text) : option text :=
  match s with
  | lt :: b :: r :: s' =>
      if (lt =? LT) && ((b =? 98) || (b =? 66)) && ((r =? 114) || (r =? 82))
      then
        match skip_white_space s' with
        | c :: s'' =>
            if c =? GT then Some s''
            else if c =? SLASH
                 then match s'' with
                      | c' :: s''' => if c' =? GT then Some s''' else None
                      | [] => None
                      end
                 else None
        | [] => None
        end
      else None
  | _ => None
  end.

(** What follows the first [>]. *)
Fixpoint after_gt (s : text) : option text :=
  match s with
  | c :: s' => if c =? GT then Some s' else after_gt s'
  | [] => None
  end.

(** [/<[^>]+>/]: at least one character between the brackets. *)
Definition match_tag (s : text) : option text :=
  match s with
  | lt :: c :: s' => if (lt =? LT) && negb (c =? GT) then after_gt s' else None
  | _ => None
  end.

(** In a run of white space, what follows its last line feed. *)
Fixpoint after_last_NL (s : text) : option text :=
  match s with
  | c :: s' =>
      if white_space c
      then match after_last_NL s' with
           | Some rest => Some rest
           | None => if c =? NL then Some s' else None
           end
      else None
  | [] => None
  end.

(** [/\n\s*\n/]: [\s*] is greedy and gives back down to the last line
    feed of the run. *)
Definition match_blank_lines (s : text) : option text :=
  match s with
  | c :: s' => if c =? NL then after_last_NL s' else None
  | [] => None
  end.

(** [s.replace(regexp, replacement)] for a global regular expression
    that matches no empty text: the matches are looked for from left to
    right, each after the end of the one before. *)
Fixpoint replace_from (fuel : nat) (matcher : text -> option text)
    (replacement : text) (s : text) : text :=
  match fuel with
  | O => []
  | S fuel' =>
      match matcher s with
      | Some rest => replacement ++ replace_from fuel' matcher replacement rest
      | None =>
          match s with
          | c :: s' => c :: replace_from fuel' matcher replacement s'
          | [] => []
          end
      end
  end.

Definition replace (matcher : text -> option text) (replacement : text) (s : text) : text :=
  replace_from (List.length s) matcher replacement s.

(** [s.trim()] *)
Definition trim (s : text) : text :=
  rev (skip_white_space (rev (skip_white_space s))).

(** [stripHtml] (utils, lines 1653-1659); [None] is [null]. *)
Definition stripHtml (html : option text) : text :=
  match html with
  | None | Some [] => []
  | Some html =>
      let text := replace match_br [NL] html in
      let text := replace match_tag [] text in
      let text := replace match_blank_lines [NL; NL] text in
      trim text
  end.

(** No match of the regular expression starts anywhere in the text. *)
Definition nowhere (matcher : text -> option text) (s : text) : Prop :=
  forall pre post, s = pre ++ post -> matcher post = None.

(** Every match of the regular expression in the text is the
    replacement itself. *)
Definition fixed_by (matcher : text -> option text) (replacement : text) (s : text) : Prop :=
  forall pre post rest,
    s = pre ++ post -> matcher post = Some rest -> post = replacement ++ rest.

(** The code units of a text in ASCII. *)
Definition of_string (s : string) : text :=
  map (fun c => Z.of_N (N_of_ascii c)) (list_ascii_of_string s).

End Html.

(** *** The [get_tags] tool (tools/index.ts, lines 329-345)

    [tagCounts] is a plain object. A row is given by the tags that the
    loop over [JSON.parse(row.tags)] visits, or is [None] when parsing or
    iterating throws, which skips the row. For a tag that names a property
    of [Object.prototype] the source reads the inherited value; the
    statements leave those tags out. *)
Module GetTags.

(** The own property names of [Object.prototype]. *)
Definition inherited : list string :=
  ["constructor"; "__defineGetter__"; "__defineSetter__"; "hasOwnProperty";
   "__lookupGetter__"; "__lookupSetter__"; "isPrototypeOf";
   "propertyIsEnumerable"; "toString"; "valueOf"; "__proto__"; "toLocaleString"].

Definition ordinary (tag : string) : bool :=
  negb (existsb (String.eqb tag) inherited).

(** [tagCounts[tag] = (tagCounts[tag] || 0) + 1] *)
Definition count (tagCounts : JsMap.t Z) (tag : string) : JsMap.t Z :=
  let seen := match JsMap.get tag tagCounts with
              | Some n => if n =? 0 then 0 else n
              | None => 0
              end in
  JsMap.set tag (seen + 1) tagCounts.

Definition tagCounts (rows : list (option (list string))) : JsMap.t Z :=
  fold_left
    (fun counts row =>
       match row with
       | Some tags => fold_left count tags counts
       | None => counts
       end)
    rows JsMap.empty.

(** [entries.sort((a, b) => b.count - a.count)]: the sort is stable, so
    entries with the same count keep their order. *)
Fixpoint insert (e : string * Z) (l : list (string * Z)) : list (string * Z) :=
  match l with
  | [] => [e]
  | e' :: l' => if snd e' <=? snd e then e :: l else e' :: insert e l'
  end.

Definition sort (l : list (string * Z)) : list (string * Z) :=
  fold_right insert [] l.

(** [a.slice(0, limit)] for a whole number [limit]: a negative limit
    counts from the end. *)
Definition slice_to {A} (limit : Z) (a : list A) : list A :=
  let len := Z.of_nat (List.length a) in
  let final := if limit <? 0 then Z.max (len + limit) 0 else Z.min limit len in
  firstn (Z.to_nat final) a.

Definition sortedTags (rows : list (option (list string))) (limit : Z) : list (string * Z) :=
  slice_to limit (sort (JsObject.entries (tagCounts rows))).

(** [Object.keys(tagCounts).length] *)
Definition totalTags (rows : list (option (list string))) : nat :=
  List.length (JsMap.keys (tagCounts rows)).

(** The tags of all rows that were read. *)
Definition tags_read (rows : list (option (list string))) : list string :=
  flat_map (fun row => match row with Some tags => tags | None => [] end) rows.

(** How often a tag was read. *)
Definition uses (rows : list (option (list string))) (tag : string) : Z :=
  Z.of_nat (count_occ string_dec (tags_read rows) tag).

Definition demo_rows : list (option (list string)) :=
  [Some ["work"; "idea"]; None; Some ["idea"; "2024"]; Some ["idea"; "work"]].

End GetTags.

(* ================================================================== *)
(** ** Vocabulary of the statements, and example states *)
(* ================================================================== *)

(** *** Texts that [new URL] accepts

    [new URL(text)] throws a [TypeError] unless [text] parses as an
    absolute URL. The parser of the URL Standard is not modelled;
    [plain_url] is a sufficient condition for it to succeed: "http://" or
    "https://", then a host of one or more labels of lowercase letters and
    digits separated by dots, the last label of letters only (such a host
    is a domain, and is not read as an IPv4 address), then optionally ":"
    and a port of one to five digits that is at most 65535, and then
    nothing, or "/" and any text. *)
Definition lower_letter (c : ascii) : bool :=
  let n := Z.of_N (N_of_ascii c) in (97 <=? n) && (n <=? 122).

Definition decimal_digit (c : ascii) : bool :=
  let n := Z.of_N (N_of_ascii c) in (48 <=? n) && (n <=? 57).

Definition plain_label (label : string) : bool :=
  negb (String.eqb label "") &&
  Buffer.string_forallb (fun c => lower_letter c || decimal_digit c) label.

Definition plain_host (host : string) : bool :=
  let labels := split "." host in
  forallb plain_label labels &&
  Buffer.string_forallb lower_letter (last labels "").

Definition plain_port (port : string) : bool :=
  (String.length port <=? 5)%nat &&
  match JsDate.number port with
  | Some n => n <=? 65535
  | None => false
  end.

Definition plain_authority (authority : string) : bool :=
  match split ":" authority with
  | [host] => plain_host host
  | [host; port] => plain_host host && plain_port port
  | _ => false
  end.

Definition plain_url (text : string) : bool :=
  if startsWith "https://" text
  then plain_authority (hd "" (split "/" (slice 8 text)))
  else if startsWith "http://" text
  then plain_authority (hd "" (split "/" (slice 7 text)))
  else false.

(** The identifier [generateId] returns in [w]: the hex form of the next
    16 bytes of entropy. *)
Definition next_id (w : World) : string := Buffer.hex (next_bytes 16 w).

(** A minted identifier: what [generateId] can return. *)
Definition minted (k : string) : Prop :=
  exists bytes : list byte, List.length bytes = 16%nat /\ k = Buffer.hex bytes.

(** An example store for the expiry cases: one proxy code whose record
    expired one minute before the clock's next reading. *)
Definition stale_world : World :=
  mkWorld [] [("00112233445566778899aabbccddeeff",
               TokenData.mk "U1" None 1699999940000)]
          NoFile 0 (fun _ => false) (fun _ => false)
          (fun _ => 1700000000000) 0
          (fun n => Buffer.byte_of_Z (Z.of_nat (7 * n + 3))) 0.

Section DeleteWhere.
Context {V : Type} (p : string * V -> bool).

(** What a loop over [l] that deletes the key of every entry satisfying
    [p] leaves of the map [acc]. *)
Definition delete_where (l acc : JsMap.t V) : JsMap.t V :=
  fold_left (fun m kv => if p kv then JsMap.delete (fst kv) m else m) l acc.

End DeleteWhere.

Definition expired_tx (current : Z) (kv : string * PKCETransaction.t) : bool :=
  PKCETransaction.expiresAt (snd kv) <? current.

Definition expired_token (current : Z) (kv : string * TokenData.t) : bool :=
  TokenData.expiresAt (snd kv) <? current.

Definition serialize_entry (kv : string * TokenData.t) : string * SerializedTokenData.t :=
  (fst kv, serialize (snd kv)).

(** What one iteration of the load loop does with an entry read at time
    [current]. *)
Definition load_entry (Date_parse : string -> option JsDate.t) (current : Z)
    (m : JsMap.t TokenData.t) (kv : string * SerializedTokenData.t) : JsMap.t TokenData.t :=
  match Date_parse (SerializedTokenData.expiresAt (snd kv)) with
  | Some e =>
      if current <? e
      then JsMap.set (fst kv)
             (TokenData.mk (SerializedTokenData.accessToken (snd kv))
                           (SerializedTokenData.refreshToken (snd kv)) e) m
      else m
  | None => m
  end.

(** The store the load loop leaves when it starts from the store [m]: it
    reads the clock once for each entry, so the entry at position [i] is
    compared with the reading number [reading + i]. *)
Fixpoint load_entries (Date_parse : string -> option JsDate.t) (clock : nat -> Z)
    (reading : nat) (E : list (string * SerializedTokenData.t))
    (m : JsMap.t TokenData.t) : JsMap.t TokenData.t :=
  match E with
  | [] => m
  | kv :: E' =>
      load_entries Date_parse clock (S reading) E'
        (load_entry Date_parse (clock reading) m kv)
  end.

Definition live (current : Z) (kv : string * TokenData.t) : bool :=
  current <? TokenData.expiresAt (snd kv).

Definition demo_config : Config.t :=
  Config.mk "http://localhost:3000" "upstream-client"
            "https://upstream.example/oauth/authorize"
            "https://upstream.example/oauth/token"
            "/oauth/callback" ["read:graph"; "write:graph"]
            "/home/user/.reflect-mcp-tokens.json".

Definition demo_code : string := "00112233445566778899aabbccddeeff".

Definition demo_state : string := "a0a1a2a3a4a5a6a7a8a9aaabacadaeaf".

Definition live_record : TokenData.t := TokenData.mk "U1" None 1700000120000.

Definition stale_record : TokenData.t := TokenData.mk "U2" (Some "R2") 1699999940000.

Definition stale_transaction : PKCETransaction.t :=
  PKCETransaction.mk "dBjftJeZ4CVP-mB92K27uhbUJU1p1r_wW1gFWFOEjXk"
                     "E9Melhoa2OwvFrEMTJguCHaoeK1t8URWbuGJSstw-cM"
                     "https://client.example/cb" "abc" "xyz" ["read:graph"]
                     1699999300000 1699999900000.

Definition live_transaction : PKCETransaction.t :=
  PKCETransaction.mk "dBjftJeZ4CVP-mB92K27uhbUJU1p1r_wW1gFWFOEjXk"
                     "E9Melhoa2OwvFrEMTJguCHaoeK1t8URWbuGJSstw-cM"
                     "https://client.example/cb" "abc" "s2" ["read:graph"]
                     1699999900000 1700000500000.

(** Two transactions and two token records, one of each expired at the
    clock's time 1700000000000; no token file yet. *)
Definition demo_world : World :=
  mkWorld [(demo_state, stale_transaction);
           ("b0b1b2b3b4b5b6b7b8b9babbbcbdbebf", live_transaction)]
          [(demo_code, live_record);
           ("ffeeddccbbaa99887766554433221100", stale_record)]
          NoFile 0 (fun _ => false) (fun _ => false)
          (fun _ => 1700000000000) 0
          (fun n => Buffer.byte_of_Z (Z.of_nat (7 * n + 3))) 0.

Definition upstream_down (_ : FetchRequest) : FetchResponse := NotOk "unavailable".

Definition expired_callback : Request :=
  mkRequest [("code", "upstreamcode123"); ("state", demo_state)].

Definition upstream_ok (_ : FetchRequest) : FetchResponse := Ok "U1" None (Some 120).

(** A proxy that has just been started, with no token file. *)
Definition fresh_world : World :=
  mkWorld [] [] NoFile 0 (fun _ => false) (fun _ => false)
          (fun _ => 1700000000000) 0
          (fun n => Buffer.byte_of_Z (Z.of_nat (7 * n + 3))) 0.

(** The identifier drawn after the 32 bytes of a PKCE verifier. *)
Definition id_after_pkce (w : World) : string := next_id (with_drawn 32 w).

(** A world whose disk is full: every write fails after the file has been
    opened. *)
Definition full_disk_world : World :=
  mkWorld [] [(demo_code, live_record)]
          (Snapshot [("ffeeddccbbaa99887766554433221100", serialize stale_record)])
          0 (fun _ => true) (fun _ => true)
          (fun _ => 1700000000000) 0
          (fun n => Buffer.byte_of_Z (Z.of_nat (7 * n + 3))) 0.

Definition live_state : string := "b0b1b2b3b4b5b6b7b8b9babbbcbdbebf".

Definition live_callback : Request :=
  mkRequest [("code", "upstreamcode123"); ("state", live_state)].

(** The class invariant: each of the two maps holds every key once. *)
Definition wf_world (w : World) : Prop :=
  JsMap.wf (transactions w) /\ JsMap.wf (tokens w).

(** A method keeps the class invariant, whatever it returns or throws. *)
Definition preserves_wf {A} (m : M A) : Prop :=
  forall w, wf_world w -> wf_world (snd (m w)).

(** Two states of the proxy that agree on everything but the disk: they
    may differ in the token file, in the number of writes made and in how
    the writes to come fail. *)
Definition same_memory (w w' : World) : Prop :=
  transactions w' = transactions w /\ tokens w' = tokens w /\
  clock w' = clock w /\ ticks w' = ticks w /\
  entropy w' = entropy w /\ drawn w' = drawn w.

(** A method that does not see the disk: from two states that agree on
    everything but the disk it returns or throws the same, and leaves
    states that again agree on everything but the disk. *)
Definition disk_blind {A} (m : M A) : Prop :=
  forall w w', same_memory w w' ->
    fst (m w) = fst (m w') /\ same_memory (snd (m w)) (snd (m w')).

(** *** Sequences of calls *)

(** What reaches the proxy from outside: a call of a public method, a
    request that [authenticate] checks, or one firing of the sweeper's
    timer. The upstream's answers come with the Callback they belong to,
    and so does the verdict of [new URL] on the client's callback, should
    the handler get as far as building the redirect to the client. *)
Inductive Call :=
| Authorize (client_id redirect_uri response_type : string) (state scope : option string)
| Callback (fetch : FetchRequest -> FetchResponse) (request : Request) (accepted : bool)
| ExchangeCode (code : option string)
| ExchangeRefresh (refresh_token : string)
| Register (redirect_uris : option (list string)) (client_name : option string)
| LoadUpstream (proxyToken : string)
| FirstValid
| Sweep
| Authenticate (authorization : option string)
| Destroy.

(** The state a method leaves behind, whether it returns or throws. *)
Definition after {A} (m : M A) (w : World) : World := snd (m w).

(** The state a Callback leaves. When the handler gets as far as the
    redirect to the client and [new URL] does not accept the client's
    callback, it throws there (line 299): the token is stored and saved,
    and the transaction, which line 304 would have deleted, is still in
    place. *)
Definition after_callback (config : Config.t)
    (fetch : FetchRequest -> FetchResponse) (request : Request)
    (accepted : bool) (w : World) : World :=
  match handleCallback config fetch request w with
  | (Return (RedirectResponse _), w') =>
      if accepted then w' else with_transactions (transactions w) w'
  | (_, w') => w'
  end.

(** The state a call leaves. ([authorize] leaves the same state whether it
    returns or throws at [new URL]: it has stored the transaction by
    then.) *)
Definition step (config : Config.t) (w : World) (c : Call) : World :=
  match c with
  | Authorize client_id redirect_uri response_type state scope =>
      after (authorize config client_id redirect_uri response_type state scope) w
  | Callback fetch request accepted => after_callback config fetch request accepted w
  | ExchangeCode code => after (exchangeAuthorizationCode code) w
  | ExchangeRefresh refresh_token => after (exchangeRefreshToken refresh_token) w
  | Register redirect_uris client_name => after (registerClient redirect_uris client_name) w
  | LoadUpstream proxyToken => after (loadUpstreamTokens proxyToken) w
  | FirstValid => after getFirstValidToken w
  | Sweep => after startCleanup_tick w
  | Authenticate authorization => after (Server.authenticate authorization) w
  | Destroy => after destroy w
  end.

Definition run (config : Config.t) (calls : list Call) (w : World) : World :=
  fold_left (step config) calls w.

(** The records the token store holds, under whatever key. *)
Definition records (w : World) : list TokenData.t := map snd (tokens w).

(** A record the upstream granted during [calls]: its tokens are those of
    an answer to one of the Callbacks, and it expires that answer's
    lifetime after a clock reading. *)
Definition granted (calls : list Call) (w : World) (r : TokenData.t) : Prop :=
  exists fetch request accepted sent expires_in reading,
    In (Callback fetch request accepted) calls /\
    fetch sent = Ok (TokenData.accessToken r) (TokenData.refreshToken r) expires_in /\
    TokenData.expiresAt r = clock w reading + expires_in_or_default expires_in * 1000.

(** The upstream's answers to the Callbacks among [calls] name lifetimes
    that end, counted from any reading of the clock, at a time a [Date] can
    hold. *)
Definition lifetimes_fit (calls : list Call) (w : World) : Prop :=
  forall fetch request accepted sent access_token refresh_token expires_in reading,
    In (Callback fetch request accepted) calls ->
    fetch sent = Ok access_token refresh_token expires_in ->
    JsDate.in_range (clock w reading + expires_in_or_default expires_in * 1000) = true.

(** Every record of the store expires at a time a [Date] can hold. *)
Definition valid_dates (w : World) : Prop :=
  forall r, In r (records w) -> JsDate.in_range (TokenData.expiresAt r) = true.

(** The token file holds what [saveTokensToDisk] writes for the store as
    it is now. *)
Definition synced (w : World) : Prop :=
  file w = Snapshot (JsObject.entries (toStore (tokens w))).

(** A world whose disk accepts every write. *)
Definition disk_ok (w : World) : Prop := forall n, write_fails w n = false.

(** The clock, the disk's behaviour and the entropy source are given from
    outside; no call changes them. *)
Definition same_oracles (w w' : World) : Prop :=
  clock w' = clock w /\ write_fails w' = write_fails w /\
  write_tears w' = write_tears w /\ entropy w' = entropy w.

(** A call that leaves the token store and the token file alone. *)
Definition untouched (w w' : World) : Prop :=
  tokens w' = tokens w /\ file w' = file w /\ writes w' = writes w.

(** A call that leaves [toks] in the token store and saves them with one
    write. *)
Definition saved_as (toks : JsMap.t TokenData.t) (w w' : World) : Prop :=
  tokens w' = toks /\
  writes w' = S (writes w) /\
  file w' = if write_fails w (writes w)
            then (if write_tears w (writes w) then Unparsable else file w)
            else Snapshot (JsObject.entries (toStore toks)).

(** An example sequence: Authorize on a proxy just started, then the
    Callback that answers it. *)
Definition demo_calls : list Call :=
  [Authorize "abc" "https://client/cb" "code" (Some "xyz") None;
   Callback upstream_ok
     (mkRequest [("code", "upstreamcode123"); ("state", id_after_pkce fresh_world)])
     true].

(** A proxy whose one token record expires at the very instant the clock
    shows, with its token file in step. *)
Definition instant_world : World :=
  mkWorld [] [(demo_code, TokenData.mk "U1" None 1700000000000)]
          (Snapshot [(demo_code, serialize (TokenData.mk "U1" None 1700000000000))])
          0 (fun _ => false) (fun _ => false)
          (fun _ => 1700000000000) 0
          (fun n => Buffer.byte_of_Z (Z.of_nat (7 * n + 3))) 0.

(** A store that holds a record under the key "__proto__", as a proxy
    started from a token file with that key does. *)
Definition proto_world : World :=
  mkWorld [] [("__proto__", live_record); (demo_code, live_record)]
          NoFile 0 (fun _ => false) (fun _ => false)
          (fun _ => 1700000000000) 0
          (fun n => Buffer.byte_of_Z (Z.of_nat (7 * n + 3))) 0.

(* ================================================================== *)
(** ** Facts about [Map] *)
(* ================================================================== *)

Module JsMapFacts.
Import JsMap.

Section Facts.
Context {V : Type}.
Implicit Types (m : JsMap.t V) (k : string) (v : V).

Lemma get_set_same k v m : get k (set k v m) = Some v.
Proof.
  induction m as [|[k' v'] m IH]; simpl.
  - now rewrite String.eqb_refl.
  - destruct (String.eqb k k') eqn:E; simpl; rewrite E; auto.
Qed.

Lemma get_set_other k k' v m : k' <> k -> get k' (set k v m) = get k' m.
Proof.
  intros Hne. induction m as [|[k0 v0] m IH]; simpl.
  - apply String.eqb_neq in Hne. now rewrite Hne.
  - destruct (String.eqb k k0) eqn:E; simpl.
    + apply String.eqb_eq in E. subst k0.
      apply String.eqb_neq in Hne. now rewrite Hne.
    + now rewrite IH.
Qed.

Lemma get_delete_same k m : get k (delete k m) = None.
Proof.
  induction m as [|[k0 v0] m IH]; simpl; auto.
  destruct (String.eqb k k0) eqn:E; simpl; auto. now rewrite E.
Qed.

Lemma get_delete_other k k' m : k' <> k -> get k' (delete k m) = get k' m.
Proof.
  intros Hne. induction m as [|[k0 v0] m IH]; simpl; auto.
  destruct (String.eqb k k0) eqn:E; simpl.
  - apply String.eqb_eq in E. subst k0.
    apply String.eqb_neq in Hne. now rewrite Hne.
  - now rewrite IH.
Qed.

Lemma get_In k v m : get k m = Some v -> In (k, v) m.
Proof.
  induction m as [|[k0 v0] m IH]; simpl; [discriminate|].
  destruct (String.eqb k k0) eqn:E.
  - apply String.eqb_eq in E. intros [= ->]. subst. now left.
  - intros H. right. auto.
Qed.

Lemma get_None_keys k m : get k m = None <-> ~ In k (keys m).
Proof.
  induction m as [|[k0 v0] m IH]; simpl; [tauto|].
  destruct (String.eqb k k0) eqn:E.
  - apply String.eqb_eq in E. subst. split; [discriminate|tauto].
  - apply String.eqb_neq in E. rewrite IH. split.
    + intros H [H1|H1]; [congruence|tauto].
    + tauto.
Qed.

Lemma In_get k v m : wf m -> In (k, v) m -> get k m = Some v.
Proof.
  unfold wf. induction m as [|[k0 v0] m IH]; simpl; [tauto|].
  intros Hnd [H|H].
  - injection H as -> ->. now rewrite String.eqb_refl.
  - inversion Hnd as [|? ? Hnotin Hnd']; subst.
    destruct (String.eqb k k0) eqn:E.
    + apply String.eqb_eq in E. subst k0. exfalso. apply Hnotin.
      unfold keys. change k with (fst (k, v)). now apply in_map.
    + auto.
Qed.

Lemma keys_set_new k v m : get k m = None -> set k v m = m ++ [(k, v)].
Proof.
  induction m as [|[k0 v0] m IH]; simpl; auto.
  destruct (String.eqb k k0); [discriminate|]. intros H. now rewrite IH.
Qed.

Lemma keys_set k v m k' :
  In k' (keys (set k v m)) -> k' = k \/ In k' (keys m).
Proof.
  unfold keys. induction m as [|[k0 v0] m IH]; simpl.
  - intros [H|[]]; auto.
  - destruct (String.eqb k k0) eqn:E; simpl; intros [H|H]; auto.
    destruct (IH H); auto.
Qed.

Lemma wf_set k v m : wf m -> wf (set k v m).
Proof.
  unfold wf. induction m as [|[k0 v0] m IH]; simpl; intros Hnd.
  - constructor; [intros []|constructor].
  - inversion Hnd as [|? ? Hnotin Hnd']; subst.
    destruct (String.eqb k k0) eqn:E; simpl.
    + now constructor.
    + constructor; auto.
      intros Hin. apply String.eqb_neq in E.
      destruct (keys_set _ _ _ _ Hin); [congruence|contradiction].
Qed.

Lemma keys_filter (p : string * V -> bool) m k :
  In k (keys (filter p m)) -> In k (keys m).
Proof.
  unfold keys. rewrite !in_map_iff. intros [kv [E H]].
  apply filter_In in H. exists kv. tauto.
Qed.

Lemma wf_filter (p : string * V -> bool) m : wf m -> wf (filter p m).
Proof.
  unfold wf. induction m as [|[k0 v0] m IH]; simpl; auto.
  intros Hnd. inversion Hnd as [|? ? Hnotin Hnd']; subst.
  destruct (p (k0, v0)); simpl; auto.
  constructor; auto. intros Hin. apply Hnotin. eapply keys_filter; eauto.
Qed.

Lemma wf_delete k m : wf m -> wf (delete k m).
Proof. apply wf_filter. Qed.

Lemma get_filter (p : string * V -> bool) k m :
  wf m ->
  get k (filter p m) =
  match get k m with
  | Some v => if p (k, v) then Some v else None
  | None => None
  end.
Proof.
  unfold wf. induction m as [|[k0 v0] m IH]; simpl; auto.
  intros Hnd. inversion Hnd as [|? ? Hnotin Hnd']; subst.
  destruct (String.eqb k k0) eqn:E.
  - apply String.eqb_eq in E. subst k0.
    destruct (p (k, v0)) eqn:Ep; simpl.
    + now rewrite String.eqb_refl.
    + apply get_None_keys. intros Hin. apply Hnotin. eapply keys_filter; eauto.
  - destruct (p (k0, v0)); simpl; [rewrite E|]; auto.
Qed.

Lemma get_perm k m m' : wf m -> Permutation m m' -> get k m = get k m'.
Proof.
  intros Hwf Hp.
  assert (Hwf' : wf m').
  { unfold wf, keys in *. eapply Permutation_NoDup; [|exact Hwf].
    now apply Permutation_map. }
  destruct (get k m) as [v|] eqn:E.
  - symmetry. apply In_get; auto. eapply Permutation_in; eauto.
    now apply get_In.
  - symmetry. apply get_None_keys. apply get_None_keys in E.
    intros Hin. apply E. unfold keys in *.
    eapply Permutation_in; [|exact Hin].
    apply Permutation_map. now apply Permutation_sym.
Qed.

End Facts.

End JsMapFacts.

(* ================================================================== *)
(** ** Test vectors *)
(* ================================================================== *)

Example sha256_abc :
  Buffer.hex (SHA256.sha256 (list_byte_of_string "abc")) =
  "ba7816bf8f01cfea414140de5dae2223b00361a396177a9cb410ff61f20015ad".
Proof. vm_compute. reflexivity. Qed.

Example sha256_empty :
  Buffer.hex (SHA256.sha256 []) =
  "e3b0c44298fc1c149afbf4c8996fb92427ae41e4649b934ca495991b7852b855".
Proof. vm_compute. reflexivity. Qed.

Example sha256_two_blocks :
  Buffer.hex (SHA256.sha256 (list_byte_of_string
    "abcdbcdecdefdefgefghfghighijhijkijkljklmklmnlmnomnopnopq")) =
  "248d6a61d20638b8e5c026930c3e6039a33ce45964ff2167f6ecedd419db06c1".
Proof. vm_compute. reflexivity. Qed.

Example rfc7636_verifier_octets :
  Buffer.base64url
    (map Buffer.byte_of_Z
       [116; 24; 223; 180; 151; 153; 224; 37; 79; 250; 96; 125; 216; 173; 187; 186; 22; 212; 37; 77; 105; 214; 191; 240; 91; 88; 5; 88; 83; 132; 141; 121])
  = rfc7636_verifier.
Proof. vm_compute. reflexivity. Qed.

Example base64url_remainders :
  map (fun n => Buffer.base64url (map Buffer.byte_of_Z (firstn n [102; 111; 111; 98; 97; 114])))
      [0; 1; 2; 3; 4; 5; 6]%nat
  = [""; "Zg"; "Zm8"; "Zm9v"; "Zm9vYg"; "Zm9vYmE"; "Zm9vYmFy"].
Proof. vm_compute. reflexivity. Qed.

Example rfc7636_appendix_B :
  sha256_base64url rfc7636_verifier = "E9Melhoa2OwvFrEMTJguCHaoeK1t8URWbuGJSstw-cM".
Proof. vm_compute. reflexivity. Qed.

(* ================================================================== *)
(** ** Facts about [Date]: [Date.parse] inverts [toISOString] *)
(* ================================================================== *)

Module JsDateFacts.
Import JsDate.

Example toISOString_epoch : toISOString 0 = "1970-01-01T00:00:00.000Z".
Proof. reflexivity. Qed.

Example toISOString_2023 : toISOString 1700000000123 = "2023-11-14T22:13:20.123Z".
Proof. reflexivity. Qed.

Example toISOString_before_epoch : toISOString (-1) = "1969-12-31T23:59:59.999Z".
Proof. reflexivity. Qed.

Example toISOString_leap_day : toISOString 1709164800000 = "2024-02-29T00:00:00.000Z".
Proof. reflexivity. Qed.

Example toISOString_year_10000 :
  toISOString 253402300800000 = "+010000-01-01T00:00:00.000Z".
Proof. reflexivity. Qed.

Example toISOString_year_minus_1 :
  toISOString (-62198755200000) = "-000001-01-01T00:00:00.000Z".
Proof. reflexivity. Qed.

Example parse_iso_samples :
  map (fun tv => parse_iso (toISOString tv))
      [0; -1; 1700000000123; 1709164800000; 253402300800000; -62198755200000;
       8640000000000000; -8640000000000000]
  = map Some
      [0; -1; 1700000000123; 1709164800000; 253402300800000; -62198755200000;
       8640000000000000; -8640000000000000].
Proof. vm_compute. reflexivity. Qed.

Example parse_iso_invalid :
  map parse_iso ["garbage"; "2023-02-30T00:00:00.000Z"; "2023-13-01T00:00:00.000Z"; ""]
  = [None; None; None; None].
Proof. vm_compute. reflexivity. Qed.

Lemma digit_code e : 0 <= e <= 9 -> Z.of_N (N_of_ascii (digit e)) = 48 + e.
Proof.
  intros H. unfold digit. rewrite N_ascii_embedding by lia. lia.
Qed.

Lemma number_from_digit acc e s :
  0 <= e <= 9 -> number_from acc (String (digit e) s) = number_from (10 * acc + e) s.
Proof.
  intros H. cbn [number_from]. rewrite digit_code by assumption.
  replace ((48 <=? 48 + e) && (48 + e <=? 57)) with true.
  - f_equal. lia.
  - symmetry. apply andb_true_intro. split; apply Z.leb_le; lia.
Qed.

Lemma mod10 n : 0 <= n mod 10 <= 9.
Proof. pose proof (Z.mod_pos_bound n 10). lia. Qed.

Local Opaque digit.

Lemma two_digits n s :
  0 <= n < 100 ->
  number_from 0 (String (digit (n / 10 mod 10)) (String (digit (n mod 10)) s))
  = number_from n s.
Proof.
  intros H. rewrite !number_from_digit by apply mod10. f_equal.
  pose proof (Z.div_mod n 10). pose proof (Z.mod_small (n / 10) 10).
  assert (0 <= n / 10 < 10) by (split; [apply Z.div_pos|apply Z.div_lt_upper_bound]; lia).
  lia.
Qed.

Lemma three_digits n s :
  0 <= n < 1000 ->
  number_from 0 (String (digit (n / 10 / 10 mod 10))
                   (String (digit (n / 10 mod 10)) (String (digit (n mod 10)) s)))
  = number_from n s.
Proof.
  intros H. rewrite !number_from_digit by apply mod10. f_equal.
  pose proof (Z.div_mod n 10). pose proof (Z.div_mod (n / 10) 10).
  pose proof (Z.mod_small (n / 10 / 10) 10).
  assert (0 <= n / 10 / 10 < 10).
  { split; [apply Z.div_pos; [apply Z.div_pos|]|
            apply Z.div_lt_upper_bound; [|apply Z.div_lt_upper_bound]]; lia. }
  lia.
Qed.

Lemma time_of_day ms :
  0 <= ms < 86400000 ->
  0 <= ms / 3600000 <= 23 /\ 0 <= ms / 60000 mod 60 <= 59 /\
  0 <= ms / 1000 mod 60 <= 59 /\ 0 <= ms mod 1000 <= 999 /\
  ms / 3600000 * 3600000 + ms / 60000 mod 60 * 60000 +
  ms / 1000 mod 60 * 1000 + ms mod 1000 = ms.
Proof. intros H. Z.div_mod_to_equations. lia. Qed.

Lemma days_in_month_le y m : days_in_month y m <= 31.
Proof.
  unfold days_in_month.
  repeat match goal with |- context [if ?b then _ else _] => destruct b end; lia.
Qed.

Lemma parse_after_year_tail y m d ms :
  1 <= m <= 12 -> 1 <= d <= days_in_month y m -> 0 <= ms < msPerDay ->
  parse_after_year y (tail_text m d ms) =
  let tv := day_of_civil y m d * msPerDay + ms in
  if in_range tv then Some tv else None.
Proof.
  intros Hm Hd Hms. unfold msPerDay in *.
  pose proof (days_in_month_le y m) as Hdm.
  destruct (time_of_day ms Hms) as [Hh [Hmin [Hs [Hmil Hsum]]]].
  unfold parse_after_year, tail_text, field.
  cbn [digits append String.substring String.length String.eqb Ascii.eqb Bool.eqb andb negb Nat.eqb number].
  rewrite three_digits, !two_digits by lia.
  cbn [number_from].
  replace ((1 <=? m) && (m <=? 12) && (1 <=? d) && (d <=? days_in_month y m) &&
           (ms / 3600000 <=? 23) && (ms / 60000 mod 60 <=? 59) && (ms / 1000 mod 60 <=? 59))
    with true.
  - cbn zeta. unfold msPerDay.
    replace (day_of_civil y m d * 86400000 + ms / 3600000 * 3600000 +
             ms / 60000 mod 60 * 60000 + ms / 1000 mod 60 * 1000 + ms mod 1000)
      with (day_of_civil y m d * 86400000 + ms) by lia.
    reflexivity.
  - symmetry. repeat (apply andb_true_intro; split); apply Z.leb_le; lia.
Qed.

(** *** The calendar: [day_of_civil] inverts [civil_of_day] *)

(** The day of the era determines the year of the era, the day of that
    year (counted from 1 March) and the month; the last day of such a year,
    29 February, exists in leap years only. *)
Lemma era_facts doe :
  0 <= doe < 146097 ->
  let yoe := (doe - doe / 1460 + doe / 36524 - doe / 146096) / 365 in
  let doy := doe - (365 * yoe + yoe / 4 - yoe / 100) in
  let mp := (5 * doy + 2) / 153 in
  let d := doy - (153 * mp + 2) / 5 + 1 in
  (0 <= yoe <= 399 /\ 0 <= doy <= 365 /\ 0 <= mp <= 11 /\ 1 <= d <= 31) /\
  (mp = 1 \/ mp = 3 \/ mp = 6 \/ mp = 8 -> d <= 30) /\
  (mp = 11 -> d <= 29) /\
  (mp = 11 -> d = 29 ->
   (yoe + 1) mod 4 = 0 /\ ((yoe + 1) mod 100 <> 0 \/ (yoe + 1) mod 400 = 0)).
Proof.
  intros H. cbn zeta. repeat split; intros; Z.div_mod_to_equations; lia.
Qed.

Lemma is_leap_era y era : is_leap (y + era * 400) = is_leap y.
Proof.
  unfold is_leap.
  replace ((y + era * 400) mod 4) with (y mod 4)
    by (Z.div_mod_to_equations; lia).
  replace ((y + era * 400) mod 100) with (y mod 100)
    by (Z.div_mod_to_equations; lia).
  replace ((y + era * 400) mod 400) with (y mod 400)
    by (Z.div_mod_to_equations; lia).
  reflexivity.
Qed.

Lemma is_leap_true y :
  y mod 4 = 0 -> (y mod 100 <> 0 \/ y mod 400 = 0) -> is_leap y = true.
Proof.
  intros H4 H. unfold is_leap. rewrite H4. cbn.
  destruct H as [H|H].
  - apply Z.eqb_neq in H. rewrite H. reflexivity.
  - rewrite H. cbn. apply orb_true_r.
Qed.

Lemma civil_of_day_valid z :
  let '(y, m, d) := civil_of_day z in
  1 <= m <= 12 /\ 1 <= d <= days_in_month y m /\ day_of_civil y m d = z.
Proof.
  unfold civil_of_day.
  pose proof (Z.div_mod (z + 719468) 146097 ltac:(lia)) as Hz.
  pose proof (Z.mod_pos_bound (z + 719468) 146097 ltac:(lia)) as Hdoe.
  set (era := (z + 719468) / 146097) in *.
  set (doe := (z + 719468) mod 146097) in *.
  destruct (era_facts doe Hdoe) as [[Hyoe [Hdoy [Hmp Hd]]] [H30 [H29 Hleap]]].
  cbn zeta in *.
  set (yoe := (doe - doe / 1460 + doe / 36524 - doe / 146096) / 365) in *.
  set (doy := doe - (365 * yoe + yoe / 4 - yoe / 100)) in *.
  set (mp := (5 * doy + 2) / 153) in *.
  set (d := doy - (153 * mp + 2) / 5 + 1) in *.
  assert (Hm : (if mp <? 10 then mp + 3 else mp - 9) =
               (if mp <? 10 then mp + 3 else mp - 9)) by reflexivity.
  set (m := if mp <? 10 then mp + 3 else mp - 9) in *.
  assert (Hmcase : (mp < 10 /\ m = mp + 3) \/ (10 <= mp /\ m = mp - 9)).
  { unfold m. destruct (mp <? 10) eqn:E; [apply Z.ltb_lt in E|apply Z.ltb_ge in E]; lia. }
  clear Hm.
  set (carry := if m <=? 2 then 1 else 0).
  assert (Hcarry : (m <= 2 /\ carry = 1) \/ (2 < m /\ carry = 0)).
  { unfold carry. destruct (m <=? 2) eqn:E; [apply Z.leb_le in E|apply Z.leb_gt in E]; lia. }
  split; [lia|]. split; [split; [lia|]|].
  - (* the day exists in its month *)
    replace (yoe + era * 400 + carry) with (yoe + carry + era * 400) by lia.
    unfold days_in_month. rewrite is_leap_era.
    destruct (m =? 2) eqn:E2.
    + apply Z.eqb_eq in E2.
      assert (Hfeb : mp = 11) by lia.
      destruct (is_leap (yoe + carry)) eqn:El; [auto|].
      destruct (Z.eq_dec d 29) as [Hd29|Hd29]; [|specialize (H29 Hfeb); lia].
      destruct (Hleap Hfeb Hd29) as [H4 H100].
      replace (yoe + carry) with (yoe + 1) in El by lia.
      rewrite (is_leap_true _ H4 H100) in El. discriminate.
    + apply Z.eqb_neq in E2.
      destruct ((m =? 4) || (m =? 6) || (m =? 9) || (m =? 11)) eqn:E30; [|lia].
      apply H30.
      repeat (apply orb_prop in E30; destruct E30 as [E30|E30]);
        apply Z.eqb_eq in E30; lia.
  - (* the day number is recovered *)
    unfold day_of_civil.
    fold carry.
    replace (if m <=? 2 then yoe + era * 400 + carry - 1 else yoe + era * 400 + carry)
      with (yoe + era * 400).
    2:{ unfold carry. destruct (m <=? 2); lia. }
    replace ((yoe + era * 400) / 400) with era by (Z.div_mod_to_equations; lia).
    replace ((yoe + era * 400) mod 400) with yoe by (Z.div_mod_to_equations; lia).
    replace (if 2 <? m then m - 3 else m + 9) with mp.
    2:{ destruct (2 <? m) eqn:E; [apply Z.ltb_lt in E|apply Z.ltb_ge in E]; lia. }
    unfold d, doy. lia.
Qed.

(** *** Reading back what [toISOString] wrote *)

Lemma four_digits n s :
  0 <= n < 10000 ->
  number_from 0 (String (digit (n / 10 / 10 / 10 mod 10))
                   (String (digit (n / 10 / 10 mod 10))
                      (String (digit (n / 10 mod 10)) (String (digit (n mod 10)) s))))
  = number_from n s.
Proof.
  intros H. rewrite !number_from_digit by apply mod10. f_equal.
  Z.div_mod_to_equations. lia.
Qed.

Lemma six_digits n s :
  0 <= n < 1000000 ->
  number_from 0 (String (digit (n / 10 / 10 / 10 / 10 / 10 mod 10))
                   (String (digit (n / 10 / 10 / 10 / 10 mod 10))
                      (String (digit (n / 10 / 10 / 10 mod 10))
                         (String (digit (n / 10 / 10 mod 10))
                            (String (digit (n / 10 mod 10))
                               (String (digit (n mod 10)) s))))))
  = number_from n s.
Proof.
  intros H. rewrite !number_from_digit by apply mod10. f_equal.
  Z.div_mod_to_equations. lia.
Qed.

Lemma tail_text_length m d ms : String.length (tail_text m d ms) = 20%nat.
Proof. reflexivity. Qed.

Lemma substring_none s : String.substring 0 0 s = "".
Proof. now destruct s. Qed.

Lemma substring_all s : String.substring 0 (String.length s) s = s.
Proof. induction s as [|c s IH]; cbn; [reflexivity|now rewrite IH]. Qed.

Local Transparent digit.

(** A text that starts with a digit is read as a four-digit year. *)
Lemma parse_iso_plain_year e s :
  0 <= e <= 9 ->
  parse_iso (String (digit e) s) =
  match field (String (digit e) s) 0 4 with
  | Some y =>
      parse_after_year y
        (String.substring 4 (String.length (String (digit e) s) - 4)
                          (String (digit e) s))
  | None => None
  end.
Proof.
  intros H.
  assert (Hcases : e = 0 \/ e = 1 \/ e = 2 \/ e = 3 \/ e = 4 \/
                   e = 5 \/ e = 6 \/ e = 7 \/ e = 8 \/ e = 9) by lia.
  repeat (destruct Hcases as [->|Hcases]; [reflexivity|]).
  subst e. reflexivity.
Qed.

Local Opaque digit.

Lemma year_in_range tv :
  in_range tv = true ->
  -1000000 < fst (fst (civil_of_day (tv / msPerDay))) < 1000000.
Proof.
  unfold in_range, civil_of_day, msPerDay. intros H.
  apply andb_prop in H. destruct H as [Hlo Hhi].
  apply Z.leb_le in Hlo, Hhi. cbn [fst].
  set (z := tv / 86400000 + 719468).
  assert (Hz : -99280532 <= z <= 100719468).
  { unfold z. Z.div_mod_to_equations. lia. }
  destruct (era_facts (z mod 146097)) as [[Hyoe _] _].
  { apply Z.mod_pos_bound. lia. }
  cbn zeta in Hyoe.
  set (yoe := (z mod 146097 - z mod 146097 / 1460 + z mod 146097 / 36524
               - z mod 146097 / 146096) / 365) in *.
  assert (-680 <= z / 146097 <= 690) by (Z.div_mod_to_equations; lia).
  destruct (_ <=? 2); lia.
Qed.

(** [Date.parse] inverts [toISOString] on every time value a [Date] can
    hold. *)
Lemma parse_iso_toISOString tv :
  in_range tv = true -> parse_iso (toISOString tv) = Some tv.
Proof.
  intros Hrange.
  pose proof (year_in_range tv Hrange) as Hyear.
  pose proof (civil_of_day_valid (tv / msPerDay)) as Hcivil.
  unfold toISOString.
  destruct (civil_of_day (tv / msPerDay)) as [[y m] d].
  cbn [fst] in Hyear. destruct Hcivil as [Hm [Hd Hday]].
  assert (Hms : 0 <= tv mod msPerDay < msPerDay)
    by (apply Z.mod_pos_bound; reflexivity).
  assert (Htv : day_of_civil y m d * msPerDay + tv mod msPerDay = tv).
  { rewrite Hday. pose proof (Z.div_mod tv msPerDay). unfold msPerDay in *. lia. }
  change (parse_iso (year_text y ++ tail_text m d (tv mod msPerDay))%string = Some tv).
  pose proof (parse_after_year_tail y m d (tv mod msPerDay) Hm Hd Hms) as Htail.
  cbn zeta in Htail. rewrite Htv, Hrange in Htail.
  unfold year_text.
  destruct ((0 <=? y) && (y <=? 9999)) eqn:Eplain.
  - apply andb_prop in Eplain. destruct Eplain as [H0 H9].
    apply Z.leb_le in H0, H9.
    cbn [digits append].
    rewrite parse_iso_plain_year by apply mod10.
    unfold field. cbn [String.substring String.length Nat.eqb number Nat.sub].
    rewrite four_digits by lia.
    rewrite substring_none, Nat.sub_0_r, substring_all. cbn. exact Htail.
  - assert (Hout : y < 0 \/ 9999 < y).
    { apply andb_false_iff in Eplain. destruct Eplain as [E|E];
        [apply Z.leb_gt in E|apply Z.leb_gt in E]; lia. }
    destruct (y <? 0) eqn:Eneg.
    + apply Z.ltb_lt in Eneg.
      cbn [digits append]. cbn [parse_iso].
      unfold field. cbn [String.substring String.length Nat.eqb number Nat.sub].
      rewrite six_digits by lia.
      rewrite substring_none, Nat.sub_0_r, substring_all. cbn [String.length Nat.eqb number_from].
      replace (Z.abs y =? 0) with false by (symmetry; apply Z.eqb_neq; lia).
      replace (- Z.abs y) with y by lia.
      exact Htail.
    + apply Z.ltb_ge in Eneg.
      cbn [digits append]. cbn [parse_iso].
      unfold field. cbn [String.substring String.length Nat.eqb number Nat.sub].
      rewrite six_digits by lia.
      rewrite substring_none, Nat.sub_0_r, substring_all. cbn [String.length Nat.eqb number_from].
      replace (Z.abs y) with y by lia.
      exact Htail.
Qed.

End JsDateFacts.

(* ================================================================== *)
(** ** Facts about [Object.entries] *)
(* ================================================================== *)

Module JsObjectFacts.
Import JsObject.

Section Facts.
Context {V : Type}.
Implicit Types (e : Z * (string * V)) (l : list (Z * (string * V))) (o : JsMap.t V).

Lemma insert_sorted_perm e l : Permutation (insert_sorted e l) (e :: l).
Proof.
  induction l as [|e' l IH]; simpl; auto.
  destruct (fst e <=? fst e'); auto.
  rewrite IH. apply perm_swap.
Qed.

Lemma sort_by_index_perm l : Permutation (sort_by_index l) l.
Proof.
  induction l as [|e l IH]; simpl; auto.
  rewrite insert_sorted_perm. now constructor.
Qed.

Lemma entries_perm o : Permutation (entries o) o.
Proof.
  unfold entries. rewrite (Permutation_map snd (sort_by_index_perm (indexed o))).
  induction o as [|[k v] o IH]; simpl; auto.
  unfold indexed, named in *. simpl.
  destruct (array_index k); simpl.
  - now constructor.
  - rewrite <- Permutation_middle. now constructor.
Qed.

End Facts.

Example entries_order :
  entries [("b", 1); ("10", 2); ("a", 3); ("9", 4); ("07", 5)]
  = [("9", 4); ("10", 2); ("b", 1); ("a", 3); ("07", 5)].
Proof. reflexivity. Qed.

End JsObjectFacts.

(* ================================================================== *)
(** ** Basic facts *)
(* ================================================================== *)

Ltac run_method :=
  unfold bind, gets, modify, ret, throw, Date_now, randomBytes; cbn.

Ltac distinct_keys :=
  unfold JsMap.wf; cbn;
  repeat (constructor; [cbn; intuition discriminate|]); constructor.

Lemma truthy_Some k : k <> "" -> truthy (Some k) = true.
Proof. intros H. simpl. apply String.eqb_neq in H. now rewrite H. Qed.

Lemma or_else_Some k d : k <> "" -> or_else (Some k) d = k.
Proof. intros H. simpl. apply String.eqb_neq in H. now rewrite H. Qed.

Lemma hex_length bs : String.length (Buffer.hex bs) = (2 * List.length bs)%nat.
Proof. induction bs as [|b bs IH]; simpl; auto. rewrite IH. lia. Qed.

Lemma generateId_run w : generateId w = (Return (next_id w), with_drawn 16 w).
Proof. reflexivity. Qed.

Lemma generatePKCE_run w :
  generatePKCE w =
  (Return (mkPKCE (Buffer.base64url (next_bytes 32 w))
                  (sha256_base64url (Buffer.base64url (next_bytes 32 w)))),
   with_drawn 32 w).
Proof. reflexivity. Qed.

Lemma minted_length k : minted k -> String.length k = 32%nat.
Proof. intros [bs [Hl ->]]. rewrite hex_length, Hl. reflexivity. Qed.

Lemma minted_nonempty k : minted k -> k <> "".
Proof. intros H E. apply minted_length in H. subst k. discriminate. Qed.

Lemma next_id_minted w : minted (next_id w).
Proof.
  exists (next_bytes 16 w). split; reflexivity.
Qed.

Lemma demo_code_minted : minted demo_code.
Proof.
  exists [x00; x11; x22; x33; x44; x55; x66; x77; x88; x99; xaa; xbb; xcc; xdd; xee; xff].
  split; reflexivity.
Defined.

Lemma with_transactions_same w : with_transactions (transactions w) w = w.
Proof. now destruct w. Qed.

Lemma with_tokens_same w : with_tokens (tokens w) w = w.
Proof. now destruct w. Qed.

Lemma saveTokensToDisk_run w :
  saveTokensToDisk w =
  (Return tt,
   with_write (if write_fails w (writes w) then None
               else Some (Snapshot (JsObject.entries (toStore (tokens w))))) w).
Proof. reflexivity. Qed.

(* ================================================================== *)
(** ** PKCE generator *)
(* ================================================================== *)

Lemma list_ind3 {A} (P : list A -> Prop) :
  P [] -> (forall a, P [a]) -> (forall a b, P [a; b]) ->
  (forall a b c l, P l -> P (a :: b :: c :: l)) ->
  forall l, P l.
Proof.
  intros H0 H1 H2 H3 l.
  assert (H : P l /\ (forall a, P (a :: l)) /\ (forall a b, P (a :: b :: l))).
  { induction l as [|c l [IH0 [IH1 IH2]]]; auto. }
  tauto.
Qed.

Lemma base64url_length bs :
  String.length (Buffer.base64url bs) = ((4 * List.length bs + 2) / 3)%nat.
Proof.
  induction bs as [| a | a b | a b c l IH] using list_ind3; try reflexivity.
  cbn [Buffer.base64url String.length List.length]. rewrite IH.
  replace (4 * S (S (S (List.length l))) + 2)%nat
    with ((4 * List.length l + 2) + 4 * 3)%nat by lia.
  rewrite Nat.div_add by discriminate. lia.
Qed.

Lemma sextet_url_safe z shift : Buffer.url_safe (Buffer.sextet z shift) = true.
Proof.
  unfold Buffer.sextet.
  change 63 with (Z.ones 6). rewrite Z.land_ones by lia.
  pose proof (Z.mod_pos_bound (Z.shiftr z shift) (2 ^ 6) ltac:(lia)) as Hb.
  set (i := Z.shiftr z shift mod 2 ^ 6) in *.
  assert (Hn : forall n, (n < 64)%nat ->
             Buffer.url_safe (Buffer.char_at Buffer.base64url_alphabet (Z.of_nat n)) = true).
  { intros n Hn. do 64 (destruct n as [|n]; [reflexivity|]). lia. }
  rewrite <- (Z2Nat.id i) by lia. apply Hn.
  change (2 ^ 6) with 64 in Hb. lia.
Qed.

Lemma base64url_url_safe bs :
  Buffer.string_forallb Buffer.url_safe (Buffer.base64url bs) = true.
Proof.
  induction bs as [| a | a b | a b c l IH] using list_ind3;
    cbn [Buffer.base64url Buffer.string_forallb];
    rewrite ?sextet_url_safe, ?IH; reflexivity.
Qed.

(** C6: the pair [generatePKCE] returns satisfies
    challenge = base64url(SHA-256(verifier)); the verifier consists of
    URL-safe characters only and its length, 43, is within 43..128. *)
Theorem generatePKCE_pair (w : World) :
  exists pkce w',
    generatePKCE w = (Return pkce, w') /\
    challenge pkce
      = Buffer.base64url (SHA256.sha256 (list_byte_of_string (verifier pkce))) /\
    Buffer.string_forallb Buffer.url_safe (verifier pkce) = true /\
    String.length (verifier pkce) = 43%nat /\
    (43 <= String.length (verifier pkce) <= 128)%nat.
Proof.
  exists (mkPKCE (Buffer.base64url (next_bytes 32 w))
                 (sha256_base64url (Buffer.base64url (next_bytes 32 w)))).
  exists (with_drawn 32 w).
  split; [apply generatePKCE_run|].
  unfold verifier, challenge, sha256_base64url.
  split; [reflexivity|]. split; [apply base64url_url_safe|].
  assert (Hlen : String.length (Buffer.base64url (next_bytes 32 w)) = 43%nat).
  { rewrite base64url_length. unfold next_bytes.
    rewrite length_map, length_seq. reflexivity. }
  rewrite Hlen. lia.
Qed.

(* ================================================================== *)
(** ** Authorize *)
(* ================================================================== *)

(** [authorize] with response type "code", in closed form. *)
Lemma authorize_code config client_id redirect_uri state scope w :
  exists w1,
    let clientState :=
      if truthy state then or_else state ""
      else next_id (with_drawn 16 (with_drawn 32 w)) in
    let tx :=
      PKCETransaction.mk
        (Buffer.base64url (next_bytes 32 w))
        (sha256_base64url (Buffer.base64url (next_bytes 32 w)))
        redirect_uri client_id clientState
        (if truthy scope then split " " (or_else scope "") else Config.scopes config)
        (now w) (clock w (S (ticks w)) + 600000) in
    authorize config client_id redirect_uri "code" state scope w =
      (Return (RedirectResponse
         (mkUrl (Config.authorizationEndpoint config)
            [("client_id", Config.clientId config);
             ("redirect_uri", (Config.baseUrl config ++ Config.redirectPath config)%string);
             ("response_type", "code");
             ("scope", String.concat "," (PKCETransaction.scope tx));
             ("state", id_after_pkce w);
             ("code_challenge", PKCETransaction.codeChallenge tx);
             ("code_challenge_method", "S256")])), w1) /\
    transactions w1 = JsMap.set (id_after_pkce w) tx (transactions w) /\
    tokens w1 = tokens w /\ file w1 = file w /\
    writes w1 = writes w /\ write_fails w1 = write_fails w /\
    write_tears w1 = write_tears w /\
    clock w1 = clock w /\ ticks w1 = S (S (ticks w)) /\ entropy w1 = entropy w.
Proof.
  unfold authorize.
  change (negb ("code" =? "code")%string) with false. cbv iota.
  unfold bind at 1. rewrite generatePKCE_run.
  unfold bind at 1. rewrite generateId_run.
  fold (id_after_pkce w).
  unfold bind at 1.
  destruct (truthy state) eqn:Hstate.
  - unfold ret at 1. unfold bind, Date_now, modify, ret.
    eexists. cbn zeta. split; [reflexivity|].
    cbn [transactions tokens file writes write_fails write_tears clock ticks entropy
         with_transactions with_tick with_drawn].
    repeat (split; [reflexivity|]). reflexivity.
  - rewrite generateId_run. unfold bind, Date_now, modify, ret.
    eexists. cbn zeta. split; [reflexivity|].
    cbn [transactions tokens file writes write_fails write_tears clock ticks entropy
         with_transactions with_tick with_drawn].
    repeat (split; [reflexivity|]). reflexivity.
Qed.

(** [authorize]: a response type other than "code" is refused with
    [unsupported_response_type] and nothing changes. With response type
    "code" and an authorization endpoint that [new URL] accepts, the call
    stores a transaction under a new identifier, with a PKCE pair of its
    own, the client's callback and state, and an expiry 600 seconds after
    the clock reading; it answers with the redirect to the authorization
    endpoint, on which exactly seven parameters are set: the proxy's own
    client id and callback, the response type, the scope, that identifier
    as [state], and the challenge with method S256. The verifier stays in
    the transaction: of the PKCE pair the redirect carries the challenge
    only. *)
Theorem authorize_result
    (config : Config.t) (client_id redirect_uri response_type : string)
    (state scope : option string) (w : World) :
  (response_type <> "code" ->
   authorize config client_id redirect_uri response_type state scope w
     = (Return (error_response "unsupported_response_type"), w)) /\
  (response_type = "code" ->
   plain_url (Config.authorizationEndpoint config) = true ->
   exists w1 tx,
     authorize config client_id redirect_uri response_type state scope w =
       (Return
          (RedirectResponse
             (mkUrl (Config.authorizationEndpoint config)
                [("client_id", Config.clientId config);
                 ("redirect_uri",
                  (Config.baseUrl config ++ Config.redirectPath config)%string);
                 ("response_type", "code");
                 ("scope", String.concat "," (PKCETransaction.scope tx));
                 ("state", id_after_pkce w);
                 ("code_challenge", sha256_base64url (PKCETransaction.codeVerifier tx));
                 ("code_challenge_method", "S256")])), w1) /\
     transactions w1 = JsMap.set (id_after_pkce w) tx (transactions w) /\
     JsMap.get (id_after_pkce w) (transactions w1) = Some tx /\
     tokens w1 = tokens w /\ file w1 = file w /\ writes w1 = writes w /\
     PKCETransaction.codeVerifier tx = Buffer.base64url (next_bytes 32 w) /\
     PKCETransaction.codeChallenge tx
       = sha256_base64url (PKCETransaction.codeVerifier tx) /\
     PKCETransaction.clientCallbackUrl tx = redirect_uri /\
     PKCETransaction.clientId tx = client_id /\
     PKCETransaction.clientState tx
       = (if truthy state then or_else state ""
          else next_id (with_drawn 16 (with_drawn 32 w))) /\
     PKCETransaction.scope tx
       = (if truthy scope then split " " (or_else scope "")
          else Config.scopes config) /\
     PKCETransaction.createdAt tx = now w /\
     PKCETransaction.expiresAt tx = clock w (S (ticks w)) + 600000).
Proof.
  split.
  - intros Hne. unfold authorize.
    apply String.eqb_neq in Hne. rewrite Hne. reflexivity.
  - intros -> Hurl.
    destruct (authorize_code config client_id redirect_uri state scope w)
      as (w1 & Hrun & Htx & Htok & Hfile & Hwr & _).
    cbn zeta in Hrun, Htx.
    set (tx := PKCETransaction.mk _ _ _ _ _ _ _ _) in Hrun, Htx.
    exists w1, tx.
    split; [exact Hrun|]. split; [exact Htx|].
    split; [rewrite Htx; apply JsMapFacts.get_set_same|].
    split; [exact Htok|]. split; [exact Hfile|]. split; [exact Hwr|].
    repeat split.
Qed.

Lemma authorize_result_witness :
  plain_url (Config.authorizationEndpoint demo_config) = true /\
  exists w1 tx,
    authorize demo_config "abc" "https://client/cb" "code" (Some "xyz") None fresh_world =
      (Return
         (RedirectResponse
            (mkUrl "https://upstream.example/oauth/authorize"
               [("client_id", "upstream-client");
                ("redirect_uri", "http://localhost:3000/oauth/callback");
                ("response_type", "code");
                ("scope", String.concat "," (PKCETransaction.scope tx));
                ("state", id_after_pkce fresh_world);
                ("code_challenge", sha256_base64url (PKCETransaction.codeVerifier tx));
                ("code_challenge_method", "S256")])), w1) /\
    transactions w1 = JsMap.set (id_after_pkce fresh_world) tx (transactions fresh_world) /\
    JsMap.get (id_after_pkce fresh_world) (transactions w1) = Some tx /\
    tokens w1 = tokens fresh_world /\ file w1 = file fresh_world /\
    writes w1 = writes fresh_world /\
    PKCETransaction.codeVerifier tx = Buffer.base64url (next_bytes 32 fresh_world) /\
    PKCETransaction.codeChallenge tx
      = sha256_base64url (PKCETransaction.codeVerifier tx) /\
    PKCETransaction.clientCallbackUrl tx = "https://client/cb" /\
    PKCETransaction.clientId tx = "abc" /\
    PKCETransaction.clientState tx = "xyz" /\
    PKCETransaction.scope tx = ["read:graph"; "write:graph"] /\
    PKCETransaction.createdAt tx = now fresh_world /\
    PKCETransaction.expiresAt tx = clock fresh_world (S (ticks fresh_world)) + 600000.
Proof.
  split; [reflexivity|].
  apply (proj2 (authorize_result demo_config "abc" "https://client/cb" "code"
                  (Some "xyz") None fresh_world)); reflexivity.
Defined.

(* ================================================================== *)
(** ** Callback *)
(* ================================================================== *)

(** C9: a Callback request with neither [code] nor [state] in its query
    answers [missing_state] (the state is checked before the code) and
    changes nothing: the stores, the file and the environment are as
    before. *)
Theorem handleCallback_missing_both
    (config : Config.t) (fetch : FetchRequest -> FetchResponse)
    (request : Request) (w : World) :
  searchParams_get "code" request = None ->
  searchParams_get "state" request = None ->
  handleCallback config fetch request w
    = (Return (error_response "missing_state"), w) /\
  error_response "missing_state" = JsonResponse 400 [("error", "missing_state")] /\
  error_response "missing_state" <> error_response "missing_code".
Proof.
  intros Hc Hs. unfold handleCallback. rewrite Hs, Hc. cbn.
  repeat split. discriminate.
Qed.

Lemma handleCallback_missing_both_witness :
  handleCallback demo_config upstream_down (mkRequest [("error", "access_denied")]) demo_world
    = (Return (error_response "missing_state"), demo_world) /\
  error_response "missing_state" = JsonResponse 400 [("error", "missing_state")] /\
  error_response "missing_state" <> error_response "missing_code".
Proof.
  apply (handleCallback_missing_both demo_config upstream_down
           (mkRequest [("error", "access_denied")]) demo_world); reflexivity.
Defined.

(** [handleCallback] up to the upstream exchange, for a request that
    carries a code and a state. *)
Lemma handleCallback_unknown_state config fetch request w state code :
  searchParams_get "state" request = Some state -> state <> "" ->
  searchParams_get "code" request = Some code -> code <> "" ->
  JsMap.get state (transactions w) = None ->
  handleCallback config fetch request w = (Return (error_response "invalid_state"), w).
Proof.
  intros Hs Hs' Hc Hc' Hget. unfold handleCallback.
  rewrite Hs, Hc, !truthy_Some, !or_else_Some by assumption.
  run_method. rewrite Hget. reflexivity.
Qed.

Lemma handleCallback_expired config fetch request w state code tx :
  searchParams_get "state" request = Some state -> state <> "" ->
  searchParams_get "code" request = Some code -> code <> "" ->
  JsMap.get state (transactions w) = Some tx ->
  PKCETransaction.expiresAt tx < now w ->
  handleCallback config fetch request w =
  (Return (error_response "transaction_expired"),
   with_transactions (JsMap.delete state (transactions w)) (with_tick w)).
Proof.
  intros Hs Hs' Hc Hc' Hget Hexp. unfold handleCallback.
  rewrite Hs, Hc, !truthy_Some, !or_else_Some by assumption.
  run_method. rewrite Hget. cbn.
  apply Z.ltb_lt in Hexp. rewrite Hexp. reflexivity.
Qed.

(** C3: a Callback (carrying a code) whose state names a stored
    transaction with [expiresAt] in the past deletes that transaction,
    touches nothing else, and answers [transaction_expired]; any later
    Callback with the same state, while the transaction is absent, answers
    [invalid_state]. *)
Theorem handleCallback_transaction_expired
    (config : Config.t) (fetch : FetchRequest -> FetchResponse)
    (request : Request) (w : World)
    (state code : string) (tx : PKCETransaction.t) :
  searchParams_get "state" request = Some state -> state <> "" ->
  searchParams_get "code" request = Some code -> code <> "" ->
  JsMap.get state (transactions w) = Some tx ->
  PKCETransaction.expiresAt tx < now w ->
  exists w1,
    handleCallback config fetch request w
      = (Return (error_response "transaction_expired"), w1) /\
    transactions w1 = JsMap.delete state (transactions w) /\
    JsMap.get state (transactions w1) = None /\
    (forall id, id <> state ->
                JsMap.get id (transactions w1) = JsMap.get id (transactions w)) /\
    tokens w1 = tokens w /\ file w1 = file w /\ writes w1 = writes w /\
    handleCallback config fetch request w1
      = (Return (error_response "invalid_state"), w1) /\
    (forall fetch' request' w2 code',
        searchParams_get "state" request' = Some state ->
        searchParams_get "code" request' = Some code' -> code' <> "" ->
        JsMap.get state (transactions w2) = None ->
        handleCallback config fetch' request' w2
          = (Return (error_response "invalid_state"), w2)).
Proof.
  intros Hs Hs' Hc Hc' Hget Hexp.
  rewrite (handleCallback_expired config fetch request w state code tx) by assumption.
  eexists. split; [reflexivity|]. cbn.
  assert (Hgone : JsMap.get state (JsMap.delete state (transactions w)) = None)
    by apply JsMapFacts.get_delete_same.
  repeat split.
  - exact Hgone.
  - intros id Hid. now apply JsMapFacts.get_delete_other.
  - apply (handleCallback_unknown_state _ _ _ _ state code); assumption.
  - intros fetch' request' w2 code' Hs2 Hc2 Hc2' Hget2.
    apply (handleCallback_unknown_state _ _ _ _ state code'); assumption.
Qed.

Lemma handleCallback_transaction_expired_witness :
  exists w1,
    handleCallback demo_config upstream_down expired_callback demo_world
      = (Return (error_response "transaction_expired"), w1) /\
    transactions w1 = JsMap.delete demo_state (transactions demo_world) /\
    JsMap.get demo_state (transactions w1) = None /\
    (forall id, id <> demo_state ->
                JsMap.get id (transactions w1) = JsMap.get id (transactions demo_world)) /\
    tokens w1 = tokens demo_world /\ file w1 = file demo_world /\
    writes w1 = writes demo_world /\
    handleCallback demo_config upstream_down expired_callback w1
      = (Return (error_response "invalid_state"), w1) /\
    (forall fetch' request' w2 code',
        searchParams_get "state" request' = Some demo_state ->
        searchParams_get "code" request' = Some code' -> code' <> "" ->
        JsMap.get demo_state (transactions w2) = None ->
        handleCallback demo_config fetch' request' w2
          = (Return (error_response "invalid_state"), w2)).
Proof.
  apply (handleCallback_transaction_expired demo_config upstream_down
           expired_callback demo_world demo_state "upstreamcode123" stale_transaction).
  - reflexivity.
  - discriminate.
  - reflexivity.
  - discriminate.
  - reflexivity.
  - reflexivity.
Defined.

(** The world after a Callback whose upstream exchange succeeded. *)
Lemma handleCallback_exchanged config fetch request w state code tx a rf e :
  searchParams_get "state" request = Some state -> state <> "" ->
  searchParams_get "code" request = Some code -> code <> "" ->
  JsMap.get state (transactions w) = Some tx ->
  now w <= PKCETransaction.expiresAt tx ->
  fetch (token_request config code tx) = Ok a rf e ->
  handleCallback config fetch request w =
  (Return (RedirectResponse
             (mkUrl (PKCETransaction.clientCallbackUrl tx)
                    [("code", next_id w); ("state", PKCETransaction.clientState tx)])),
   with_transactions (JsMap.delete state (transactions w))
     (snd (saveTokensToDisk
        (with_tokens
           (JsMap.set (next_id w)
              (TokenData.mk a rf (clock w (S (ticks w)) + expires_in_or_default e * 1000))
              (tokens w))
           (with_tick (with_drawn 16 (with_tick w))))))).
Proof.
  intros Hs Hs' Hc Hc' Hget Hlive Hfetch. unfold handleCallback.
  rewrite Hs, Hc, !truthy_Some, !or_else_Some by assumption.
  run_method. rewrite Hget. cbn.
  apply Z.ltb_ge in Hlive. rewrite Hlive, Hfetch. reflexivity.
Qed.

(** A Callback whose transaction is stored and unexpired, with a
    client callback that [new URL] accepts, and to which the upstream
    grants tokens with a lifetime that ends at a time a [Date] can hold,
    mints a proxy code, stores the upstream tokens under it with expiry
    now + expires_in seconds (3600 when the upstream names none), saves
    the store once, deletes the transaction and redirects to the client's
    callback with exactly two parameters set, the proxy code and the
    client's state. The transaction is consumed: a second Callback with
    the same state answers [invalid_state]. *)
Theorem handleCallback_success
    (config : Config.t) (fetch : FetchRequest -> FetchResponse)
    (request : Request) (w : World) (state code : string)
    (tx : PKCETransaction.t)
    (upstream_access : string) (upstream_refresh : option string)
    (upstream_expires_in : option Z) :
  searchParams_get "state" request = Some state -> state <> "" ->
  searchParams_get "code" request = Some code -> code <> "" ->
  JsMap.get state (transactions w) = Some tx ->
  now w <= PKCETransaction.expiresAt tx ->
  plain_url (PKCETransaction.clientCallbackUrl tx) = true ->
  fetch (token_request config code tx)
    = Ok upstream_access upstream_refresh upstream_expires_in ->
  JsDate.in_range
    (clock w (S (ticks w)) + expires_in_or_default upstream_expires_in * 1000) = true ->
  exists w1 proxyCode issued,
    handleCallback config fetch request w =
      (Return (RedirectResponse
                 (mkUrl (PKCETransaction.clientCallbackUrl tx)
                        [("code", proxyCode);
                         ("state", PKCETransaction.clientState tx)])), w1) /\
    proxyCode = next_id w /\ minted proxyCode /\
    issued = clock w (S (ticks w)) /\
    tokens w1 =
      JsMap.set proxyCode
        (TokenData.mk upstream_access upstream_refresh
           (issued + expires_in_or_default upstream_expires_in * 1000))
        (tokens w) /\
    transactions w1 = JsMap.delete state (transactions w) /\
    writes w1 = S (writes w) /\
    handleCallback config fetch request w1
      = (Return (error_response "invalid_state"), w1).
Proof.
  intros Hs Hs' Hc Hc' Hget Hlive Hurl Hfetch Hrange.
  rewrite (handleCallback_exchanged config fetch request w state code tx
             upstream_access upstream_refresh upstream_expires_in) by assumption.
  eexists. exists (next_id w), (clock w (S (ticks w))).
  split; [reflexivity|]. split; [reflexivity|]. split; [apply next_id_minted|].
  split; [reflexivity|]. split; [reflexivity|]. split; [reflexivity|].
  split; [reflexivity|].
  apply (handleCallback_unknown_state _ _ _ _ state code); try assumption.
  apply JsMapFacts.get_delete_same.
Qed.

Lemma handleCallback_success_witness :
  exists w1 proxyCode issued,
    handleCallback demo_config upstream_ok live_callback demo_world =
      (Return (RedirectResponse
                 (mkUrl "https://client.example/cb"
                        [("code", proxyCode); ("state", "s2")])), w1) /\
    proxyCode = next_id demo_world /\ minted proxyCode /\
    issued = 1700000000000 /\
    tokens w1 =
      JsMap.set proxyCode (TokenData.mk "U1" None (issued + 120 * 1000))
        (tokens demo_world) /\
    transactions w1 = JsMap.delete live_state (transactions demo_world) /\
    writes w1 = 1%nat /\
    handleCallback demo_config upstream_ok live_callback w1
      = (Return (error_response "invalid_state"), w1).
Proof.
  apply (handleCallback_success demo_config upstream_ok live_callback demo_world
           live_state "upstreamcode123" live_transaction "U1" None (Some 120)).
  - reflexivity.
  - discriminate.
  - reflexivity.
  - discriminate.
  - reflexivity.
  - vm_compute. discriminate.
  - reflexivity.
  - reflexivity.
  - reflexivity.
Defined.

(** When the upstream answers with a failure, the Callback reports
    [token_exchange_failed] with the upstream's text and the transaction is
    left in place: neither store changes and nothing is written. *)
Theorem handleCallback_upstream_failure
    (config : Config.t) (fetch : FetchRequest -> FetchResponse)
    (request : Request) (w : World) (state code : string)
    (tx : PKCETransaction.t) (text : string) :
  searchParams_get "state" request = Some state -> state <> "" ->
  searchParams_get "code" request = Some code -> code <> "" ->
  JsMap.get state (transactions w) = Some tx ->
  now w <= PKCETransaction.expiresAt tx ->
  fetch (token_request config code tx) = NotOk text ->
  handleCallback config fetch request w =
    (Return (JsonResponse 400 [("error", "token_exchange_failed"); ("details", text)]),
     with_tick w) /\
  JsMap.get state (transactions (with_tick w)) = Some tx /\
  transactions (with_tick w) = transactions w /\
  tokens (with_tick w) = tokens w /\
  file (with_tick w) = file w /\ writes (with_tick w) = writes w.
Proof.
  intros Hs Hs' Hc Hc' Hget Hlive Hfetch. unfold handleCallback.
  rewrite Hs, Hc, !truthy_Some, !or_else_Some by assumption.
  run_method. rewrite Hget. cbn.
  apply Z.ltb_ge in Hlive. rewrite Hlive, Hfetch.
  repeat split.
Qed.

Lemma handleCallback_upstream_failure_witness :
  handleCallback demo_config upstream_down live_callback demo_world =
    (Return (JsonResponse 400 [("error", "token_exchange_failed");
                               ("details", "unavailable")]),
     with_tick demo_world) /\
  JsMap.get live_state (transactions (with_tick demo_world)) = Some live_transaction /\
  transactions (with_tick demo_world) = transactions demo_world /\
  tokens (with_tick demo_world) = tokens demo_world /\
  file (with_tick demo_world) = file demo_world /\
  writes (with_tick demo_world) = writes demo_world.
Proof.
  apply (handleCallback_upstream_failure demo_config upstream_down live_callback
           demo_world live_state "upstreamcode123" live_transaction "unavailable").
  - reflexivity.
  - discriminate.
  - reflexivity.
  - discriminate.
  - reflexivity.
  - vm_compute. discriminate.
  - reflexivity.
Defined.

(* ================================================================== *)
(** ** Token exchange *)
(* ================================================================== *)

(** A missing code is refused with [invalid_request], before the store is
    looked at. *)
Theorem exchange_missing_code (w : World) :
  exchangeAuthorizationCode None w = (Throw invalid_request, w) /\
  exchangeAuthorizationCode (Some "") w = (Throw invalid_request, w) /\
  error_code invalid_request = "invalid_request".
Proof. repeat split. Qed.

(** The outcome of [exchangeAuthorizationCode] on a code the store holds. *)
Lemma exchange_hit k r w :
  k <> "" -> JsMap.get k (tokens w) = Some r ->
  exchangeAuthorizationCode (Some k) w =
  let a := next_id w in
  let d := (TokenData.expiresAt r - now w) / 1000 in
  (Return (mkTokenResponse a "Bearer" (if 0 <? d then d else 3600) None),
   with_tick (snd (saveTokensToDisk
     (with_tokens (JsMap.set a r (JsMap.delete k (tokens w))) (with_drawn 16 w))))).
Proof.
  intros Hk Hget. unfold exchangeAuthorizationCode.
  rewrite truthy_Some, or_else_Some by assumption.
  run_method. rewrite Hget. reflexivity.
Qed.

Lemma exchange_miss k w :
  k <> "" -> JsMap.get k (tokens w) = None ->
  exchangeAuthorizationCode (Some k) w = (Throw invalid_grant_code, w).
Proof.
  intros Hk Hget. unfold exchangeAuthorizationCode.
  rewrite truthy_Some, or_else_Some by assumption.
  run_method. rewrite Hget. reflexivity.
Qed.

(** C1: the code breaks the claim. A code that is present in the Token
    Store with [expiresAt] in the past is exchanged: the call returns an
    access token and does not throw [invalid_grant], although the error of
    this path reads "Invalid or expired authorization code" and the sibling
    lookup [loadUpstreamTokens] does re-check the expiry at use. *)
Lemma exchange_expired_code_succeeds :
  JsMap.get "00112233445566778899aabbccddeeff" (tokens stale_world)
    = Some (TokenData.mk "U1" None 1699999940000) /\
  1699999940000 < now stale_world /\
  fst (exchangeAuthorizationCode (Some "00112233445566778899aabbccddeeff") stale_world)
    = Return (mkTokenResponse "030a11181f262d343b424950575e656c" "Bearer" 3600 None) /\
  fst (exchangeAuthorizationCode (Some "00112233445566778899aabbccddeeff") stale_world)
    <> Throw invalid_grant_code.
Proof.
  repeat split; try reflexivity.
  vm_compute. discriminate.
Qed.

(** What the exchange looks at: a Token-exchange call with a (non-empty)
    code throws [invalid_grant] exactly when the store has no entry under
    the code. The expiry of the entry is not consulted: a code that is
    present with [expiresAt] in the past is exchanged like any other, and
    the response names the default [expires_in] of 3600. *)
Theorem exchange_invalid_grant_iff_absent (w : World) (k : string) :
  k <> "" ->
  (fst (exchangeAuthorizationCode (Some k) w) = Throw invalid_grant_code
     <-> JsMap.get k (tokens w) = None) /\
  error_code invalid_grant_code = "invalid_grant" /\
  (forall r, JsMap.get k (tokens w) = Some r ->
             TokenData.expiresAt r < now w ->
             fst (exchangeAuthorizationCode (Some k) w)
               = Return (mkTokenResponse (next_id w) "Bearer" 3600 None)).
Proof.
  intros Hk. split; [|split; [reflexivity|]].
  - destruct (JsMap.get k (tokens w)) as [r|] eqn:Hget.
    + rewrite (exchange_hit k r w Hk Hget). cbn. split; discriminate.
    + rewrite (exchange_miss k w Hk Hget). cbn. tauto.
  - intros r Hget Hexp. rewrite (exchange_hit k r w Hk Hget). cbn.
    assert (Hd : (TokenData.expiresAt r - now w) / 1000 < 0).
    { apply Z.div_lt_upper_bound; lia. }
    destruct (0 <? (TokenData.expiresAt r - now w) / 1000) eqn:E.
    + apply Z.ltb_lt in E. lia.
    + reflexivity.
Qed.

Lemma exchange_invalid_grant_iff_absent_witness :
  (fst (exchangeAuthorizationCode (Some "00112233445566778899aabbccddeeff") stale_world)
     = Throw invalid_grant_code
     <-> JsMap.get "00112233445566778899aabbccddeeff" (tokens stale_world) = None) /\
  error_code invalid_grant_code = "invalid_grant" /\
  (forall r, JsMap.get "00112233445566778899aabbccddeeff" (tokens stale_world) = Some r ->
             TokenData.expiresAt r < now stale_world ->
             fst (exchangeAuthorizationCode (Some "00112233445566778899aabbccddeeff") stale_world)
               = Return (mkTokenResponse (next_id stale_world) "Bearer" 3600 None)).
Proof.
  apply (exchange_invalid_grant_iff_absent stale_world "00112233445566778899aabbccddeeff").
  discriminate.
Defined.

(** C2: a minted proxy code is exchangeable exactly once. When the store
    holds an unexpired record [r] under the minted code [k] and the key
    [generateId] draws is a new one (not [k] itself), the first call
    returns that key as [access_token]; afterwards the store has no entry
    at [k], holds the same record [r] under the new key and is otherwise as
    before; a second call with [k] throws [invalid_grant]. *)
Theorem proxy_code_exchanged_once (w : World) (k : string) (r : TokenData.t) :
  minted k ->
  JsMap.get k (tokens w) = Some r ->
  now w < TokenData.expiresAt r ->
  next_id w <> k ->
  exists resp w1,
    exchangeAuthorizationCode (Some k) w = (Return resp, w1) /\
    access_token resp = next_id w /\
    tokens w1 = JsMap.set (access_token resp) r (JsMap.delete k (tokens w)) /\
    JsMap.get k (tokens w1) = None /\
    JsMap.get (access_token resp) (tokens w1) = Some r /\
    (forall k', k' <> k -> k' <> access_token resp ->
                JsMap.get k' (tokens w1) = JsMap.get k' (tokens w)) /\
    exchangeAuthorizationCode (Some k) w1 = (Throw invalid_grant_code, w1) /\
    error_code invalid_grant_code = "invalid_grant".
Proof.
  intros Hm Hget Hlive Hfresh.
  pose proof (minted_nonempty k Hm) as Hk.
  assert (Hne : k <> next_id w) by congruence.
  rewrite (exchange_hit k r w Hk Hget). cbn zeta.
  eexists. eexists. split; [reflexivity|]. cbn.
  assert (Hgone : JsMap.get k (JsMap.set (next_id w) r (JsMap.delete k (tokens w))) = None).
  { rewrite JsMapFacts.get_set_other by assumption. apply JsMapFacts.get_delete_same. }
  repeat split.
  - exact Hgone.
  - apply JsMapFacts.get_set_same.
  - intros k' H1 H2. rewrite JsMapFacts.get_set_other by assumption.
    now apply JsMapFacts.get_delete_other.
  - apply exchange_miss; [assumption|]. exact Hgone.
Qed.

Lemma proxy_code_exchanged_once_witness :
  exists resp w1,
    exchangeAuthorizationCode (Some demo_code) demo_world = (Return resp, w1) /\
    access_token resp = next_id demo_world /\
    tokens w1 = JsMap.set (access_token resp) live_record
                  (JsMap.delete demo_code (tokens demo_world)) /\
    JsMap.get demo_code (tokens w1) = None /\
    JsMap.get (access_token resp) (tokens w1) = Some live_record /\
    (forall k', k' <> demo_code -> k' <> access_token resp ->
                JsMap.get k' (tokens w1) = JsMap.get k' (tokens demo_world)) /\
    exchangeAuthorizationCode (Some demo_code) w1 = (Throw invalid_grant_code, w1) /\
    error_code invalid_grant_code = "invalid_grant".
Proof.
  apply (proxy_code_exchanged_once demo_world demo_code live_record).
  - exact demo_code_minted.
  - reflexivity.
  - reflexivity.
  - vm_compute. discriminate.
Defined.

(** C7: the [expires_in] of a successful exchange is
    floor((expiresAt - now) / 1000) when that is positive and the default
    3600 otherwise, in particular when the expiry has already elapsed; it is
    never zero or negative. *)
Theorem exchange_expires_in (code : option string) (w w' : World) (resp : TokenResponse) :
  exchangeAuthorizationCode code w = (Return resp, w') ->
  exists k r,
    code = Some k /\ JsMap.get k (tokens w) = Some r /\
    let d := (TokenData.expiresAt r - now w) / 1000 in
    (0 < d -> expires_in resp = d) /\
    (d <= 0 -> expires_in resp = 3600) /\
    (TokenData.expiresAt r <= now w -> expires_in resp = 3600) /\
    0 < expires_in resp.
Proof.
  intros Hrun.
  destruct code as [k|]; [|discriminate].
  destruct (String.eqb k "") eqn:Ek.
  { unfold exchangeAuthorizationCode in Hrun. simpl in Hrun.
    rewrite Ek in Hrun. discriminate. }
  apply String.eqb_neq in Ek.
  destruct (JsMap.get k (tokens w)) as [r|] eqn:Hget.
  2:{ rewrite (exchange_miss k w Ek Hget) in Hrun. discriminate. }
  rewrite (exchange_hit k r w Ek Hget) in Hrun. cbn zeta in Hrun.
  injection Hrun as <- _.
  exists k, r. split; [reflexivity|]. split; [exact Hget|]. cbn.
  set (d := (TokenData.expiresAt r - now w) / 1000).
  assert (Helapsed : TokenData.expiresAt r <= now w -> d <= 0).
  { intros H. unfold d.
    assert ((TokenData.expiresAt r - now w) / 1000 < 1); [|lia].
    apply Z.div_lt_upper_bound; lia. }
  destruct (0 <? d) eqn:E.
  - apply Z.ltb_lt in E. repeat split; intros; lia.
  - apply Z.ltb_ge in E. repeat split; intros; lia.
Qed.

Lemma exchange_expires_in_witness :
  exists k r,
    Some demo_code = Some k /\ JsMap.get k (tokens demo_world) = Some r /\
    let d := (TokenData.expiresAt r - now demo_world) / 1000 in
    (0 < d -> expires_in (mkTokenResponse (next_id demo_world) "Bearer" 120 None) = d) /\
    (d <= 0 -> expires_in (mkTokenResponse (next_id demo_world) "Bearer" 120 None) = 3600) /\
    (TokenData.expiresAt r <= now demo_world ->
     expires_in (mkTokenResponse (next_id demo_world) "Bearer" 120 None) = 3600) /\
    0 < expires_in (mkTokenResponse (next_id demo_world) "Bearer" 120 None).
Proof.
  apply (exchange_expires_in (Some demo_code) demo_world
           (snd (exchangeAuthorizationCode (Some demo_code) demo_world))).
  reflexivity.
Defined.

(** A successful exchange answers with a Bearer token and never with a
    refresh token. *)
Theorem exchange_no_refresh_token
    (code : option string) (w w' : World) (resp : TokenResponse) :
  exchangeAuthorizationCode code w = (Return resp, w') ->
  refresh_token resp = None /\ token_type resp = "Bearer".
Proof.
  intros Hrun. destruct code as [k|]; [|discriminate].
  destruct (String.eqb k "") eqn:Ek.
  { unfold exchangeAuthorizationCode in Hrun. simpl in Hrun.
    rewrite Ek in Hrun. discriminate. }
  apply String.eqb_neq in Ek.
  destruct (JsMap.get k (tokens w)) as [r|] eqn:Hget.
  - rewrite (exchange_hit k r w Ek Hget) in Hrun. cbn zeta in Hrun.
    injection Hrun as <- _. split; reflexivity.
  - rewrite (exchange_miss k w Ek Hget) in Hrun. discriminate.
Qed.

Lemma exchange_no_refresh_token_witness :
  refresh_token (mkTokenResponse (next_id demo_world) "Bearer" 120 None) = None /\
  token_type (mkTokenResponse (next_id demo_world) "Bearer" 120 None) = "Bearer".
Proof.
  apply (exchange_no_refresh_token (Some demo_code) demo_world
           (snd (exchangeAuthorizationCode (Some demo_code) demo_world))).
  reflexivity.
Defined.

(** C8: the refresh grant fails with [invalid_grant] for every
    [refresh_token], the empty string included; it returns no token and
    changes nothing. *)
Theorem exchangeRefreshToken_invalid_grant (refresh_token : string) (w : World) :
  exchangeRefreshToken refresh_token w = (Throw invalid_grant_refresh, w) /\
  exchangeRefreshToken "" w = (Throw invalid_grant_refresh, w) /\
  error_code invalid_grant_refresh = "invalid_grant" /\
  (forall resp : TokenResponse,
     fst (exchangeRefreshToken refresh_token w) <> Return resp).
Proof.
  unfold exchangeRefreshToken, throw. cbn.
  repeat split. intros resp. discriminate.
Qed.

(* ================================================================== *)
(** ** Token validation and lookup *)
(* ================================================================== *)

(** [loadUpstreamTokens]: an unknown token is not authenticated and
    nothing changes; a token whose expiry is before the current time is
    deleted, the store is saved and the token is not authenticated;
    otherwise the record is returned and the stores are left alone. *)
Theorem loadUpstreamTokens_result (proxyToken : string) (w : World) :
  match JsMap.get proxyToken (tokens w) with
  | None => loadUpstreamTokens proxyToken w = (Return None, w)
  | Some data =>
      if TokenData.expiresAt data <? now w
      then exists w',
             loadUpstreamTokens proxyToken w = (Return None, w') /\
             tokens w' = JsMap.delete proxyToken (tokens w) /\
             JsMap.get proxyToken (tokens w') = None /\
             transactions w' = transactions w /\
             writes w' = S (writes w)
      else loadUpstreamTokens proxyToken w = (Return (Some data), with_tick w)
  end.
Proof.
  unfold loadUpstreamTokens. run_method.
  destruct (JsMap.get proxyToken (tokens w)) as [data|]; [|reflexivity].
  cbn. destruct (TokenData.expiresAt data <? now w); [|reflexivity].
  eexists. split; [reflexivity|]. cbn.
  repeat split. apply JsMapFacts.get_delete_same.
Qed.

(** C10: [getFirstValidToken] returns a record of the Token Store whose
    [expiresAt] is strictly after the current time whenever the store has
    one, and null otherwise; either way both stores and the token file are
    left as they were and nothing is written (an expired entry it passes
    is not deleted). *)
Theorem getFirstValidToken_result (w : World) :
  exists result w',
    getFirstValidToken w = (Return result, w') /\
    transactions w' = transactions w /\ tokens w' = tokens w /\
    file w' = file w /\ writes w' = writes w /\
    ((exists k t, In (k, t) (tokens w) /\ now w < TokenData.expiresAt t) ->
     exists k t, result = Some t /\ In (k, t) (tokens w) /\
                 now w < TokenData.expiresAt t) /\
    ((forall k t, In (k, t) (tokens w) -> TokenData.expiresAt t <= now w) ->
     result = None).
Proof.
  unfold getFirstValidToken. run_method.
  eexists. eexists. split; [reflexivity|].
  repeat split.
  - intros [k [t [Hin Hlive]]].
    destruct (find (fun kv => now w <? TokenData.expiresAt (snd kv)) (tokens w))
      as [[k' t']|] eqn:Hfind.
    + apply find_some in Hfind. destruct Hfind as [Hin' Hlive'].
      apply Z.ltb_lt in Hlive'. exists k', t'. auto.
    + exfalso. apply (find_none _ _ Hfind) in Hin. cbn in Hin.
      apply Z.ltb_ge in Hin. lia.
  - intros Hall.
    destruct (find (fun kv => now w <? TokenData.expiresAt (snd kv)) (tokens w))
      as [[k' t']|] eqn:Hfind; [|reflexivity].
    apply find_some in Hfind. destruct Hfind as [Hin' Hlive'].
    apply Z.ltb_lt in Hlive'. cbn in Hlive'. apply Hall in Hin'. lia.
Qed.

(* ================================================================== *)
(** ** Expiry sweeper *)
(* ================================================================== *)

Section DeleteLoop.

Context {V : Type} (p : string * V -> bool).

Lemma filter_all (q : string * V -> bool) (m : JsMap.t V) :
  (forall kv, In kv m -> q kv = true) -> filter q m = m.
Proof.
  induction m as [|kv m IH]; simpl; auto.
  intros H. rewrite (H kv) by auto. f_equal. auto.
Qed.

Lemma filter_twice (q q' : string * V -> bool) (m : JsMap.t V) :
  filter q (filter q' m) = filter (fun kv => q' kv && q kv) m.
Proof.
  induction m as [|kv m IH]; simpl; auto.
  destruct (q' kv); simpl; [destruct (q kv)|]; rewrite IH; reflexivity.
Qed.

Lemma delete_where_filter l acc :
  delete_where p l acc =
  filter (fun kv => negb (existsb (fun kv' => p kv' && String.eqb (fst kv') (fst kv)) l)) acc.
Proof.
  unfold delete_where. revert acc. induction l as [|kv0 l IH]; intros acc; simpl.
  - symmetry. now apply filter_all.
  - rewrite IH. destruct (p kv0); simpl; [|reflexivity].
    unfold JsMap.delete. rewrite filter_twice.
    apply filter_ext. intros kv. now rewrite negb_orb.
Qed.

Lemma wf_unique (m : JsMap.t V) k v v' :
  JsMap.wf m -> In (k, v) m -> In (k, v') m -> v = v'.
Proof.
  intros Hwf H H'. apply (JsMapFacts.In_get _ _ _ Hwf) in H, H'. congruence.
Qed.

(** On a map, the loop over its own entries is a filter. *)
Lemma delete_where_self (m : JsMap.t V) :
  JsMap.wf m -> delete_where p m m = filter (fun kv => negb (p kv)) m.
Proof.
  intros Hwf. rewrite delete_where_filter.
  apply filter_ext_in. intros [k v] Hin. f_equal.
  destruct (p (k, v)) eqn:Ep.
  - apply existsb_exists. exists (k, v).
    split; [assumption|]. rewrite Ep. cbn. apply String.eqb_refl.
  - destruct (existsb _ m) eqn:Ex; [|reflexivity].
    apply existsb_exists in Ex. destruct Ex as [[k' v'] [Hin' Hp]].
    apply andb_prop in Hp. destruct Hp as [Hp Hk]. cbn in Hk.
    apply String.eqb_eq in Hk. subst k'.
    rewrite (wf_unique m k v v' Hwf Hin Hin') in Ep. congruence.
Qed.

End DeleteLoop.

Lemma sweep_transactions_loop current l w :
  for_of l (fun kv =>
    if PKCETransaction.expiresAt (snd kv) <? current
    then modify (fun w => with_transactions (JsMap.delete (fst kv) (transactions w)) w)
    else ret tt) w
  = (Return tt,
     with_transactions (delete_where (expired_tx current) l (transactions w)) w).
Proof.
  revert w. induction l as [|kv l IH]; intros w.
  - cbn. now rewrite with_transactions_same.
  - cbn [for_of]. unfold bind at 1.
    unfold delete_where. cbn [fold_left]. fold (delete_where (expired_tx current)).
    change (PKCETransaction.expiresAt (snd kv) <? current) with (expired_tx current kv).
    destruct (expired_tx current kv).
    + unfold modify at 1. rewrite IH. reflexivity.
    + unfold ret at 1. rewrite IH. reflexivity.
Qed.

Lemma sweep_tokens_loop current l changed w :
  for_of_acc l changed (fun kv changed =>
    if TokenData.expiresAt (snd kv) <? current
    then
      modify (fun w => with_tokens (JsMap.delete (fst kv) (tokens w)) w) ;;;
      ret true
    else ret changed) w
  = (Return (changed || existsb (expired_token current) l),
     with_tokens (delete_where (expired_token current) l (tokens w)) w).
Proof.
  revert changed w. induction l as [|kv l IH]; intros changed w.
  - cbn. now rewrite with_tokens_same, orb_false_r.
  - cbn [for_of_acc existsb]. unfold bind at 1.
    unfold delete_where. cbn [fold_left]. fold (delete_where (expired_token current)).
    change (TokenData.expiresAt (snd kv) <? current) with (expired_token current kv).
    destruct (expired_token current kv).
    + unfold bind at 1, modify at 1, ret at 1. rewrite IH.
      cbn [orb]. rewrite orb_true_r. reflexivity.
    + unfold ret at 1. rewrite IH. reflexivity.
Qed.

(** One sweeper pass, in closed form. *)
Lemma startCleanup_tick_run w :
  JsMap.wf (transactions w) -> JsMap.wf (tokens w) ->
  startCleanup_tick w =
  let swept :=
    with_tokens (filter (fun kv => negb (expired_token (now w) kv)) (tokens w))
      (with_transactions
         (filter (fun kv => negb (expired_tx (now w) kv)) (transactions w))
         (with_tick w)) in
  if existsb (expired_token (now w)) (tokens w)
  then saveTokensToDisk swept
  else (Return tt, swept).
Proof.
  intros Htx Htok. unfold startCleanup_tick.
  unfold bind at 1, Date_now at 1.
  unfold bind at 1, gets at 1. cbn [transactions with_tick].
  unfold bind at 1. rewrite sweep_transactions_loop.
  unfold bind at 1, gets at 1. cbn [tokens with_transactions with_tick].
  unfold bind at 1. rewrite sweep_tokens_loop.
  cbn [tokens transactions with_transactions with_tick orb].
  rewrite !delete_where_self by assumption.
  destruct (existsb (expired_token (now w)) (tokens w)); reflexivity.
Qed.

(** C4: one sweeper pass at time [now w] removes exactly the transactions
    and the token records whose [expiresAt] is before that time and leaves
    every other entry as it was, in place; it calls the persistence write
    once when at least one token record was removed, and not at all
    otherwise (removed transactions do not count). *)
Theorem sweeper_pass (w : World) :
  JsMap.wf (transactions w) -> JsMap.wf (tokens w) ->
  exists w',
    startCleanup_tick w = (Return tt, w') /\
    transactions w' =
      filter (fun kv => negb (PKCETransaction.expiresAt (snd kv) <? now w)) (transactions w) /\
    tokens w' =
      filter (fun kv => negb (TokenData.expiresAt (snd kv) <? now w)) (tokens w) /\
    (forall id, JsMap.get id (transactions w') =
                match JsMap.get id (transactions w) with
                | Some tx => if PKCETransaction.expiresAt tx <? now w then None else Some tx
                | None => None
                end) /\
    (forall k, JsMap.get k (tokens w') =
               match JsMap.get k (tokens w) with
               | Some r => if TokenData.expiresAt r <? now w then None else Some r
               | None => None
               end) /\
    (writes w' = S (writes w) <->
     exists k r, JsMap.get k (tokens w) = Some r /\ TokenData.expiresAt r < now w) /\
    (writes w' = writes w \/ writes w' = S (writes w)) /\
    ((forall k r, JsMap.get k (tokens w) = Some r -> now w <= TokenData.expiresAt r)
       -> writes w' = writes w /\ file w' = file w).
Proof.
  intros Htx Htok. rewrite startCleanup_tick_run by assumption. cbn zeta.
  set (txs := filter (fun kv => negb (expired_tx (now w) kv)) (transactions w)).
  set (toks := filter (fun kv => negb (expired_token (now w) kv)) (tokens w)).
  assert (Hex : existsb (expired_token (now w)) (tokens w) = true <->
                exists k r, JsMap.get k (tokens w) = Some r /\ TokenData.expiresAt r < now w).
  { rewrite existsb_exists. split.
    - intros [[k r] [Hin Hp]]. exists k, r. split.
      + now apply JsMapFacts.In_get.
      + now apply Z.ltb_lt in Hp.
    - intros [k [r [Hget Hp]]]. exists (k, r). split.
      + now apply JsMapFacts.get_In.
      + now apply Z.ltb_lt. }
  assert (Hgtx : forall id, JsMap.get id txs =
                match JsMap.get id (transactions w) with
                | Some tx => if PKCETransaction.expiresAt tx <? now w then None else Some tx
                | None => None
                end).
  { intros id. unfold txs. rewrite JsMapFacts.get_filter by assumption.
    destruct (JsMap.get id (transactions w)) as [tx|]; [|reflexivity].
    unfold expired_tx. cbn. now destruct (PKCETransaction.expiresAt tx <? now w). }
  assert (Hgtok : forall k, JsMap.get k toks =
               match JsMap.get k (tokens w) with
               | Some r => if TokenData.expiresAt r <? now w then None else Some r
               | None => None
               end).
  { intros k. unfold toks. rewrite JsMapFacts.get_filter by assumption.
    destruct (JsMap.get k (tokens w)) as [r|]; [|reflexivity].
    unfold expired_token. cbn. now destruct (TokenData.expiresAt r <? now w). }
  destruct (existsb (expired_token (now w)) (tokens w)) eqn:Ex.
  - rewrite saveTokensToDisk_run. eexists. split; [reflexivity|].
    split; [reflexivity|]. split; [reflexivity|].
    split; [exact Hgtx|]. split; [exact Hgtok|].
    destruct (proj1 Hex eq_refl) as [k [r [Hget Hlt]]].
    split; [|split].
    + split; [intros _; eauto | intros _; reflexivity].
    + right. reflexivity.
    + intros Hnone. specialize (Hnone k r Hget). lia.
  - eexists. split; [reflexivity|].
    split; [reflexivity|]. split; [reflexivity|].
    split; [exact Hgtx|]. split; [exact Hgtok|].
    split; [|split].
    + cbn [writes with_tokens with_transactions with_tick]. split.
      * intros Hw. exfalso. clear - Hw. induction (writes w); [discriminate|].
        injection Hw. auto.
      * intros Hsome. apply Hex in Hsome. discriminate.
    + left. reflexivity.
    + intros _. split; reflexivity.
Qed.

Lemma sweeper_pass_witness :
  exists w',
    startCleanup_tick demo_world = (Return tt, w') /\
    transactions w' = [("b0b1b2b3b4b5b6b7b8b9babbbcbdbebf", live_transaction)] /\
    tokens w' = [(demo_code, live_record)] /\
    writes w' = 1%nat.
Proof.
  destruct (sweeper_pass demo_world) as [w' [Hrun [Htx [Htok [_ [_ [Hw _]]]]]]].
  - distinct_keys.
  - distinct_keys.
  - exists w'. split; [exact Hrun|]. split; [exact Htx|]. split; [exact Htok|].
    apply Hw. exists "ffeeddccbbaa99887766554433221100", stale_record.
    split; reflexivity.
Defined.

(* ================================================================== *)
(** ** Persistence *)
(* ================================================================== *)

Lemma blind_ret {A} (a : A) : disk_blind (ret a).
Proof. intros w w' H. split; [reflexivity|exact H]. Qed.

Lemma blind_throw {A} e : disk_blind (@throw A e).
Proof. intros w w' H. split; [reflexivity|exact H]. Qed.

Lemma blind_gets {A} (f : World -> A) :
  (forall w w', same_memory w w' -> f w = f w') -> disk_blind (gets f).
Proof. intros Hf w w' H. split; [cbn; now rewrite (Hf w w')|exact H]. Qed.

Lemma blind_bind {A B} (m : M A) (k : A -> M B) :
  disk_blind m -> (forall a, disk_blind (k a)) -> disk_blind (bind m k).
Proof.
  intros Hm Hk w w' H. unfold bind. destruct (Hm w w' H) as [Hout Hmem].
  destruct (m w) as [[a|e] w1], (m w') as [[a'|e'] w1']; cbn in *;
    try discriminate.
  - injection Hout as <-. now apply Hk.
  - injection Hout as <-. split; [reflexivity|assumption].
Qed.

Lemma blind_modify (f : World -> World) :
  (forall w w', same_memory w w' -> same_memory (f w) (f w')) -> disk_blind (modify f).
Proof. intros Hf w w' H. split; [reflexivity|now apply Hf]. Qed.

Lemma blind_Date_now : disk_blind Date_now.
Proof.
  intros w w' (Htx & Htok & Hc & Ht & He & Hd). unfold Date_now, now. cbn.
  split; [now rewrite Hc, Ht|]. repeat split; cbn; congruence.
Qed.

Lemma blind_randomBytes n : disk_blind (randomBytes n).
Proof.
  intros w w' (Htx & Htok & Hc & Ht & He & Hd). unfold randomBytes, next_bytes. cbn.
  split; [now rewrite He, Hd|]. repeat split; cbn; congruence.
Qed.

Lemma blind_for_of {A} (xs : list A) (body : A -> M unit) :
  (forall x, disk_blind (body x)) -> disk_blind (for_of xs body).
Proof.
  intros Hb. induction xs as [|x xs IH]; cbn [for_of].
  - apply blind_ret.
  - apply blind_bind; auto.
Qed.

Lemma blind_for_of_acc {A S} (xs : list A) (body : A -> S -> M S) :
  (forall x s, disk_blind (body x s)) -> forall s, disk_blind (for_of_acc xs s body).
Proof.
  intros Hb. induction xs as [|x xs IH]; intros s; cbn [for_of_acc].
  - apply blind_ret.
  - apply blind_bind; auto.
Qed.

Lemma blind_try_catch {A} (m : M A) (handler : OAuthProxyError -> M A) :
  disk_blind m -> (forall e, disk_blind (handler e)) -> disk_blind (try_catch m handler).
Proof.
  intros Hm Hh w w' H. unfold try_catch. destruct (Hm w w' H) as [Hout Hmem].
  destruct (m w) as [[a|e] w1], (m w') as [[a'|e'] w1']; cbn in *;
    try discriminate.
  - split; assumption.
  - injection Hout as <-. now apply Hh.
Qed.

(** The one method that touches the disk does not look at what it did. *)
Lemma blind_saveTokensToDisk : disk_blind saveTokensToDisk.
Proof.
  intros w w' (Htx & Htok & Hc & Ht & He & Hd). unfold saveTokensToDisk.
  split; [reflexivity|]. repeat split; cbn; congruence.
Qed.

Ltac memory_only :=
  let H := fresh in
  intros ? ? H; destruct H as (? & ? & ? & ? & ? & ?);
  first [ congruence | repeat split; cbn; congruence ].

Ltac stays_blind :=
  repeat first
    [ apply blind_ret | apply blind_throw | apply blind_Date_now
    | apply blind_randomBytes | apply blind_saveTokensToDisk
    | apply blind_gets; memory_only
    | apply blind_modify; memory_only
    | apply blind_for_of; intros | apply blind_for_of_acc; intros
    | apply blind_try_catch; [|intros]
    | apply blind_bind; [|intros]
    | match goal with
      | |- disk_blind (if ?b then _ else _) => destruct b
      | |- disk_blind (match ?x with _ => _ end) => destruct x
      end ].

Lemma blind_generateId : disk_blind generateId.
Proof. unfold generateId. stays_blind. Qed.

Lemma blind_generatePKCE : disk_blind generatePKCE.
Proof. unfold generatePKCE. stays_blind. Qed.

Lemma blind_authorize config client_id redirect_uri response_type state scope :
  disk_blind (authorize config client_id redirect_uri response_type state scope).
Proof.
  pose proof blind_generatePKCE. pose proof blind_generateId.
  unfold authorize. stays_blind; auto.
Qed.

Lemma blind_handleCallback config fetch request :
  disk_blind (handleCallback config fetch request).
Proof.
  pose proof blind_generateId.
  unfold handleCallback. stays_blind; auto.
Qed.

Lemma blind_exchangeAuthorizationCode code :
  disk_blind (exchangeAuthorizationCode code).
Proof.
  pose proof blind_generateId.
  unfold exchangeAuthorizationCode. stays_blind; auto.
Qed.

Lemma blind_loadUpstreamTokens proxyToken : disk_blind (loadUpstreamTokens proxyToken).
Proof. unfold loadUpstreamTokens. stays_blind. Qed.

Lemma blind_startCleanup_tick : disk_blind startCleanup_tick.
Proof. unfold startCleanup_tick. stays_blind. Qed.

Lemma blind_authenticate authorization : disk_blind (Server.authenticate authorization).
Proof.
  pose proof blind_loadUpstreamTokens.
  unfold Server.authenticate. stays_blind; auto.
Qed.

(** A failing write is not fatal, and not even visible. When the write
    throws, [saveTokensToDisk] returns normally and changes nothing but
    the disk: the file is as it was when the call failed before opening
    it, and unreadable when it failed later. No method but the constructor
    sees the disk: from two states that agree on everything but the disk
    (the file, the writes made, the failures to come), each returns or
    throws the same and leaves the same stores, clock readings and
    entropy drawn; so calls answer alike whether or not their saves
    reached the disk. *)
Theorem saveTokensToDisk_failure
    (config : Config.t) (fetch : FetchRequest -> FetchResponse) :
  (forall w,
     write_fails w (writes w) = true ->
     saveTokensToDisk w = (Return tt, with_write None w) /\
     same_memory w (with_write None w) /\
     writes (with_write None w) = S (writes w) /\
     file (with_write None w)
       = (if write_tears w (writes w) then Unparsable else file w)) /\
  disk_blind saveTokensToDisk /\
  (forall client_id redirect_uri response_type state scope,
     disk_blind (authorize config client_id redirect_uri response_type state scope)) /\
  (forall request, disk_blind (handleCallback config fetch request)) /\
  (forall code, disk_blind (exchangeAuthorizationCode code)) /\
  (forall refresh_token, disk_blind (exchangeRefreshToken refresh_token)) /\
  (forall redirect_uris client_name,
     disk_blind (registerClient redirect_uris client_name)) /\
  (forall proxyToken, disk_blind (loadUpstreamTokens proxyToken)) /\
  disk_blind getFirstValidToken /\
  disk_blind startCleanup_tick /\
  (forall authorization, disk_blind (Server.authenticate authorization)) /\
  disk_blind destroy.
Proof.
  split.
  { intros w Hfail. rewrite saveTokensToDisk_run, Hfail.
    split; [reflexivity|]. split; [repeat split|]. split; reflexivity. }
  split; [apply blind_saveTokensToDisk|].
  split; [intros; apply blind_authorize|].
  split; [intros; apply blind_handleCallback|].
  split; [intros; apply blind_exchangeAuthorizationCode|].
  split; [intros; unfold exchangeRefreshToken; apply blind_throw|].
  split; [intros; pose proof blind_generateId; unfold registerClient;
          stays_blind; auto|].
  split; [intros; apply blind_loadUpstreamTokens|].
  split; [unfold getFirstValidToken; stays_blind|].
  split; [apply blind_startCleanup_tick|].
  split; [intros; apply blind_authenticate|].
  apply blind_saveTokensToDisk.
Qed.

Lemma saveTokensToDisk_failure_witness :
  write_fails full_disk_world (writes full_disk_world) = true /\
  saveTokensToDisk full_disk_world = (Return tt, with_write None full_disk_world) /\
  same_memory full_disk_world (with_write None full_disk_world) /\
  writes (with_write None full_disk_world) = 1%nat /\
  file (with_write None full_disk_world) = Unparsable.
Proof.
  split; [reflexivity|].
  apply (proj1 (saveTokensToDisk_failure demo_config upstream_ok) full_disk_world).
  reflexivity.
Defined.

(** On a full disk the exchange answers as on any other, and leaves the
    token file unreadable. *)
Example exchange_on_full_disk :
  fst (exchangeAuthorizationCode (Some demo_code) full_disk_world)
    = Return (mkTokenResponse (next_id full_disk_world) "Bearer" 120 None) /\
  tokens (snd (exchangeAuthorizationCode (Some demo_code) full_disk_world))
    = [(next_id full_disk_world, live_record)] /\
  file (snd (exchangeAuthorizationCode (Some demo_code) full_disk_world)) = Unparsable.
Proof. repeat split. Qed.

Lemma keys_serialized l : JsMap.keys (map serialize_entry l) = JsMap.keys l.
Proof. unfold JsMap.keys. rewrite map_map. reflexivity. Qed.

Lemma not_in_keys_app {V} k (acc : JsMap.t V) (ks : list string) :
  NoDup (JsMap.keys acc ++ k :: ks) -> JsMap.get k acc = None.
Proof.
  intros Hnd. apply JsMapFacts.get_None_keys.
  apply NoDup_remove_2 in Hnd. intros Hin. apply Hnd.
  apply in_or_app. now left.
Qed.

Lemma NoDup_shift {V} k (v : V) (acc : JsMap.t V) (ks : list string) :
  NoDup (JsMap.keys acc ++ k :: ks) -> NoDup (JsMap.keys (acc ++ [(k, v)]) ++ ks).
Proof.
  intros Hnd. unfold JsMap.keys in *. rewrite map_app. cbn.
  rewrite <- app_assoc. exact Hnd.
Qed.

(** On a map, the object [toStore] lists the serialized records in the
    order of the map, without the record of the key "__proto__". *)
Lemma toStore_from l acc :
  NoDup (JsMap.keys acc ++ JsMap.keys l) ->
  fold_left (fun o kv =>
               if String.eqb (fst kv) "__proto__" then o
               else JsMap.set (fst kv) (serialize (snd kv)) o) l acc
  = acc ++ map serialize_entry (JsMap.delete "__proto__" l).
Proof.
  revert acc. induction l as [|[k r] l IH]; intros acc Hnd.
  - cbn. now rewrite app_nil_r.
  - cbn [fold_left fst snd].
    change (JsMap.delete "__proto__" ((k, r) :: l))
      with (if negb ("__proto__" =? k)%string
            then (k, r) :: JsMap.delete "__proto__" l
            else JsMap.delete "__proto__" l).
    cbn in Hnd. rewrite (String.eqb_sym "__proto__" k).
    destruct (String.eqb k "__proto__") eqn:Ek; cbn [negb].
    + apply IH. apply NoDup_remove_1 in Hnd. exact Hnd.
    + rewrite (JsMapFacts.keys_set_new k (serialize r) acc)
        by (eapply not_in_keys_app; eauto).
      rewrite IH by (now apply NoDup_shift).
      cbn [map]. rewrite <- app_assoc. reflexivity.
Qed.

Lemma toStore_delete m :
  JsMap.wf m -> toStore m = map serialize_entry (JsMap.delete "__proto__" m).
Proof. intros Hwf. unfold toStore. now rewrite toStore_from. Qed.

Lemma delete_absent {V} k (m : JsMap.t V) :
  JsMap.get k m = None -> JsMap.delete k m = m.
Proof.
  induction m as [|[k0 v0] m IH]; [reflexivity|].
  unfold JsMap.delete in *. cbn [JsMap.get filter fst].
  destruct (String.eqb k k0); [discriminate|]. intros H. cbn [negb].
  now rewrite IH.
Qed.

Lemma toStore_map m :
  JsMap.wf m -> JsMap.get "__proto__" m = None -> toStore m = map serialize_entry m.
Proof.
  intros Hwf Hproto. rewrite toStore_delete by assumption.
  now rewrite delete_absent.
Qed.

Lemma get_serialized k l :
  JsMap.get k (map serialize_entry l) = option_map serialize (JsMap.get k l).
Proof.
  induction l as [|[k0 r0] l IH]; cbn; [reflexivity|].
  destruct (String.eqb k k0); [reflexivity|exact IH].
Qed.

Lemma minted_not_proto k : minted k -> k <> "__proto__".
Proof. intros H E. apply minted_length in H. subst k. discriminate. Qed.

Lemma load_loop Date_parse current E : forall w,
  (forall i, (i < List.length E)%nat -> clock w (ticks w + i)%nat = current) ->
  exists w',
    for_of E
      (fun kv =>
         let key := fst kv in
         let value := snd kv in
         let expiresAt := Date_parse (SerializedTokenData.expiresAt value) in
         current <- Date_now ;;
         match expiresAt with
         | Some e =>
             if current <? e
             then modify (fun w' =>
                    with_tokens
                      (JsMap.set key
                         (TokenData.mk (SerializedTokenData.accessToken value)
                                       (SerializedTokenData.refreshToken value) e)
                         (tokens w')) w')
             else ret tt
         | None => ret tt
         end) w = (Return tt, w') /\
    tokens w' = fold_left (load_entry Date_parse current) E (tokens w) /\
    transactions w' = transactions w /\ file w' = file w /\ writes w' = writes w.
Proof.
  induction E as [|kv E IH]; intros w Hclock.
  - exists w. repeat split.
  - cbn [for_of fold_left]. unfold bind at 1. cbn zeta.
    unfold bind at 1, Date_now at 1.
    assert (Hnow : now w = current).
    { unfold now. rewrite <- (Hclock 0%nat) by (cbn; lia). f_equal. lia. }
    rewrite Hnow.
    assert (Hnext : forall w1, clock w1 = clock w -> ticks w1 = S (ticks w) ->
              forall i, (i < List.length E)%nat -> clock w1 (ticks w1 + i)%nat = current).
    { intros w1 Hc Ht i Hi. rewrite Hc, Ht.
      rewrite <- (Hclock (S i)) by (cbn; lia). f_equal. lia. }
    assert (Hstep : forall w1, clock w1 = clock w -> ticks w1 = S (ticks w) ->
              forall m1, tokens w1 = m1 -> transactions w1 = transactions w ->
              file w1 = file w -> writes w1 = writes w ->
              exists w',
                for_of E
                  (fun kv =>
                     let key := fst kv in
                     let value := snd kv in
                     let expiresAt := Date_parse (SerializedTokenData.expiresAt value) in
                     current <- Date_now ;;
                     match expiresAt with
                     | Some e =>
                         if current <? e
                         then modify (fun w' =>
                                with_tokens
                                  (JsMap.set key
                                     (TokenData.mk (SerializedTokenData.accessToken value)
                                                   (SerializedTokenData.refreshToken value) e)
                                     (tokens w')) w')
                         else ret tt
                     | None => ret tt
                     end) w1 = (Return tt, w') /\
                tokens w' = fold_left (load_entry Date_parse current) E m1 /\
                transactions w' = transactions w /\ file w' = file w /\
                writes w' = writes w).
    { intros w1 Hc Ht m1 Hm1 Htx1 Hf1 Hw1.
      destruct (IH w1 (Hnext w1 Hc Ht)) as [w' [Hrun [Htok [Htx [Hf Hw]]]]].
      exists w'. rewrite Hrun. repeat split; congruence. }
    unfold load_entry at 2.
    destruct (Date_parse (SerializedTokenData.expiresAt (snd kv))) as [e|].
    + destruct (current <? e).
      * unfold modify at 1. apply Hstep; reflexivity.
      * unfold ret at 1. apply Hstep; reflexivity.
    + unfold ret at 1. apply Hstep; reflexivity.
Qed.

(** Loading what was serialized from [l], when the parser reads back
    every expiry written: the records of [l] that are still valid are
    appended, unchanged and in order. *)
Lemma load_serialized Date_parse current l acc :
  (forall k r, In (k, r) l ->
     Date_parse (JsDate.toISOString (TokenData.expiresAt r)) = Some (TokenData.expiresAt r)) ->
  NoDup (JsMap.keys acc ++ JsMap.keys l) ->
  fold_left (load_entry Date_parse current) (map serialize_entry l) acc
  = acc ++ filter (live current) l.
Proof.
  revert acc. induction l as [|[k r] l IH]; intros acc Hparse Hnd; cbn [map fold_left filter].
  - now rewrite app_nil_r.
  - unfold load_entry at 2. cbn [serialize_entry serialize fst snd
      SerializedTokenData.expiresAt SerializedTokenData.accessToken
      SerializedTokenData.refreshToken].
    rewrite (Hparse k r) by (now left).
    change (live current (k, r)) with (current <? TokenData.expiresAt r).
    assert (Hrest : forall k' r', In (k', r') l ->
              Date_parse (JsDate.toISOString (TokenData.expiresAt r'))
              = Some (TokenData.expiresAt r')).
    { intros k' r' Hin. apply (Hparse k' r'). now right. }
    cbn in Hnd.
    destruct (current <? TokenData.expiresAt r).
    + replace (TokenData.mk (TokenData.accessToken r) (TokenData.refreshToken r)
                            (TokenData.expiresAt r)) with r by (now destruct r).
      rewrite (JsMapFacts.keys_set_new k r acc) by (eapply not_in_keys_app; eauto).
      rewrite IH by (auto; now apply NoDup_shift).
      rewrite <- app_assoc. reflexivity.
    + apply IH; auto.
      apply NoDup_remove_1 in Hnd. exact Hnd.
Qed.

(** Saving a store and constructing a proxy from the saved file, for
    any date parser that reads back the expiry strings [toISOString] wrote
    for this store, with the load running at time [current]. *)
Lemma load_saved_store
    (Date_parse : string -> option JsDate.t) (w w' : World) (current : Z) :
  JsMap.wf (tokens w) ->
  JsMap.get "__proto__" (tokens w) = None ->
  write_fails w (writes w) = false ->
  (forall k r, JsMap.get k (tokens w) = Some r ->
     Date_parse (JsDate.toISOString (TokenData.expiresAt r)) = Some (TokenData.expiresAt r)) ->
  file w' = file (snd (saveTokensToDisk w)) ->
  (forall i, (i < JsMap.size (tokens w))%nat -> clock w' (ticks w' + i)%nat = current) ->
  exists w'',
    constructor Date_parse w' = (Return tt, w'') /\
    (forall k, JsMap.get k (tokens w'') =
               match JsMap.get k (tokens w) with
               | Some r => if current <? TokenData.expiresAt r then Some r else None
               | None => None
               end) /\
    ((forall k r, JsMap.get k (tokens w) = Some r -> current < TokenData.expiresAt r) ->
     forall k, JsMap.get k (tokens w'') = JsMap.get k (tokens w)).
Proof.
  intros Hwf Hproto Hwrite Hparse Hfile Hclock.
  rewrite saveTokensToDisk_run in Hfile. rewrite Hwrite in Hfile. cbn in Hfile.
  rewrite toStore_map in Hfile by assumption.
  set (saved := JsObject.entries (map serialize_entry (tokens w))) in *.
  (* the entries read back are the serialized records of a permutation of the map *)
  assert (Hperm : Permutation (JsObject.entries saved) (map serialize_entry (tokens w))).
  { etransitivity; apply JsObjectFacts.entries_perm. }
  destruct (Permutation_map_inv _ _ Hperm) as [m' [HE Hm']].
  assert (Hwf' : JsMap.wf m').
  { unfold JsMap.wf, JsMap.keys in *. eapply Permutation_NoDup; [|exact Hwf].
    now apply Permutation_map. }
  unfold constructor. unfold bind at 1, modify at 1.
  unfold loadTokensFromDisk.
  cbn [file with_tokens with_transactions]. rewrite Hfile.
  match goal with |- context [for_of _ ?body ?w0] =>
    destruct (load_loop Date_parse current (JsObject.entries saved) w0)
      as [w'' [Hrun [Htok _]]]
  end.
  { intros i Hi. cbn [clock ticks with_tokens with_transactions].
    apply Hclock. unfold JsMap.size.
    rewrite (Permutation_length Hperm), length_map in Hi. exact Hi. }
  exists w''. split; [exact Hrun|].
  cbn [tokens with_tokens] in Htok. rewrite HE in Htok.
  rewrite load_serialized in Htok.
  2:{ intros k r Hin. apply (Hparse k r). apply JsMapFacts.In_get; [assumption|].
      eapply Permutation_in; [apply Permutation_sym; exact Hm'|exact Hin]. }
  2:{ exact Hwf'. }
  cbn [app JsMap.empty] in Htok.
  assert (Hget : forall k, JsMap.get k (tokens w'') =
               match JsMap.get k (tokens w) with
               | Some r => if current <? TokenData.expiresAt r then Some r else None
               | None => None
               end).
  { intros k. rewrite Htok, JsMapFacts.get_filter by assumption.
    rewrite <- (JsMapFacts.get_perm k _ _ Hwf Hm'). reflexivity. }
  split; [exact Hget|].
  intros Hlive k. rewrite Hget.
  destruct (JsMap.get k (tokens w)) as [r|] eqn:E; [|reflexivity].
  specialize (Hlive k r E). apply Z.ltb_lt in Hlive. now rewrite Hlive.
Qed.

(** What a successful save leaves in the token file: under every key but
    "__proto__" the serialized record the store holds there, and nothing
    else; a record the store holds under "__proto__" is not written. *)
Theorem saved_snapshot (w : World) :
  JsMap.wf (tokens w) ->
  write_fails w (writes w) = false ->
  exists stored,
    file (snd (saveTokensToDisk w)) = Snapshot stored /\
    JsMap.wf stored /\
    forall k,
      JsMap.get k stored =
      if String.eqb k "__proto__" then None
      else option_map serialize (JsMap.get k (tokens w)).
Proof.
  intros Hwf Hwrite. rewrite saveTokensToDisk_run, Hwrite. cbn [snd file with_write].
  eexists. split; [reflexivity|].
  rewrite toStore_delete by assumption.
  set (kept := map serialize_entry (JsMap.delete "__proto__" (tokens w))).
  assert (Hkept : JsMap.wf kept).
  { unfold JsMap.wf, kept. rewrite keys_serialized. now apply JsMapFacts.wf_delete. }
  assert (Hperm : Permutation kept (JsObject.entries kept))
    by apply Permutation_sym, JsObjectFacts.entries_perm.
  split.
  - unfold JsMap.wf, JsMap.keys in *. eapply Permutation_NoDup; [|exact Hkept].
    now apply Permutation_map.
  - intros k. rewrite <- (JsMapFacts.get_perm k _ _ Hkept Hperm).
    unfold kept. rewrite get_serialized.
    destruct (String.eqb_spec k "__proto__") as [->|Hne].
    + now rewrite JsMapFacts.get_delete_same.
    + now rewrite JsMapFacts.get_delete_other.
Qed.

Lemma saved_snapshot_witness :
  JsMap.get "__proto__" (tokens proto_world) = Some live_record /\
  exists stored,
    file (snd (saveTokensToDisk proto_world)) = Snapshot stored /\
    JsMap.wf stored /\
    forall k,
      JsMap.get k stored =
      if String.eqb k "__proto__" then None
      else option_map serialize (JsMap.get k (tokens proto_world)).
Proof.
  split; [reflexivity|].
  apply (saved_snapshot proto_world).
  - distinct_keys.
  - reflexivity.
Defined.

(** The expiry survives the file format: the string [serialize] writes
    for a record's [expiresAt], a time value a [Date] can hold, reads back
    as that time value. *)
Theorem serialized_expiry_reads_back (r : TokenData.t) :
  JsDate.in_range (TokenData.expiresAt r) = true ->
  JsDate.parse_iso (SerializedTokenData.expiresAt (serialize r))
    = Some (TokenData.expiresAt r) /\
  SerializedTokenData.accessToken (serialize r) = TokenData.accessToken r /\
  SerializedTokenData.refreshToken (serialize r) = TokenData.refreshToken r.
Proof.
  intros Hrange. unfold serialize. cbn [SerializedTokenData.expiresAt
    SerializedTokenData.accessToken SerializedTokenData.refreshToken].
  split; [|split; reflexivity].
  now apply JsDateFacts.parse_iso_toISOString.
Qed.

Lemma serialized_expiry_reads_back_witness :
  JsDate.parse_iso (SerializedTokenData.expiresAt (serialize live_record))
    = Some 1700000120000 /\
  SerializedTokenData.accessToken (serialize live_record) = "U1" /\
  SerializedTokenData.refreshToken (serialize live_record) = None.
Proof.
  apply (serialized_expiry_reads_back live_record). reflexivity.
Defined.

(** C5: persistence round-trips. Let the store be saved (the write
    succeeding) and a proxy be constructed later from the saved file, its
    load running at time [current]; every stored [Date] holds a time value
    (within the range of TimeClip), [Date.parse] reads the ISO 8601 text
    that [toISOString] writes, and no record is filed under the key
    "__proto__", which the object written to the file cannot hold (no
    minted key is that one). Then the loaded store holds, under each key,
    exactly the record the saved store held there if that record's expiry
    is after [current], and nothing otherwise: the non-expired subset. When
    every saved entry is unexpired at [current], the loaded store is
    equivalent to the saved one: the same keys with the same accessToken,
    refreshToken and expiresAt. *)
Theorem persistence_round_trip (w w' : World) (current : Z) :
  JsMap.wf (tokens w) ->
  (forall k r, JsMap.get k (tokens w) = Some r ->
     JsDate.in_range (TokenData.expiresAt r) = true) ->
  JsMap.get "__proto__" (tokens w) = None ->
  write_fails w (writes w) = false ->
  file w' = file (snd (saveTokensToDisk w)) ->
  (forall i, (i < JsMap.size (tokens w))%nat -> clock w' (ticks w' + i)%nat = current) ->
  exists w'',
    constructor JsDate.parse_iso w' = (Return tt, w'') /\
    (forall k, JsMap.get k (tokens w'') =
               match JsMap.get k (tokens w) with
               | Some r => if current <? TokenData.expiresAt r then Some r else None
               | None => None
               end) /\
    ((forall k r, JsMap.get k (tokens w) = Some r -> current < TokenData.expiresAt r) ->
     forall k, JsMap.get k (tokens w'') = JsMap.get k (tokens w)).
Proof.
  intros Hwf Hrange Hproto Hwrite Hfile Hclock.
  apply (load_saved_store JsDate.parse_iso w w' current); try assumption.
  intros k r Hget. apply JsDateFacts.parse_iso_toISOString.
  exact (Hrange k r Hget).
Qed.

Lemma persistence_round_trip_witness :
  exists w'',
    constructor JsDate.parse_iso (snd (saveTokensToDisk demo_world)) = (Return tt, w'') /\
    (forall k, JsMap.get k (tokens w'') =
               match JsMap.get k (tokens demo_world) with
               | Some r => if 1700000000000 <? TokenData.expiresAt r then Some r else None
               | None => None
               end) /\
    ((forall k r, JsMap.get k (tokens demo_world) = Some r ->
                  1700000000000 < TokenData.expiresAt r) ->
     forall k, JsMap.get k (tokens w'') = JsMap.get k (tokens demo_world)).
Proof.
  apply (persistence_round_trip demo_world
           (snd (saveTokensToDisk demo_world)) 1700000000000).
  - distinct_keys.
  - intros k r. cbn.
    destruct (String.eqb k demo_code).
    + intros [= <-]. reflexivity.
    + destruct (String.eqb k "ffeeddccbbaa99887766554433221100").
      * intros [= <-]. reflexivity.
      * discriminate.
  - reflexivity.
  - reflexivity.
  - reflexivity.
  - intros i _. reflexivity.
Defined.

(* ================================================================== *)
(** ** The class invariant *)
(* ================================================================== *)

Lemma preserves_ret {A} (a : A) : preserves_wf (ret a).
Proof. intros w H. exact H. Qed.

Lemma preserves_throw {A} e : preserves_wf (@throw A e).
Proof. intros w H. exact H. Qed.

Lemma preserves_gets {A} (f : World -> A) : preserves_wf (gets f).
Proof. intros w H. exact H. Qed.

Lemma preserves_bind {A B} (m : M A) (k : A -> M B) :
  preserves_wf m -> (forall a, preserves_wf (k a)) -> preserves_wf (bind m k).
Proof.
  intros Hm Hk w H. unfold bind. specialize (Hm w H).
  destruct (m w) as [[a|e] w']; cbn in *; [apply Hk|]; assumption.
Qed.

Lemma preserves_modify (f : World -> World) :
  (forall w, wf_world w -> wf_world (f w)) -> preserves_wf (modify f).
Proof. intros Hf w H. apply Hf, H. Qed.

Lemma preserves_Date_now : preserves_wf Date_now.
Proof. intros w H. exact H. Qed.

Lemma preserves_randomBytes n : preserves_wf (randomBytes n).
Proof. intros w H. exact H. Qed.

Lemma preserves_for_of {A} (xs : list A) (body : A -> M unit) :
  (forall x, preserves_wf (body x)) -> preserves_wf (for_of xs body).
Proof.
  intros Hb. induction xs as [|x xs IH]; cbn [for_of].
  - apply preserves_ret.
  - apply preserves_bind; auto.
Qed.

Lemma preserves_for_of_acc {A S} (xs : list A) (body : A -> S -> M S) :
  (forall x s, preserves_wf (body x s)) -> forall s, preserves_wf (for_of_acc xs s body).
Proof.
  intros Hb. induction xs as [|x xs IH]; intros s; cbn [for_of_acc].
  - apply preserves_ret.
  - apply preserves_bind; auto.
Qed.

Lemma wf_set_token k r w : wf_world w -> wf_world (with_tokens (JsMap.set k r (tokens w)) w).
Proof. intros [Htx Htok]. split; [exact Htx|]. now apply JsMapFacts.wf_set. Qed.

Lemma wf_delete_token k w : wf_world w -> wf_world (with_tokens (JsMap.delete k (tokens w)) w).
Proof. intros [Htx Htok]. split; [exact Htx|]. now apply JsMapFacts.wf_delete. Qed.

Lemma wf_set_transaction k t w :
  wf_world w -> wf_world (with_transactions (JsMap.set k t (transactions w)) w).
Proof. intros [Htx Htok]. split; [|exact Htok]. now apply JsMapFacts.wf_set. Qed.

Lemma wf_delete_transaction k w :
  wf_world w -> wf_world (with_transactions (JsMap.delete k (transactions w)) w).
Proof. intros [Htx Htok]. split; [|exact Htok]. now apply JsMapFacts.wf_delete. Qed.

Ltac keeps_wf :=
  repeat first
    [ apply preserves_ret | apply preserves_throw | apply preserves_gets
    | apply preserves_Date_now | apply preserves_randomBytes
    | apply preserves_for_of; intros | apply preserves_for_of_acc; intros
    | apply preserves_bind; [|intros]
    | apply preserves_modify; intros;
      first [ now apply wf_set_token | now apply wf_delete_token
            | now apply wf_set_transaction | now apply wf_delete_transaction ]
    | match goal with
      | |- preserves_wf (if ?b then _ else _) => destruct b
      | |- preserves_wf (match ?x with _ => _ end) => destruct x
      end ].

Lemma saveTokensToDisk_preserves : preserves_wf saveTokensToDisk.
Proof. intros w H. exact H. Qed.

Lemma generateId_preserves : preserves_wf generateId.
Proof. unfold generateId. keeps_wf. Qed.

Lemma generatePKCE_preserves : preserves_wf generatePKCE.
Proof. unfold generatePKCE. keeps_wf. Qed.

Lemma loadTokensFromDisk_preserves Date_parse : preserves_wf (loadTokensFromDisk Date_parse).
Proof.
  intros w H. unfold loadTokensFromDisk.
  destruct (file w); try exact H.
  revert w H. change (preserves_wf
    (for_of (JsObject.entries stored)
       (fun kv =>
          current <- Date_now ;;
          match Date_parse (SerializedTokenData.expiresAt (snd kv)) with
          | Some e =>
              if current <? e
              then modify (fun w' =>
                     with_tokens
                       (JsMap.set (fst kv)
                          (TokenData.mk (SerializedTokenData.accessToken (snd kv))
                             (SerializedTokenData.refreshToken (snd kv)) e)
                          (tokens w')) w')
              else ret tt
          | None => ret tt
          end))).
  keeps_wf.
Qed.

Lemma constructor_wf Date_parse w : wf_world (snd (constructor Date_parse w)).
Proof.
  unfold constructor, bind, modify.
  apply (loadTokensFromDisk_preserves Date_parse). split; constructor.
Qed.

Lemma authorize_preserves config client_id redirect_uri response_type state scope :
  preserves_wf (authorize config client_id redirect_uri response_type state scope).
Proof.
  pose proof generatePKCE_preserves. pose proof generateId_preserves.
  unfold authorize. keeps_wf; auto.
Qed.

Lemma handleCallback_preserves config fetch request :
  preserves_wf (handleCallback config fetch request).
Proof.
  pose proof generateId_preserves. pose proof saveTokensToDisk_preserves.
  unfold handleCallback. keeps_wf; auto.
Qed.

Lemma exchangeAuthorizationCode_preserves code :
  preserves_wf (exchangeAuthorizationCode code).
Proof.
  pose proof generateId_preserves. pose proof saveTokensToDisk_preserves.
  unfold exchangeAuthorizationCode. keeps_wf; auto.
Qed.

Lemma loadUpstreamTokens_preserves proxyToken :
  preserves_wf (loadUpstreamTokens proxyToken).
Proof.
  pose proof saveTokensToDisk_preserves.
  unfold loadUpstreamTokens. keeps_wf; auto.
Qed.

Lemma startCleanup_tick_preserves : preserves_wf startCleanup_tick.
Proof.
  pose proof saveTokensToDisk_preserves.
  unfold startCleanup_tick. keeps_wf; auto.
Qed.

(** Every method of the class keeps the invariant that each map holds
    every key once, and the constructor establishes it. *)
Theorem class_invariant
    (config : Config.t) (fetch : FetchRequest -> FetchResponse)
    (Date_parse : string -> option JsDate.t) :
  (forall w, wf_world (snd (constructor Date_parse w))) /\
  (forall client_id redirect_uri response_type state scope,
     preserves_wf (authorize config client_id redirect_uri response_type state scope)) /\
  (forall request, preserves_wf (handleCallback config fetch request)) /\
  (forall code, preserves_wf (exchangeAuthorizationCode code)) /\
  (forall refresh_token, preserves_wf (exchangeRefreshToken refresh_token)) /\
  (forall proxyToken, preserves_wf (loadUpstreamTokens proxyToken)) /\
  preserves_wf getFirstValidToken /\
  preserves_wf startCleanup_tick /\
  preserves_wf destroy.
Proof.
  split; [apply constructor_wf|].
  split; [intros; apply authorize_preserves|].
  split; [intros; apply handleCallback_preserves|].
  split; [intros; apply exchangeAuthorizationCode_preserves|].
  split; [intros; unfold exchangeRefreshToken; apply preserves_throw|].
  split; [intros; apply loadUpstreamTokens_preserves|].
  split; [unfold getFirstValidToken; keeps_wf|].
  split; [apply startCleanup_tick_preserves|].
  apply saveTokensToDisk_preserves.
Qed.

(* ================================================================== *)
(** ** The scenario of the specification *)
(* ================================================================== *)

(** The scenario of the specification, on a proxy that has just started
    and a clock that stands still: Authorize, the Callback with the
    upstream answering access_token U1 and expires_in 120, the exchange of
    the proxy code, and a second exchange of the same code. *)
Example end_to_end_scenario :
  let r1 := authorize demo_config "abc" "https://client/cb" "code" (Some "xyz") None
              fresh_world in
  let state := id_after_pkce fresh_world in
  let r2 := handleCallback demo_config upstream_ok
              (mkRequest [("code", "upstreamcode123"); ("state", state)]) (snd r1) in
  let proxyCode := next_id (snd r1) in
  let r3 := exchangeAuthorizationCode (Some proxyCode) (snd r2) in
  let r4 := exchangeAuthorizationCode (Some proxyCode) (snd r3) in
  (exists location,
     fst r1 = Return (RedirectResponse location) /\
     JsMap.get "state" (searchParams location) = Some state /\
     JsMap.get "code_challenge_method" (searchParams location) = Some "S256" /\
     JsMap.get state (transactions (snd r1)) <> None) /\
  fst r2 = Return (RedirectResponse
                     (mkUrl "https://client/cb" [("code", proxyCode); ("state", "xyz")])) /\
  JsMap.get state (transactions (snd r2)) = None /\
  fst r3 = Return (mkTokenResponse (next_id (snd r2)) "Bearer" 120 None) /\
  proxyCode <> next_id (snd r2) /\
  fst r4 = Throw invalid_grant_code.
Proof.
  cbn zeta. split; [|split; [|split; [|split; [|split]]]].
  - eexists. split; [reflexivity|]. split; [reflexivity|]. split; [reflexivity|].
    vm_compute. discriminate.
  - vm_compute. reflexivity.
  - vm_compute. reflexivity.
  - vm_compute. reflexivity.
  - vm_compute. discriminate.
  - vm_compute. reflexivity.
Qed.

(* ================================================================== *)
(** ** Authentication of a request (server.ts) *)
(* ================================================================== *)

Lemma startsWith_inv p : forall s,
  startsWith p s = true -> s = (p ++ slice (String.length p) s)%string.
Proof.
  unfold startsWith. induction p as [|c p IH]; intros s H.
  - reflexivity.
  - destruct s as [|c' s]; [discriminate|]. cbn in H.
    destruct (Ascii.ascii_dec c c') as [->|]; [|discriminate].
    cbn. f_equal. now apply IH.
Qed.

Lemma startsWith_app p s : startsWith p (p ++ s) = true.
Proof.
  unfold startsWith. induction p as [|c p IH]; cbn.
  - now destruct s.
  - destruct (Ascii.ascii_dec c c) as [_|Hne]; [exact IH|now elim Hne].
Qed.

Lemma slice_app p s : slice (String.length p) (p ++ s) = s.
Proof. induction p as [|c p IH]; cbn; auto. Qed.

(** [authenticate] on a header that carries a bearer token, in closed form. *)
Lemma authenticate_bearer token w :
  Server.authenticate (Some ("Bearer " ++ token)%string) w =
  match JsMap.get token (tokens w) with
  | None => (Return (Server.Rejected 401 "Unauthorized - Invalid or expired token"), w)
  | Some data =>
      if TokenData.expiresAt data <? now w
      then (Return (Server.Rejected 401 "Unauthorized - Invalid or expired token"),
            snd (saveTokensToDisk
                   (with_tokens (JsMap.delete token (tokens w)) (with_tick w))))
      else (Return (Server.Session (TokenData.accessToken data)
                      (TokenData.refreshToken data)
                      ((TokenData.expiresAt data - clock w (S (ticks w))) / 1000)),
            with_tick (with_tick w))
  end.
Proof.
  unfold Server.authenticate. rewrite startsWith_app.
  change (slice 7 ("Bearer " ++ token)) with (slice (String.length "Bearer ") ("Bearer " ++ token)).
  rewrite slice_app. cbn [negb]. unfold try_catch, loadUpstreamTokens. run_method.
  destruct (JsMap.get token (tokens w)) as [data|]; [|reflexivity].
  cbn. destruct (TokenData.expiresAt data <? now w); reflexivity.
Qed.

Lemma authenticate_not_bearer authorization w :
  (forall token, authorization <> Some ("Bearer " ++ token)%string) ->
  Server.authenticate authorization w =
  (Return (Server.Rejected 401 "Unauthorized - Bearer token required"), w).
Proof.
  intros H. unfold Server.authenticate.
  destruct authorization as [h|]; [|reflexivity].
  destruct (startsWith "Bearer " h) eqn:E; [|reflexivity].
  apply startsWith_inv in E. elim (H (slice 7 h)). now f_equal.
Qed.

(** [authenticate]: a request whose Authorization header is missing or is
    not "Bearer " followed by a token is refused with 401 "Bearer token
    required" and nothing changes. For a bearer token, an unknown token
    is refused with 401 "Invalid or expired token" and nothing changes; a
    token whose record expired before the current time is refused the same
    way, deleted and the store saved; otherwise the session carries the
    upstream access and refresh tokens, and the seconds left at a second
    clock reading, rounded down and not clamped. *)
Theorem authenticate_result (authorization : option string) (w : World) :
  ((forall token, authorization <> Some ("Bearer " ++ token)%string) ->
   Server.authenticate authorization w =
   (Return (Server.Rejected 401 "Unauthorized - Bearer token required"), w)) /\
  (forall token, authorization = Some ("Bearer " ++ token)%string ->
   match JsMap.get token (tokens w) with
   | None =>
       Server.authenticate authorization w =
       (Return (Server.Rejected 401 "Unauthorized - Invalid or expired token"), w)
   | Some data =>
       if TokenData.expiresAt data <? now w
       then exists w',
              Server.authenticate authorization w =
              (Return (Server.Rejected 401 "Unauthorized - Invalid or expired token"), w') /\
              tokens w' = JsMap.delete token (tokens w) /\
              JsMap.get token (tokens w') = None /\
              transactions w' = transactions w /\
              writes w' = S (writes w)
       else Server.authenticate authorization w =
            (Return (Server.Session (TokenData.accessToken data)
                       (TokenData.refreshToken data)
                       ((TokenData.expiresAt data - clock w (S (ticks w))) / 1000)),
             with_tick (with_tick w))
   end).
Proof.
  split.
  - apply authenticate_not_bearer.
  - intros token ->. rewrite authenticate_bearer.
    destruct (JsMap.get token (tokens w)) as [data|]; [|reflexivity].
    destruct (TokenData.expiresAt data <? now w); [|reflexivity].
    eexists. split; [reflexivity|]. cbn.
    repeat split. apply JsMapFacts.get_delete_same.
Qed.

(* ================================================================== *)
(** ** The flow as a whole *)
(* ================================================================== *)

Lemma truthy_or_else state d : truthy state = true -> Some (or_else state d) = state.
Proof.
  destruct state as [s|]; [|discriminate]. cbn.
  now destruct (s =? "")%string.
Qed.

Ltac project_world :=
  cbn [transactions tokens file writes write_fails write_tears clock ticks entropy drawn now
       with_transactions with_tokens with_tick with_drawn with_write
       saveTokensToDisk snd fst].

(** After a successful Callback (its client callback a text that
    [new URL] accepts, the lifetime the upstream grants ending at a time a
    [Date] can hold), the proxy code handed to the client is accepted by
    [authenticate] as a bearer token, without having been exchanged: codes
    and access tokens share one store. The session it yields carries the
    upstream tokens, and the code stays in the store. *)
Theorem proxy_code_is_bearer_token
    (config : Config.t) (fetch : FetchRequest -> FetchResponse)
    (request : Request) (w : World) (state code : string)
    (tx : PKCETransaction.t)
    (upstream_access : string) (upstream_refresh : option string)
    (upstream_expires_in : option Z) :
  searchParams_get "state" request = Some state -> state <> "" ->
  searchParams_get "code" request = Some code -> code <> "" ->
  JsMap.get state (transactions w) = Some tx ->
  now w <= PKCETransaction.expiresAt tx ->
  plain_url (PKCETransaction.clientCallbackUrl tx) = true ->
  fetch (token_request config code tx)
    = Ok upstream_access upstream_refresh upstream_expires_in ->
  JsDate.in_range
    (clock w (1 + ticks w) + expires_in_or_default upstream_expires_in * 1000) = true ->
  clock w (2 + ticks w)
    <= clock w (1 + ticks w) + expires_in_or_default upstream_expires_in * 1000 ->
  exists w1 proxyCode w2,
    handleCallback config fetch request w =
      (Return (RedirectResponse
                 (mkUrl (PKCETransaction.clientCallbackUrl tx)
                        [("code", proxyCode);
                         ("state", PKCETransaction.clientState tx)])), w1) /\
    Server.authenticate (Some ("Bearer " ++ proxyCode)%string) w1 =
      (Return (Server.Session upstream_access upstream_refresh
                 ((clock w (1 + ticks w) + expires_in_or_default upstream_expires_in * 1000
                   - clock w (3 + ticks w)) / 1000)), w2) /\
    tokens w2 = tokens w1 /\
    JsMap.get proxyCode (tokens w2) =
      Some (TokenData.mk upstream_access upstream_refresh
              (clock w (1 + ticks w) + expires_in_or_default upstream_expires_in * 1000)).
Proof.
  intros Hs Hs' Hc Hc' Hget Hlive Hurl Hfetch Hrange Hvalid.
  rewrite (handleCallback_exchanged config fetch request w state code tx
             upstream_access upstream_refresh upstream_expires_in) by assumption.
  eexists. exists (next_id w). eexists. split; [reflexivity|].
  rewrite authenticate_bearer. project_world.
  rewrite JsMapFacts.get_set_same.
  cbn [TokenData.expiresAt TokenData.accessToken TokenData.refreshToken].
  cbn [Nat.add] in Hvalid. apply Z.ltb_ge in Hvalid. rewrite Hvalid.
  split; [reflexivity|]. project_world. split; [reflexivity|].
  apply JsMapFacts.get_set_same.
Qed.

Lemma proxy_code_is_bearer_token_witness :
  exists w1 proxyCode w2,
    handleCallback demo_config upstream_ok live_callback demo_world =
      (Return (RedirectResponse
                 (mkUrl "https://client.example/cb"
                        [("code", proxyCode); ("state", "s2")])), w1) /\
    Server.authenticate (Some ("Bearer " ++ proxyCode)%string) w1 =
      (Return (Server.Session "U1" None 120), w2) /\
    tokens w2 = tokens w1 /\
    JsMap.get proxyCode (tokens w2) = Some (TokenData.mk "U1" None 1700000120000).
Proof.
  apply (proxy_code_is_bearer_token demo_config upstream_ok live_callback demo_world
           live_state "upstreamcode123" live_transaction "U1" None (Some 120)).
  - reflexivity.
  - discriminate.
  - reflexivity.
  - discriminate.
  - reflexivity.
  - vm_compute. discriminate.
  - reflexivity.
  - reflexivity.
  - reflexivity.
  - vm_compute. discriminate.
Defined.

(** The access token that [exchangeAuthorizationCode] issues for a record
    still unexpired at the next clock reading authenticates, with the
    record's upstream tokens; the code it was exchanged for is no longer
    accepted (unless the entropy source repeated it as the new token). *)
Theorem issued_token_authenticates (w : World) (k : string) (r : TokenData.t) :
  k <> "" ->
  JsMap.get k (tokens w) = Some r ->
  clock w (1 + ticks w) <= TokenData.expiresAt r ->
  exists response w1 w2,
    exchangeAuthorizationCode (Some k) w = (Return response, w1) /\
    Server.authenticate (Some ("Bearer " ++ access_token response)%string) w1 =
      (Return (Server.Session (TokenData.accessToken r) (TokenData.refreshToken r)
                 ((TokenData.expiresAt r - clock w (2 + ticks w)) / 1000)), w2) /\
    tokens w2 = tokens w1 /\
    (access_token response <> k ->
     Server.authenticate (Some ("Bearer " ++ k)%string) w1 =
       (Return (Server.Rejected 401 "Unauthorized - Invalid or expired token"), w1)).
Proof.
  intros Hk Hget Hvalid. rewrite (exchange_hit k r w Hk Hget). cbn zeta.
  eexists. eexists. eexists. split; [reflexivity|].
  cbn [access_token]. rewrite !authenticate_bearer. project_world.
  rewrite JsMapFacts.get_set_same.
  cbn [Nat.add] in Hvalid. apply Z.ltb_ge in Hvalid. rewrite Hvalid.
  split; [reflexivity|]. project_world. split; [reflexivity|].
  intros Hne. rewrite JsMapFacts.get_set_other by (intro E; apply Hne; now symmetry).
  now rewrite JsMapFacts.get_delete_same.
Qed.

Lemma issued_token_authenticates_witness :
  exists response w1 w2,
    exchangeAuthorizationCode (Some demo_code) demo_world = (Return response, w1) /\
    Server.authenticate (Some ("Bearer " ++ access_token response)%string) w1 =
      (Return (Server.Session "U1" None 120), w2) /\
    tokens w2 = tokens w1 /\
    (access_token response <> demo_code ->
     Server.authenticate (Some ("Bearer " ++ demo_code)%string) w1 =
       (Return (Server.Rejected 401 "Unauthorized - Invalid or expired token"), w1)).
Proof.
  apply (issued_token_authenticates demo_world demo_code live_record).
  - discriminate.
  - reflexivity.
  - vm_compute. discriminate.
Defined.

(** A code whose record has already expired is still exchanged, and the
    response advertises 3600 seconds; but the access token issued is
    refused with 401 at its first use, and is deleted then. *)
Theorem expired_code_yields_dead_token (w : World) (k : string) (r : TokenData.t) :
  k <> "" ->
  JsMap.get k (tokens w) = Some r ->
  TokenData.expiresAt r <= clock w (ticks w) ->
  TokenData.expiresAt r < clock w (1 + ticks w) ->
  exists response w1 w2,
    exchangeAuthorizationCode (Some k) w = (Return response, w1) /\
    expires_in response = 3600 /\
    Server.authenticate (Some ("Bearer " ++ access_token response)%string) w1 =
      (Return (Server.Rejected 401 "Unauthorized - Invalid or expired token"), w2) /\
    JsMap.get (access_token response) (tokens w2) = None.
Proof.
  intros Hk Hget Hexp Hlater. rewrite (exchange_hit k r w Hk Hget). cbn zeta.
  eexists. eexists. eexists. split; [reflexivity|].
  cbn [access_token expires_in]. split.
  { unfold now.
    assert (H : (TokenData.expiresAt r - clock w (ticks w)) / 1000 <= 0).
    { apply Z.div_le_upper_bound; lia. }
    apply Z.ltb_ge in H. now rewrite H. }
  rewrite authenticate_bearer. project_world.
  rewrite JsMapFacts.get_set_same.
  cbn [Nat.add] in Hlater. apply Z.ltb_lt in Hlater. rewrite Hlater.
  split; [reflexivity|]. project_world. apply JsMapFacts.get_delete_same.
Qed.

Lemma expired_code_yields_dead_token_witness :
  exists response w1 w2,
    exchangeAuthorizationCode (Some demo_code) stale_world = (Return response, w1) /\
    expires_in response = 3600 /\
    Server.authenticate (Some ("Bearer " ++ access_token response)%string) w1 =
      (Return (Server.Rejected 401 "Unauthorized - Invalid or expired token"), w2) /\
    JsMap.get (access_token response) (tokens w2) = None.
Proof.
  apply (expired_code_yields_dead_token stale_world demo_code
           (TokenData.mk "U1" None 1699999940000)).
  - discriminate.
  - reflexivity.
  - vm_compute. discriminate.
  - reflexivity.
Defined.

(** The whole flow, from any starting state, for an authorization
    endpoint and a client redirect URI that [new URL] accepts: after
    Authorize, a Callback within ten minutes that carries the state of the
    redirect and to which the upstream grants tokens, with a lifetime that
    ends at a time a [Date] can hold, and the exchange of the proxy code, a
    request with the issued bearer token authenticates as long as the
    upstream's lifetime has not run out, and its session carries the
    upstream's access and refresh tokens. The client gets its own state
    back, or a minted one when it sent none, and the transaction is
    gone. *)
Theorem oauth_flow_authenticates
    (config : Config.t) (fetch : FetchRequest -> FetchResponse)
    (client_id redirect_uri code : string) (state scope : option string)
    (upstream_access : string) (upstream_refresh : option string)
    (upstream_expires_in : option Z) (w : World) :
  plain_url (Config.authorizationEndpoint config) = true ->
  plain_url redirect_uri = true ->
  code <> "" ->
  (forall request,
     fetch request = Ok upstream_access upstream_refresh upstream_expires_in) ->
  JsDate.in_range
    (clock w (3 + ticks w) + expires_in_or_default upstream_expires_in * 1000) = true ->
  clock w (2 + ticks w) <= clock w (1 + ticks w) + 600000 ->
  clock w (5 + ticks w)
    <= clock w (3 + ticks w) + expires_in_or_default upstream_expires_in * 1000 ->
  exists location txid w1 clientState proxyCode w2 response w3 w4,
    authorize config client_id redirect_uri "code" state scope w
      = (Return (RedirectResponse location), w1) /\
    JsMap.get "state" (searchParams location) = Some txid /\
    handleCallback config fetch (mkRequest [("code", code); ("state", txid)]) w1
      = (Return (RedirectResponse
                   (mkUrl redirect_uri [("code", proxyCode); ("state", clientState)])),
         w2) /\
    (truthy state = true -> Some clientState = state) /\
    (truthy state = false -> minted clientState) /\
    exchangeAuthorizationCode (Some proxyCode) w2 = (Return response, w3) /\
    token_type response = "Bearer" /\
    Server.authenticate (Some ("Bearer " ++ access_token response)%string) w3
      = (Return (Server.Session upstream_access upstream_refresh
                   ((clock w (3 + ticks w)
                     + expires_in_or_default upstream_expires_in * 1000
                     - clock w (6 + ticks w)) / 1000)), w4) /\
    JsMap.get txid (transactions w4) = None /\
    JsMap.get (access_token response) (tokens w4)
      = Some (TokenData.mk upstream_access upstream_refresh
                (clock w (3 + ticks w)
                 + expires_in_or_default upstream_expires_in * 1000)).
Proof.
  intros Hendpoint Hredirect Hcode Hfetch Hrange Hin_time Hvalid. cbn [Nat.add] in *.
  destruct (authorize_code config client_id redirect_uri state scope w)
    as (w1 & Hrun & Htx & Htok & _ & _ & _ & _ & Hclock & Hticks & _).
  cbn zeta in Hrun, Htx.
  set (clientState := if truthy state then _ else _) in Hrun, Htx.
  set (tx := PKCETransaction.mk _ _ _ _ _ _ _ _) in Hrun, Htx.
  assert (Hid : id_after_pkce w <> "") by (apply minted_nonempty, next_id_minted).
  assert (Hget : JsMap.get (id_after_pkce w) (transactions w1) = Some tx)
    by (rewrite Htx; apply JsMapFacts.get_set_same).
  assert (Hlive : now w1 <= PKCETransaction.expiresAt tx).
  { unfold now. rewrite Hclock, Hticks. exact Hin_time. }
  pose proof (handleCallback_exchanged config fetch
                (mkRequest [("code", code); ("state", id_after_pkce w)]) w1
                (id_after_pkce w) code tx
                upstream_access upstream_refresh upstream_expires_in
                eq_refl Hid eq_refl Hcode Hget Hlive (Hfetch _)) as Hcb.
  rewrite Hclock, Hticks in Hcb.
  set (record := TokenData.mk upstream_access upstream_refresh _) in Hcb.
  set (w2 := with_transactions _ _) in Hcb.
  assert (Hcode2 : JsMap.get (next_id w1) (tokens w2) = Some record)
    by (unfold w2; project_world; apply JsMapFacts.get_set_same).
  assert (Hproxy : next_id w1 <> "") by (apply minted_nonempty, next_id_minted).
  pose proof (exchange_hit (next_id w1) record w2 Hproxy Hcode2) as Hex.
  cbn zeta in Hex.
  set (w3 := with_tick _) in Hex.
  exists (mkUrl (Config.authorizationEndpoint config)
            [("client_id", Config.clientId config);
             ("redirect_uri", (Config.baseUrl config ++ Config.redirectPath config)%string);
             ("response_type", "code");
             ("scope", String.concat "," (PKCETransaction.scope tx));
             ("state", id_after_pkce w);
             ("code_challenge", PKCETransaction.codeChallenge tx);
             ("code_challenge_method", "S256")]).
  exists (id_after_pkce w), w1, clientState, (next_id w1), w2.
  eexists. exists w3. eexists.
  split; [exact Hrun|]. split; [reflexivity|]. split; [exact Hcb|].
  split; [intros Hstate; unfold clientState; rewrite Hstate;
          now apply truthy_or_else|].
  split; [intros Hstate; unfold clientState; rewrite Hstate;
          apply next_id_minted|].
  split; [exact Hex|]. split; [reflexivity|].
  cbn [access_token]. rewrite authenticate_bearer.
  assert (Htok3 : JsMap.get (next_id w2) (tokens w3) = Some record)
    by (unfold w3; project_world; apply JsMapFacts.get_set_same).
  rewrite Htok3.
  assert (Hnow3 : now w3 = clock w (S (S (S (S (S (ticks w))))))).
  { unfold w3, w2. project_world. now rewrite Hclock, Hticks. }
  assert (Hclock3 : clock w3 (S (ticks w3)) = clock w (S (S (S (S (S (S (ticks w)))))))).
  { unfold w3, w2. project_world. now rewrite Hclock, Hticks. }
  rewrite Hnow3, Hclock3.
  unfold record at 1. cbn [TokenData.expiresAt TokenData.accessToken TokenData.refreshToken].
  apply Z.ltb_ge in Hvalid. rewrite Hvalid.
  split; [reflexivity|]. project_world. split; [|exact Htok3].
  unfold w3, w2. project_world. apply JsMapFacts.get_delete_same.
Qed.

Lemma oauth_flow_authenticates_witness :
  exists location txid w1 clientState proxyCode w2 response w3 w4,
    authorize demo_config "abc" "https://client/cb" "code" (Some "xyz") None fresh_world
      = (Return (RedirectResponse location), w1) /\
    JsMap.get "state" (searchParams location) = Some txid /\
    handleCallback demo_config upstream_ok
      (mkRequest [("code", "upstreamcode123"); ("state", txid)]) w1
      = (Return (RedirectResponse
                   (mkUrl "https://client/cb" [("code", proxyCode); ("state", clientState)])),
         w2) /\
    (truthy (Some "xyz") = true -> Some clientState = Some "xyz") /\
    (truthy (Some "xyz") = false -> minted clientState) /\
    exchangeAuthorizationCode (Some proxyCode) w2 = (Return response, w3) /\
    token_type response = "Bearer" /\
    Server.authenticate (Some ("Bearer " ++ access_token response)%string) w3
      = (Return (Server.Session "U1" None 120), w4) /\
    JsMap.get txid (transactions w4) = None /\
    JsMap.get (access_token response) (tokens w4)
      = Some (TokenData.mk "U1" None 1700000120000).
Proof.
  apply (oauth_flow_authenticates demo_config upstream_ok "abc" "https://client/cb"
           "upstreamcode123" (Some "xyz") None "U1" None (Some 120) fresh_world).
  - reflexivity.
  - reflexivity.
  - discriminate.
  - reflexivity.
  - reflexivity.
  - vm_compute. discriminate.
  - vm_compute. discriminate.
Defined.

(** What the proxy sends upstream is consistent across the two legs, for
    an authorization endpoint that [new URL] accepts: the token request of
    the Callback for a transaction that Authorize created carries the
    client id and the redirect URI of the authorization redirect, and a
    code verifier whose SHA-256, base64url-encoded, is the code challenge
    sent with method S256; it carries no client secret. The Callback
    consults the upstream with this one request only. *)
Theorem upstream_pkce_binding
    (config : Config.t) (client_id redirect_uri code : string)
    (state scope : option string) (w : World) :
  plain_url (Config.authorizationEndpoint config) = true ->
  exists location w1 txid tx,
    authorize config client_id redirect_uri "code" state scope w
      = (Return (RedirectResponse location), w1) /\
    JsMap.get "state" (searchParams location) = Some txid /\
    JsMap.get txid (transactions w1) = Some tx /\
    let sent := token_request config code tx in
    fetch_url sent = Config.tokenEndpoint config /\
    JsMap.get "grant_type" (fetch_body sent) = Some "authorization_code" /\
    JsMap.get "code" (fetch_body sent) = Some code /\
    JsMap.get "client_id" (fetch_body sent)
      = JsMap.get "client_id" (searchParams location) /\
    JsMap.get "redirect_uri" (fetch_body sent)
      = JsMap.get "redirect_uri" (searchParams location) /\
    (exists code_verifier,
       JsMap.get "code_verifier" (fetch_body sent) = Some code_verifier /\
       JsMap.get "code_challenge" (searchParams location)
         = Some (sha256_base64url code_verifier) /\
       code_verifier = Buffer.base64url (next_bytes 32 w)) /\
    JsMap.get "code_challenge_method" (searchParams location) = Some "S256" /\
    JsMap.get "client_secret" (fetch_body sent) = None /\
    (code <> "" ->
     forall fetch,
       handleCallback config fetch (mkRequest [("code", code); ("state", txid)]) w1
       = handleCallback config (fun _ => fetch sent)
           (mkRequest [("code", code); ("state", txid)]) w1).
Proof.
  intros Hendpoint.
  destruct (authorize_code config client_id redirect_uri state scope w)
    as (w1 & Hrun & Htx & _).
  cbn zeta in Hrun, Htx.
  set (tx := PKCETransaction.mk _ _ _ _ _ _ _ _) in Hrun, Htx.
  assert (Hid : id_after_pkce w <> "") by (apply minted_nonempty, next_id_minted).
  assert (Hget : JsMap.get (id_after_pkce w) (transactions w1) = Some tx)
    by (rewrite Htx; apply JsMapFacts.get_set_same).
  eexists. exists w1, (id_after_pkce w), tx.
  split; [exact Hrun|]. split; [reflexivity|]. split; [exact Hget|].
  cbn zeta. split; [reflexivity|]. split; [reflexivity|]. split; [reflexivity|].
  split; [reflexivity|]. split; [reflexivity|].
  split; [eexists; split; [reflexivity|]; split; reflexivity|].
  split; [reflexivity|]. split; [reflexivity|].
  intros Hcode fetch. unfold handleCallback.
  change (searchParams_get "state" (mkRequest [("code", code); ("state", id_after_pkce w)]))
    with (Some (id_after_pkce w)).
  change (searchParams_get "code" (mkRequest [("code", code); ("state", id_after_pkce w)]))
    with (Some code).
  rewrite !truthy_Some, !or_else_Some by assumption.
  run_method. rewrite Hget. reflexivity.
Qed.

Lemma upstream_pkce_binding_witness :
  exists location w1 txid tx,
    authorize demo_config "abc" "https://client/cb" "code" (Some "xyz") None fresh_world
      = (Return (RedirectResponse location), w1) /\
    JsMap.get "state" (searchParams location) = Some txid /\
    JsMap.get txid (transactions w1) = Some tx /\
    fetch_url (token_request demo_config "upstreamcode123" tx)
      = "https://upstream.example/oauth/token" /\
    JsMap.get "grant_type" (fetch_body (token_request demo_config "upstreamcode123" tx))
      = Some "authorization_code" /\
    JsMap.get "code" (fetch_body (token_request demo_config "upstreamcode123" tx))
      = Some "upstreamcode123" /\
    JsMap.get "client_id" (fetch_body (token_request demo_config "upstreamcode123" tx))
      = JsMap.get "client_id" (searchParams location) /\
    JsMap.get "redirect_uri" (fetch_body (token_request demo_config "upstreamcode123" tx))
      = JsMap.get "redirect_uri" (searchParams location) /\
    (exists code_verifier,
       JsMap.get "code_verifier"
         (fetch_body (token_request demo_config "upstreamcode123" tx))
         = Some code_verifier /\
       JsMap.get "code_challenge" (searchParams location)
         = Some (sha256_base64url code_verifier) /\
       code_verifier = Buffer.base64url (next_bytes 32 fresh_world)) /\
    JsMap.get "code_challenge_method" (searchParams location) = Some "S256" /\
    JsMap.get "client_secret"
      (fetch_body (token_request demo_config "upstreamcode123" tx)) = None /\
    ("upstreamcode123" <> "" ->
     forall fetch,
       handleCallback demo_config fetch
         (mkRequest [("code", "upstreamcode123"); ("state", txid)]) w1
       = handleCallback demo_config
           (fun _ => fetch (token_request demo_config "upstreamcode123" tx))
           (mkRequest [("code", "upstreamcode123"); ("state", txid)]) w1).
Proof.
  apply (upstream_pkce_binding demo_config "abc" "https://client/cb" "upstreamcode123"
           (Some "xyz") None fresh_world).
  reflexivity.
Defined.

(* ================================================================== *)
(** ** Sequences of calls: what happens to the token store *)
(* ================================================================== *)

Ltac saved_file :=
  project_world;
  destruct (write_fails _ _); [destruct (write_tears _ _)|]; reflexivity.

Lemma authorize_effect config client_id redirect_uri response_type state scope w :
  let w' := after (authorize config client_id redirect_uri response_type state scope) w in
  same_oracles w w' /\ untouched w w'.
Proof.
  cbn zeta. unfold after.
  destruct (String.eqb_spec response_type "code") as [->|Hne].
  - destruct (authorize_code config client_id redirect_uri state scope w)
      as (w1 & Hrun & _ & Htok & Hfile & Hwr & Hwf & Hwt & Hclock & _ & Hent).
    cbn zeta in Hrun. rewrite Hrun. cbn [snd].
    split; [split; [|split; [|split]]|split; [|split]]; assumption.
  - unfold authorize. apply String.eqb_neq in Hne. rewrite Hne. cbn.
    repeat split.
Qed.

Lemma handleCallback_effect config fetch request w :
  let w' := after (handleCallback config fetch request) w in
  same_oracles w w' /\
  (untouched w w' \/
   exists sent a rf e,
     fetch sent = Ok a rf e /\
     saved_as (JsMap.set (next_id w)
                 (TokenData.mk a rf (clock w (S (ticks w)) + expires_in_or_default e * 1000))
                 (tokens w)) w w').
Proof.
  cbn zeta. unfold after, handleCallback.
  destruct (truthy (searchParams_get "state" request)); cbn [negb];
    [|split; [|left]; repeat split].
  destruct (truthy (searchParams_get "code" request)); cbn [negb];
    [|split; [|left]; repeat split].
  run_method.
  destruct (JsMap.get _ (transactions w)) as [tx|]; [|split; [|left]; repeat split].
  cbn. destruct (PKCETransaction.expiresAt tx <? now w); [split; [|left]; repeat split|].
  destruct (fetch _) as [text|a rf e] eqn:Hfetch; [split; [|left]; repeat split|].
  cbn. split; [repeat split|]. right.
  eexists. exists a, rf, e. split; [exact Hfetch|].
  split; [reflexivity|]. split; [reflexivity|].
  saved_file.
Qed.

Lemma after_callback_effect config fetch request accepted w :
  let w' := after_callback config fetch request accepted w in
  same_oracles w w' /\
  (untouched w w' \/
   exists sent a rf e,
     fetch sent = Ok a rf e /\
     saved_as (JsMap.set (next_id w)
                 (TokenData.mk a rf (clock w (S (ticks w)) + expires_in_or_default e * 1000))
                 (tokens w)) w w').
Proof.
  cbn zeta. pose proof (handleCallback_effect config fetch request w) as H.
  cbn zeta in H. unfold after in H. unfold after_callback.
  destruct (handleCallback config fetch request w) as [[[status body|location]|e] w'];
    cbn [snd] in H; try exact H.
  destruct accepted; exact H.
Qed.

Lemma exchangeAuthorizationCode_effect code w :
  let w' := after (exchangeAuthorizationCode code) w in
  same_oracles w w' /\
  (untouched w w' \/
   exists k r,
     JsMap.get k (tokens w) = Some r /\
     saved_as (JsMap.set (next_id w) r (JsMap.delete k (tokens w))) w w').
Proof.
  cbn zeta. unfold after, exchangeAuthorizationCode.
  destruct (truthy code); cbn [negb]; [|split; [|left]; repeat split].
  run_method.
  destruct (JsMap.get _ (tokens w)) as [r|] eqn:Hget; [|split; [|left]; repeat split].
  cbn. split; [repeat split|]. right.
  eexists. exists r. split; [exact Hget|].
  split; [reflexivity|]. split; [reflexivity|].
  saved_file.
Qed.

Lemma loadUpstreamTokens_effect proxyToken w :
  let w' := after (loadUpstreamTokens proxyToken) w in
  same_oracles w w' /\
  (untouched w w' \/ saved_as (JsMap.delete proxyToken (tokens w)) w w').
Proof.
  cbn zeta. unfold after, loadUpstreamTokens. run_method.
  destruct (JsMap.get _ (tokens w)) as [r|]; [|split; [|left]; repeat split].
  cbn. destruct (TokenData.expiresAt r <? now w); [|split; [|left]; repeat split].
  cbn. split; [repeat split|]. right.
  split; [reflexivity|]. split; [reflexivity|].
  saved_file.
Qed.

Lemma authenticate_effect authorization w :
  let w' := after (Server.authenticate authorization) w in
  same_oracles w w' /\
  (untouched w w' \/
   exists token, saved_as (JsMap.delete token (tokens w)) w w').
Proof.
  cbn zeta. unfold after.
  destruct authorization as [h|]; [|split; [|left]; repeat split].
  destruct (startsWith "Bearer " h) eqn:E.
  - apply startsWith_inv in E. rewrite E, authenticate_bearer.
    destruct (JsMap.get _ (tokens w)) as [r|]; [|split; [|left]; repeat split].
    destruct (TokenData.expiresAt r <? now w); [|split; [|left]; repeat split].
    cbn. split; [repeat split|]. right. eexists.
    split; [reflexivity|]. split; [reflexivity|].
    saved_file.
  - unfold Server.authenticate. rewrite E. split; [|left]; repeat split.
Qed.

Lemma delete_where_none {V} (p : string * V -> bool) l (acc : JsMap.t V) :
  existsb p l = false -> delete_where p l acc = acc.
Proof.
  revert acc. induction l as [|kv l IH]; intros acc H; [reflexivity|].
  cbn in H. apply orb_false_iff in H as [Hp Hl].
  unfold delete_where. cbn [fold_left]. rewrite Hp. now apply IH.
Qed.

(** One sweeper pass, in closed form, on any two maps. *)
Lemma startCleanup_tick_loops w :
  startCleanup_tick w =
  let swept :=
    with_tokens (delete_where (expired_token (now w)) (tokens w) (tokens w))
      (with_transactions
         (delete_where (expired_tx (now w)) (transactions w) (transactions w))
         (with_tick w)) in
  if existsb (expired_token (now w)) (tokens w)
  then saveTokensToDisk swept
  else (Return tt, swept).
Proof.
  unfold startCleanup_tick.
  unfold bind at 1, Date_now at 1.
  unfold bind at 1, gets at 1. cbn [transactions with_tick].
  unfold bind at 1. rewrite sweep_transactions_loop.
  unfold bind at 1, gets at 1. cbn [tokens with_transactions with_tick].
  unfold bind at 1. rewrite sweep_tokens_loop.
  cbn [tokens transactions with_transactions with_tick orb].
  destruct (existsb (expired_token (now w)) (tokens w)); reflexivity.
Qed.

Lemma startCleanup_tick_effect w :
  let w' := after startCleanup_tick w in
  same_oracles w w' /\
  (untouched w w' \/
   saved_as (delete_where (expired_token (now w)) (tokens w) (tokens w)) w w').
Proof.
  cbn zeta. unfold after. rewrite startCleanup_tick_loops. cbn zeta.
  destruct (existsb (expired_token (now w)) (tokens w)) eqn:Ex.
  - split; [repeat split|]. right.
    split; [reflexivity|]. split; [reflexivity|].
    saved_file.
  - split; [repeat split|]. left. cbn [snd].
    split; [|split; reflexivity]. cbn [tokens with_tokens].
    now apply delete_where_none.
Qed.

Lemma records_set k (v : TokenData.t) m r :
  In r (map snd (JsMap.set k v m)) -> r = v \/ In r (map snd m).
Proof.
  induction m as [|[k' v'] m IH]; cbn.
  - intros [H|[]]. now left.
  - destruct (k =? k')%string; cbn.
    + intros [H|H]; [now left|right; now right].
    + intros [H|H]; [right; now left|].
      destruct (IH H) as [E|Hin]; [now left|right; now right].
Qed.

Lemma records_delete k (m : JsMap.t TokenData.t) r :
  In r (map snd (JsMap.delete k m)) -> In r (map snd m).
Proof.
  unfold JsMap.delete. intros H. apply in_map_iff in H as [kv [E Hin]].
  apply filter_In in Hin as [Hin _]. apply in_map_iff. now exists kv.
Qed.

Lemma records_delete_where (p : string * TokenData.t -> bool) l acc r :
  In r (map snd (delete_where p l acc)) -> In r (map snd acc).
Proof.
  revert acc. induction l as [|kv l IH]; intros acc; [trivial|].
  unfold delete_where. cbn [fold_left]. fold (delete_where p).
  intros H. apply IH in H. destruct (p kv); [now apply records_delete in H|exact H].
Qed.

Lemma records_get k r w : JsMap.get k (tokens w) = Some r -> In r (records w).
Proof.
  intros H. apply JsMapFacts.get_In in H.
  unfold records. apply in_map_iff. now exists (k, r).
Qed.

(** What one call does to the token store and its file. *)
Lemma step_effect config c w :
  let w' := step config w c in
  same_oracles w w' /\
  (untouched w w' \/
   exists toks,
     saved_as toks w w' /\
     forall r, In r (map snd toks) -> In r (records w) \/ granted [c] w r).
Proof.
  cbn zeta. destruct c; cbn [step].
  - destruct (authorize_effect config client_id redirect_uri response_type state scope w)
      as [Ho Hu].
    split; [exact Ho|now left].
  - destruct (after_callback_effect config fetch request accepted w)
      as [Ho [Hu|(sent & a & rf & e & Hfetch & Hs)]].
    + split; [exact Ho|now left].
    + split; [exact Ho|]. right. eexists. split; [exact Hs|].
      intros r Hr. apply records_set in Hr as [->|Hr]; [right|now left].
      exists fetch, request, accepted, sent, e, (S (ticks w)).
      split; [now left|]. split; [exact Hfetch|reflexivity].
  - destruct (exchangeAuthorizationCode_effect code w)
      as [Ho [Hu|(k & r0 & Hget & Hs)]].
    + split; [exact Ho|now left].
    + split; [exact Ho|]. right. eexists. split; [exact Hs|].
      intros r Hr. left. apply records_set in Hr as [->|Hr].
      * now apply (records_get k).
      * now apply records_delete in Hr.
  - split; [|left]; repeat split.
  - split; [|left]; repeat split.
  - destruct (loadUpstreamTokens_effect proxyToken w) as [Ho [Hu|Hs]].
    + split; [exact Ho|now left].
    + split; [exact Ho|]. right. eexists. split; [exact Hs|].
      intros r Hr. left. now apply records_delete in Hr.
  - split; [|left]; repeat split.
  - destruct (startCleanup_tick_effect w) as [Ho [Hu|Hs]].
    + split; [exact Ho|now left].
    + split; [exact Ho|]. right. eexists. split; [exact Hs|].
      intros r Hr. left. now apply records_delete_where in Hr.
  - destruct (authenticate_effect authorization w) as [Ho [Hu|[token Hs]]].
    + split; [exact Ho|now left].
    + split; [exact Ho|]. right. eexists. split; [exact Hs|].
      intros r Hr. left. now apply records_delete in Hr.
  - split; [repeat split|]. right. exists (tokens w). split.
    + split; [reflexivity|]. split; [reflexivity|].
      unfold after, destroy. saved_file.
    + intros r Hr. now left.
Qed.

Lemma run_cons config c calls w :
  run config (c :: calls) w = run config calls (step config w c).
Proof. reflexivity. Qed.

Lemma run_oracles config calls : forall w, same_oracles w (run config calls w).
Proof.
  induction calls as [|c calls IH]; intros w; [repeat split|].
  rewrite run_cons. destruct (IH (step config w c)) as (H1 & H2 & H3 & H4).
  destruct (step_effect config c w) as [(G1 & G2 & G3 & G4) _].
  repeat split; congruence.
Qed.

(** The records a sequence of calls leaves were there before or come
    from an answer of the upstream. *)
Lemma run_records config calls : forall w r,
  In r (records (run config calls w)) ->
  In r (records w) \/ granted calls w r.
Proof.
  induction calls as [|c calls IH]; intros w r Hr; [now left|].
  rewrite run_cons in Hr. apply IH in Hr.
  destruct (step_effect config c w) as [(Hclock & _) Heffect].
  destruct Hr as [Hr|Hr].
  - assert (Hstep : In r (records w) \/ granted [c] w r).
    { destruct Heffect as [(Htok & _)|(toks & (Htok & _) & Horigin)].
      - left. unfold records in *. now rewrite <- Htok.
      - apply Horigin. unfold records in Hr. now rewrite <- Htok. }
    destruct Hstep as [H|(fetch & request & ok & sent & e & n & Hin & Hfetch & Hexp)];
      [now left|right].
    exists fetch, request, ok, sent, e, n. split; [|now split].
    destruct Hin as [<-|[]]. now left.
  - right. destruct Hr as (fetch & request & ok & sent & e & n & Hin & Hfetch & Hexp).
    exists fetch, request, ok, sent, e, n. split; [now right|].
    split; [exact Hfetch|]. now rewrite <- Hclock.
Qed.

Lemma granted_in_range calls w r :
  lifetimes_fit calls w -> granted calls w r ->
  JsDate.in_range (TokenData.expiresAt r) = true.
Proof.
  intros Hfit (fetch & request & ok & sent & e & n & Hin & Hfetch & ->).
  exact (Hfit fetch request ok sent _ _ e n Hin Hfetch).
Qed.

Lemma demo_lifetimes_fit : lifetimes_fit demo_calls fresh_world.
Proof.
  intros fetch request ok sent a rf e n Hin Hfetch.
  destruct Hin as [H|[H|[]]]; [discriminate|].
  injection H as <- _ _. injection Hfetch as _ _ <-. reflexivity.
Defined.

(** Whatever sequence of calls reaches the proxy, Callbacks that throw
    at the client's callback included, when the lifetimes the upstream
    names end at times a [Date] can hold: every record in the token store
    afterwards was in the store before, unaltered, or was granted by the
    upstream in answer to one of the Callbacks, and then expires at that
    answer's lifetime after a clock reading, a time a [Date] holds. No
    call invents a record, alters one or extends its expiry. *)
Theorem tokens_only_from_upstream
    (config : Config.t) (calls : list Call) (w : World) (r : TokenData.t) :
  lifetimes_fit calls w ->
  In r (records (run config calls w)) ->
  In r (records w) \/
  (granted calls w r /\ JsDate.in_range (TokenData.expiresAt r) = true).
Proof.
  intros Hfit Hr.
  destruct (run_records config calls w r Hr) as [H|H]; [now left|right].
  split; [exact H|]. now apply (granted_in_range calls w).
Qed.

Lemma tokens_only_from_upstream_witness :
  In (TokenData.mk "U1" None 1700000120000)
     (records (run demo_config demo_calls fresh_world)) /\
  (In (TokenData.mk "U1" None 1700000120000) (records fresh_world) \/
   (granted demo_calls fresh_world (TokenData.mk "U1" None 1700000120000) /\
    JsDate.in_range (TokenData.expiresAt (TokenData.mk "U1" None 1700000120000))
      = true)).
Proof.
  assert (H : In (TokenData.mk "U1" None 1700000120000)
                 (records (run demo_config demo_calls fresh_world)))
    by (vm_compute; left; reflexivity).
  split; [exact H|].
  exact (tokens_only_from_upstream demo_config demo_calls fresh_world _
           demo_lifetimes_fit H).
Defined.

(** On a disk that accepts every write, from a store whose records
    expire at times a [Date] can hold and with lifetimes from the upstream
    that end at such times: after any sequence of calls, Callbacks that
    throw at the client's callback included, the token store and the
    token file are either both as they were, or the file holds exactly
    what [saveTokensToDisk] writes for the store: no change of the store
    is left unsaved. In particular a file in step with the store stays in
    step. No call writes more than once, and every record still expires
    at a time a [Date] can hold. *)
Theorem store_is_saved (config : Config.t) (calls : list Call) (w : World) :
  disk_ok w ->
  valid_dates w ->
  lifetimes_fit calls w ->
  let w' := run config calls w in
  ((tokens w' = tokens w /\ file w' = file w) \/ synced w') /\
  (synced w -> synced w') /\
  (writes w' <= writes w + List.length calls)%nat /\
  valid_dates w'.
Proof.
  intros Hdisk Hdates Hfit. cbn zeta.
  assert (H : ((tokens (run config calls w) = tokens w /\
                file (run config calls w) = file w) \/ synced (run config calls w)) /\
              (writes (run config calls w) <= writes w + List.length calls)%nat).
  { clear Hdates Hfit. revert w Hdisk. induction calls as [|c calls IH]; intros w Hdisk.
    - split; [left; now split|cbn; lia].
    - rewrite run_cons.
      destruct (step_effect config c w) as [(_ & Hwf & _) Heffect].
      assert (Hdisk' : disk_ok (step config w c)).
      { intros n. rewrite Hwf. apply Hdisk. }
      destruct (IH _ Hdisk') as [Hrest Hwrites]. cbn [List.length].
      destruct Heffect as [(Htok & Hfile & Hwr)|(toks & (Htok & Hwr & Hfile) & _)].
      + split; [|lia]. destruct Hrest as [[H1 H2]|Hs]; [left|now right].
        split; congruence.
      + split; [|lia]. right. destruct Hrest as [[H1 H2]|Hs]; [|exact Hs].
        unfold synced. rewrite H1, H2, Hfile, Htok, Hdisk. reflexivity. }
  destruct H as [H Hwrites]. split; [exact H|]. split; [|split; [exact Hwrites|]].
  - intros Hs. destruct H as [[H1 H2]|H]; [|exact H].
    unfold synced in *. now rewrite H1, H2.
  - intros r Hr. destruct (run_records config calls w r Hr) as [Hold|Hnew].
    + now apply Hdates.
    + now apply (granted_in_range calls w).
Qed.

(** A Callback that throws at the client's callback has stored and saved
    the token, and leaves the transaction in place. *)
Example refused_callback :
  let w1 := step demo_config fresh_world
              (Authorize "abc" "https://client/cb" "code" (Some "xyz") None) in
  let w2 := step demo_config w1
              (Callback upstream_ok
                 (mkRequest [("code", "upstreamcode123");
                             ("state", id_after_pkce fresh_world)]) false) in
  transactions w2 = transactions w1 /\
  JsMap.get (id_after_pkce fresh_world) (transactions w2) <> None /\
  records w2 = [TokenData.mk "U1" None 1700000120000] /\
  synced w2.
Proof.
  cbn zeta. split; [reflexivity|]. split; [vm_compute; discriminate|].
  split; [reflexivity|]. vm_compute. reflexivity.
Qed.

Lemma store_is_saved_witness :
  disk_ok fresh_world /\
  valid_dates fresh_world /\
  ((tokens (run demo_config demo_calls fresh_world) = tokens fresh_world /\
    file (run demo_config demo_calls fresh_world) = file fresh_world) \/
   synced (run demo_config demo_calls fresh_world)) /\
  (synced fresh_world -> synced (run demo_config demo_calls fresh_world)) /\
  (writes (run demo_config demo_calls fresh_world)
   <= writes fresh_world + List.length demo_calls)%nat /\
  valid_dates (run demo_config demo_calls fresh_world).
Proof.
  split; [intros n; reflexivity|]. split; [intros r []|].
  apply (store_is_saved demo_config demo_calls fresh_world).
  - intros n. reflexivity.
  - intros r [].
  - exact demo_lifetimes_fit.
Defined.

(* ================================================================== *)
(** ** Metadata, registration and the server's configuration *)
(* ================================================================== *)

(** The metadata against the behaviour: the three endpoints extend the
    issuer; [authorize] refuses every response type the metadata does not
    list and, given an authorization endpoint that [new URL] accepts,
    redirects for every response type it lists, with a challenge method it
    lists; but the metadata lists the grant type "refresh_token", and every
    [exchangeRefreshToken] call is refused with [invalid_grant]. *)
Theorem metadata_and_behaviour (config : Config.t) :
  let metadata := getAuthorizationServerMetadata config in
  Metadata.authorizationEndpoint metadata = (Metadata.issuer metadata ++ "/oauth/authorize")%string /\
  Metadata.tokenEndpoint metadata = (Metadata.issuer metadata ++ "/oauth/token")%string /\
  Metadata.registrationEndpoint metadata = (Metadata.issuer metadata ++ "/oauth/register")%string /\
  (forall response_type client_id redirect_uri state scope w,
     ~ In response_type (Metadata.responseTypesSupported metadata) ->
     authorize config client_id redirect_uri response_type state scope w
       = (Return (error_response "unsupported_response_type"), w)) /\
  (plain_url (Config.authorizationEndpoint config) = true ->
   forall response_type client_id redirect_uri state scope w,
     In response_type (Metadata.responseTypesSupported metadata) ->
     exists location w' method,
       authorize config client_id redirect_uri response_type state scope w
         = (Return (RedirectResponse location), w') /\
       JsMap.get "code_challenge_method" (searchParams location) = Some method /\
       In method (Metadata.codeChallengeMethodsSupported metadata)) /\
  In "refresh_token" (Metadata.grantTypesSupported metadata) /\
  (forall refresh_token w,
     exchangeRefreshToken refresh_token w = (Throw invalid_grant_refresh, w)).
Proof.
  cbn zeta. split; [reflexivity|]. split; [reflexivity|]. split; [reflexivity|].
  split; [|split; [|split]].
  - intros response_type client_id redirect_uri state scope w Hnot.
    unfold authorize.
    destruct (String.eqb_spec response_type "code") as [->|Hne]; [|reflexivity].
    exfalso. apply Hnot. now left.
  - intros Hendpoint response_type client_id redirect_uri state scope w [<-|[]].
    destruct (authorize_code config client_id redirect_uri state scope w)
      as (w1 & Hrun & _).
    cbn zeta in Hrun. eexists. exists w1, "S256".
    split; [exact Hrun|]. split; [reflexivity|now left].
  - right. now left.
  - reflexivity.
Qed.

(** [registerClient] returns a newly minted client id with the name and
    the redirect URIs it was given, and stores nothing: neither store nor
    the token file changes. Nor does [authorize] look at the client id: its
    response is the same for any two client ids. *)
Theorem registration_is_not_checked
    (config : Config.t) (redirect_uris : option (list string))
    (client_name : option string) (w : World) :
  (exists registration w',
     registerClient redirect_uris client_name w = (Return registration, w') /\
     minted (Registration.client_id registration) /\
     Registration.client_name registration = client_name /\
     Registration.redirect_uris registration = redirect_uris /\
     transactions w' = transactions w /\ untouched w w') /\
  (forall client_id client_id' redirect_uri response_type state scope,
     fst (authorize config client_id redirect_uri response_type state scope w)
     = fst (authorize config client_id' redirect_uri response_type state scope w)).
Proof.
  split.
  - unfold registerClient, bind. rewrite generateId_run. unfold ret.
    eexists. eexists. split; [reflexivity|]. cbn.
    split; [apply next_id_minted|]. repeat split.
  - intros client_id client_id' redirect_uri response_type state scope.
    destruct (String.eqb_spec response_type "code") as [->|Hne].
    + destruct (authorize_code config client_id redirect_uri state scope w)
        as (w1 & Hrun & _).
      destruct (authorize_code config client_id' redirect_uri state scope w)
        as (w1' & Hrun' & _).
      cbn zeta in Hrun, Hrun'. rewrite Hrun, Hrun'. reflexivity.
    + unfold authorize. apply String.eqb_neq in Hne. rewrite Hne. reflexivity.
Qed.

(** What the server of [startReflectMCPServer] sends to Reflect, through
    the options it builds and the constructor's defaults: the
    authorization redirect goes to https://reflect.app/oauth with the
    configured client id, the redirect URI
    http://localhost:PORT/oauth/callback and, when the client names no
    scope, the scope "read:graph,write:graph"; the token request goes to
    https://reflect.app/api/oauth/token with the same redirect URI. PORT is
    3000 when the port is missing or zero. *)
Theorem server_upstream_parameters
    (server : Server.ServerConfig.t) (home_tokens : string)
    (client_id redirect_uri code : string) (state : option string) (w : World) :
  let config := config_of_options home_tokens (Server.pkceProxy_options server) in
  let callback :=
    ("http://localhost:" ++ Server.Number_toString (Server.port server)
       ++ "/oauth/callback")%string in
  (exists location w',
     authorize config client_id redirect_uri "code" state None w
       = (Return (RedirectResponse location), w') /\
     href location = "https://reflect.app/oauth" /\
     JsMap.get "client_id" (searchParams location)
       = Some (Server.ServerConfig.clientId server) /\
     JsMap.get "redirect_uri" (searchParams location) = Some callback /\
     JsMap.get "scope" (searchParams location) = Some "read:graph,write:graph") /\
  (forall tx,
     fetch_url (token_request config code tx) = "https://reflect.app/api/oauth/token" /\
     JsMap.get "redirect_uri" (fetch_body (token_request config code tx))
       = Some callback) /\
  Metadata.issuer (getAuthorizationServerMetadata config) = Server.baseUrl server /\
  (Server.ServerConfig.port server = None \/ Server.ServerConfig.port server = Some 0 ->
   callback = "http://localhost:3000/oauth/callback").
Proof.
  cbn zeta.
  assert (Hcb : forall a b c, ((a ++ b) ++ c = a ++ b ++ c)%string).
  { intros a b c. induction a as [|x a IH]; cbn; [reflexivity|now rewrite IH]. }
  split; [|split; [|split]].
  - destruct (authorize_code
                (config_of_options home_tokens (Server.pkceProxy_options server))
                client_id redirect_uri state None w) as (w1 & Hrun & _).
    cbn zeta in Hrun. eexists. exists w1. split; [exact Hrun|].
    split; [reflexivity|]. split; [reflexivity|].
    split; [|reflexivity].
    cbn [searchParams]. unfold JsMap.get. cbn [String.eqb Ascii.eqb Bool.eqb].
    cbn [Config.baseUrl Config.redirectPath config_of_options or_else
         Server.pkceProxy_options Options.baseUrl Options.redirectPath].
    unfold Server.baseUrl. now rewrite Hcb.
  - intros tx. split; [reflexivity|].
    cbn [fetch_body token_request]. unfold JsMap.get. cbn [String.eqb Ascii.eqb Bool.eqb].
    cbn [Config.baseUrl Config.redirectPath config_of_options or_else
         Server.pkceProxy_options Options.baseUrl Options.redirectPath].
    unfold Server.baseUrl. now rewrite Hcb.
  - reflexivity.
  - unfold Server.port. intros [->| ->]; reflexivity.
Qed.

(* ================================================================== *)
(** ** Start-up *)
(* ================================================================== *)

(** The load loop, whatever the clock does. *)
Lemma load_readings Date_parse E : forall w,
  exists w',
    for_of E
      (fun kv =>
         let key := fst kv in
         let value := snd kv in
         let expiresAt := Date_parse (SerializedTokenData.expiresAt value) in
         current <- Date_now ;;
         match expiresAt with
         | Some e =>
             if current <? e
             then modify (fun w' =>
                    with_tokens
                      (JsMap.set key
                         (TokenData.mk (SerializedTokenData.accessToken value)
                                       (SerializedTokenData.refreshToken value) e)
                         (tokens w')) w')
             else ret tt
         | None => ret tt
         end) w = (Return tt, w') /\
    tokens w' = load_entries Date_parse (clock w) (ticks w) E (tokens w) /\
    transactions w' = transactions w /\ file w' = file w /\ writes w' = writes w /\
    ticks w' = (ticks w + List.length E)%nat.
Proof.
  induction E as [|kv E IH]; intros w.
  - exists w. repeat split. cbn. lia.
  - cbn [for_of load_entries List.length]. unfold bind at 1. cbn zeta.
    unfold bind at 1, Date_now at 1.
    assert (Hstep : forall w1,
              clock w1 = clock w -> ticks w1 = S (ticks w) ->
              tokens w1 = load_entry Date_parse (now w) (tokens w) kv ->
              transactions w1 = transactions w -> file w1 = file w ->
              writes w1 = writes w ->
              exists w',
                for_of E
                  (fun kv =>
                     let key := fst kv in
                     let value := snd kv in
                     let expiresAt := Date_parse (SerializedTokenData.expiresAt value) in
                     current <- Date_now ;;
                     match expiresAt with
                     | Some e =>
                         if current <? e
                         then modify (fun w' =>
                                with_tokens
                                  (JsMap.set key
                                     (TokenData.mk (SerializedTokenData.accessToken value)
                                                   (SerializedTokenData.refreshToken value) e)
                                     (tokens w')) w')
                         else ret tt
                     | None => ret tt
                     end) w1 = (Return tt, w') /\
                tokens w' =
                  load_entries Date_parse (clock w) (S (ticks w)) E
                    (load_entry Date_parse (clock w (ticks w)) (tokens w) kv) /\
                transactions w' = transactions w /\ file w' = file w /\
                writes w' = writes w /\
                ticks w' = (ticks w + S (List.length E))%nat).
    { intros w1 Hc Ht Hm Htx1 Hf1 Hw1.
      destruct (IH w1) as (w' & Hrun & Htok & Htx & Hf & Hw & Hticks).
      exists w'. rewrite Hrun. split; [reflexivity|].
      rewrite Htok, Hc, Ht, Hm. split; [reflexivity|].
      repeat split; try congruence. rewrite Hticks, Ht. lia. }
    destruct (Date_parse (SerializedTokenData.expiresAt (snd kv))) as [e|] eqn:Eparse.
    + destruct (now w <? e) eqn:Elive.
      * unfold modify at 1. apply Hstep; try reflexivity.
        unfold load_entry. now rewrite Eparse, Elive.
      * unfold ret at 1. apply Hstep; try reflexivity.
        unfold load_entry. now rewrite Eparse, Elive.
    + unfold ret at 1. apply Hstep; try reflexivity.
      unfold load_entry. now rewrite Eparse.
Qed.

(** A key whose entries are all invalid or expired at their readings is
    not touched by the loop. *)
Lemma load_entries_skip Date_parse clock key E : forall reading m,
  (forall i value e,
     nth_error E i = Some (key, value) ->
     Date_parse (SerializedTokenData.expiresAt value) = Some e ->
     e <= clock (reading + i)%nat) ->
  JsMap.get key (load_entries Date_parse clock reading E m) = JsMap.get key m.
Proof.
  induction E as [|[k v] E IH]; intros reading m Hdead; [reflexivity|].
  cbn [load_entries]. rewrite IH.
  - unfold load_entry. cbn [fst snd].
    destruct (Date_parse (SerializedTokenData.expiresAt v)) as [e|] eqn:Eparse;
      [|reflexivity].
    destruct (clock reading <? e) eqn:Elive; [|reflexivity].
    destruct (String.eqb_spec key k) as [->|Hne].
    + apply Z.ltb_lt in Elive.
      specialize (Hdead 0%nat v e eq_refl Eparse).
      rewrite Nat.add_0_r in Hdead. lia.
    + now apply JsMapFacts.get_set_other.
  - intros i value e Hnth Hparse.
    replace (S reading + i)%nat with (reading + S i)%nat by lia.
    now apply (Hdead (S i) value e).
Qed.

(** What the loop files under a key is what was there, or comes from an
    entry of that key that was valid after its own reading. *)
Lemma load_entries_origin Date_parse clock key record E : forall reading m,
  JsMap.get key (load_entries Date_parse clock reading E m) = Some record ->
  JsMap.get key m = Some record \/
  exists i value,
    nth_error E i = Some (key, value) /\
    TokenData.accessToken record = SerializedTokenData.accessToken value /\
    TokenData.refreshToken record = SerializedTokenData.refreshToken value /\
    Date_parse (SerializedTokenData.expiresAt value) = Some (TokenData.expiresAt record) /\
    clock (reading + i)%nat < TokenData.expiresAt record.
Proof.
  induction E as [|[k v] E IH]; intros reading m Hget; [now left|].
  cbn [load_entries] in Hget. apply IH in Hget as [Hget|(i & value & Hnth & Hrest)].
  - unfold load_entry in Hget. cbn [fst snd] in Hget.
    destruct (Date_parse (SerializedTokenData.expiresAt v)) as [e|] eqn:Eparse;
      [|now left].
    destruct (clock reading <? e) eqn:Elive; [|now left].
    destruct (String.eqb_spec key k) as [->|Hne].
    + rewrite JsMapFacts.get_set_same in Hget. injection Hget as <-.
      right. exists 0%nat, v. cbn [nth_error TokenData.accessToken
        TokenData.refreshToken TokenData.expiresAt].
      rewrite Nat.add_0_r. apply Z.ltb_lt in Elive. repeat split; assumption.
    + rewrite JsMapFacts.get_set_other in Hget by assumption. now left.
  - right. exists (S i), value. split; [exact Hnth|].
    replace (reading + S i)%nat with (S reading + i)%nat by lia. exact Hrest.
Qed.

(** On entries with distinct keys, an entry that is valid after its
    reading is filed. *)
Lemma load_entries_hit Date_parse clock key value e E : forall i reading m,
  NoDup (JsMap.keys E) ->
  nth_error E i = Some (key, value) ->
  Date_parse (SerializedTokenData.expiresAt value) = Some e ->
  clock (reading + i)%nat < e ->
  JsMap.get key (load_entries Date_parse clock reading E m)
  = Some (TokenData.mk (SerializedTokenData.accessToken value)
                       (SerializedTokenData.refreshToken value) e).
Proof.
  induction E as [|[k v] E IH]; intros i reading m Hnd Hnth Hparse Hlive.
  - destruct i; discriminate.
  - cbn in Hnd. inversion Hnd as [|? ? Hnotin Hnd']; subst.
    cbn [load_entries]. destruct i as [|i].
    + injection Hnth as -> ->. rewrite Nat.add_0_r in Hlive.
      rewrite load_entries_skip.
      * unfold load_entry. cbn [fst snd]. rewrite Hparse.
        apply Z.ltb_lt in Hlive. rewrite Hlive. apply JsMapFacts.get_set_same.
      * intros j value' e' Hj _. exfalso. apply Hnotin.
        apply nth_error_In in Hj. unfold JsMap.keys.
        change key with (fst (key, value')). now apply in_map.
    + apply (IH i); try assumption.
      replace (S reading + i)%nat with (reading + S i)%nat by lia. exact Hlive.
Qed.

(** Start-up never throws and never writes: with no token file, or one
    that is not JSON, the proxy starts with empty stores. From a token file
    it reads the clock once for each entry, in the order of
    [Object.entries]. Every record it loads comes from an entry of the file
    under the same key, with the entry's access and refresh token, whose
    date reads as a valid date after the reading taken for that entry; a
    key whose date does not read as a date, or is not after that reading,
    is not loaded; and an entry whose date is after its reading is loaded.
    The file itself is left as it is, expired entries included. *)
Theorem constructor_startup (Date_parse : string -> option JsDate.t) (w : World) :
  exists w',
    constructor Date_parse w = (Return tt, w') /\
    transactions w' = JsMap.empty /\
    file w' = file w /\ writes w' = writes w /\
    (file w = NoFile \/ file w = Unparsable ->
     tokens w' = JsMap.empty /\ ticks w' = ticks w) /\
    (forall stored,
       file w = Snapshot stored ->
       ticks w' = (ticks w + List.length (JsObject.entries stored))%nat /\
       (forall key record,
          JsMap.get key (tokens w') = Some record ->
          exists i value,
            nth_error (JsObject.entries stored) i = Some (key, value) /\
            In (key, value) stored /\
            TokenData.accessToken record = SerializedTokenData.accessToken value /\
            TokenData.refreshToken record = SerializedTokenData.refreshToken value /\
            Date_parse (SerializedTokenData.expiresAt value)
              = Some (TokenData.expiresAt record) /\
            clock w (ticks w + i)%nat < TokenData.expiresAt record) /\
       (forall key,
          (forall i value e,
             nth_error (JsObject.entries stored) i = Some (key, value) ->
             Date_parse (SerializedTokenData.expiresAt value) = Some e ->
             e <= clock w (ticks w + i)%nat) ->
          JsMap.get key (tokens w') = None) /\
       (JsMap.wf stored ->
        forall i key value e,
          nth_error (JsObject.entries stored) i = Some (key, value) ->
          Date_parse (SerializedTokenData.expiresAt value) = Some e ->
          clock w (ticks w + i)%nat < e ->
          JsMap.get key (tokens w')
          = Some (TokenData.mk (SerializedTokenData.accessToken value)
                               (SerializedTokenData.refreshToken value) e))).
Proof.
  unfold constructor, bind, modify, loadTokensFromDisk.
  cbn [file with_tokens with_transactions].
  destruct (file w) as [| |stored] eqn:Efile.
  - eexists. split; [reflexivity|]. cbn. repeat split; try assumption;
      discriminate.
  - eexists. split; [reflexivity|]. cbn. repeat split; try assumption;
      discriminate.
  - destruct (load_readings Date_parse (JsObject.entries stored)
                (with_tokens JsMap.empty (with_transactions JsMap.empty w)))
      as (w' & Hrun & Htok & Htx & Hfile & Hwr & Hticks).
    cbn [tokens clock ticks with_tokens with_transactions] in Htok, Hticks.
    exists w'. split; [exact Hrun|].
    split; [exact Htx|]. split; [now rewrite Hfile|]. split; [exact Hwr|].
    split; [intros [H|H]; discriminate|].
    intros stored' H. injection H as <-.
    split; [exact Hticks|]. rewrite Htok. split; [|split].
    + intros key record Hget.
      apply load_entries_origin in Hget as [Hget|(i & value & Hnth & Hrest)];
        [discriminate|].
      exists i, value. split; [exact Hnth|]. split; [|exact Hrest].
      apply (Permutation_in _ (JsObjectFacts.entries_perm stored)).
      now apply (nth_error_In _ i).
    + intros key Hdead. now rewrite load_entries_skip.
    + intros Hwf i key value e Hnth Hparse Hlive.
      apply (load_entries_hit _ _ _ _ _ _ i); try assumption.
      unfold JsMap.wf, JsMap.keys in *.
      eapply Permutation_NoDup; [|exact Hwf].
      apply Permutation_map, Permutation_sym, JsObjectFacts.entries_perm.
Qed.

(* ================================================================== *)
(** ** The instant of expiry *)
(* ================================================================== *)

Lemma entries_single {V} k (v : V) : JsObject.entries [(k, v)] = [(k, v)].
Proof.
  unfold JsObject.entries, JsObject.indexed, JsObject.named. cbn.
  now destruct (JsObject.array_index k).
Qed.

(** At the very instant a record expires the parts of the proxy
    disagree: the request check still accepts the token and the sweeper
    keeps the record, while [getFirstValidToken] no longer returns it and
    a proxy started at that instant does not load it from the file. *)
Theorem expiry_instant (w : World) (k : string) (r : TokenData.t) :
  tokens w = [(k, r)] ->
  file w = Snapshot [(k, serialize r)] ->
  (forall n, clock w n = TokenData.expiresAt r) ->
  JsDate.in_range (TokenData.expiresAt r) = true ->
  Server.authenticate (Some ("Bearer " ++ k)%string) w =
    (Return (Server.Session (TokenData.accessToken r) (TokenData.refreshToken r) 0),
     with_tick (with_tick w)) /\
  loadUpstreamTokens k w = (Return (Some r), with_tick w) /\
  tokens (snd (startCleanup_tick w)) = [(k, r)] /\
  writes (snd (startCleanup_tick w)) = writes w /\
  fst (getFirstValidToken w) = Return None /\
  tokens (snd (constructor JsDate.parse_iso w)) = [].
Proof.
  intros Htok Hfile Hclock Hrange.
  assert (Hnow : now w = TokenData.expiresAt r) by apply Hclock.
  assert (Hget : JsMap.get k (tokens w) = Some r).
  { rewrite Htok. cbn. now rewrite String.eqb_refl. }
  assert (Hlt : (TokenData.expiresAt r <? TokenData.expiresAt r) = false)
    by apply Z.ltb_irrefl.
  split; [|split; [|split; [|split; [|split]]]].
  - rewrite authenticate_bearer, Hget, Hnow, Hlt, Hclock.
    now rewrite Z.sub_diag.
  - unfold loadUpstreamTokens. run_method. rewrite Hget. cbn.
    now rewrite Hnow, Hlt.
  - rewrite startCleanup_tick_loops. cbn zeta. rewrite Htok, Hnow.
    unfold delete_where, expired_token. cbn [existsb snd orb fold_left].
    rewrite Hlt. reflexivity.
  - rewrite startCleanup_tick_loops. cbn zeta. rewrite Htok, Hnow.
    unfold expired_token. cbn [existsb snd orb]. rewrite Hlt. reflexivity.
  - unfold getFirstValidToken. run_method. rewrite Htok. cbn.
    now rewrite Hnow, Hlt.
  - unfold constructor, bind, modify, loadTokensFromDisk.
    cbn [file with_tokens with_transactions]. rewrite Hfile, entries_single.
    cbn [for_of]. unfold bind, Date_now, ret.
    cbn [fst snd serialize SerializedTokenData.expiresAt].
    rewrite (JsDateFacts.parse_iso_toISOString _ Hrange).
    unfold now. cbn [clock ticks with_tokens with_transactions].
    rewrite Hclock, Hlt. reflexivity.
Qed.

Lemma expiry_instant_witness :
  Server.authenticate (Some ("Bearer " ++ demo_code)%string) instant_world =
    (Return (Server.Session "U1" None 0), with_tick (with_tick instant_world)) /\
  loadUpstreamTokens demo_code instant_world
    = (Return (Some (TokenData.mk "U1" None 1700000000000)), with_tick instant_world) /\
  tokens (snd (startCleanup_tick instant_world))
    = [(demo_code, TokenData.mk "U1" None 1700000000000)] /\
  writes (snd (startCleanup_tick instant_world)) = writes instant_world /\
  fst (getFirstValidToken instant_world) = Return None /\
  tokens (snd (constructor JsDate.parse_iso instant_world)) = [].
Proof.
  apply (expiry_instant instant_world demo_code (TokenData.mk "U1" None 1700000000000)).
  - reflexivity.
  - reflexivity.
  - intros n. reflexivity.
  - reflexivity.
Defined.

(* ================================================================== *)
(** ** Utilities, the note tool and the command line *)
(* ================================================================== *)

(** Time values whose year has four digits. *)
Lemma four_digit_year tv :
  -62167219200000 <= tv <= 253402300799999 ->
  0 <= fst (fst (JsDate.civil_of_day (tv / JsDate.msPerDay))) <= 9999.
Proof.
  unfold JsDate.civil_of_day, JsDate.msPerDay. intros H. cbn [fst].
  set (z := tv / 86400000 + 719468).
  assert (Hz : -60 <= z <= 3652364).
  { unfold z. Z.div_mod_to_equations. lia. }
  clearbody z. clear H tv.
  pose proof (Z.mod_pos_bound z 146097 ltac:(lia)) as Hdoe.
  pose proof (Z.div_mod z 146097 ltac:(lia)) as Hdm.
  set (era := z / 146097) in *. set (doe := z mod 146097) in *.
  clearbody era doe.
  assert (Hera : -1 <= era <= 24) by lia.
  destruct (JsDateFacts.era_facts doe Hdoe) as [[Hyoe [Hdoy [Hmp Hd]]] _].
  cbn zeta in *.
  set (yoe := (doe - doe / 1460 + doe / 36524 - doe / 146096) / 365) in *.
  set (doy := doe - (365 * yoe + yoe / 4 - yoe / 100)) in *.
  set (mp := (5 * doy + 2) / 153) in *.
  assert (Hlow : era = -1 -> yoe = 399 /\ 10 <= mp).
  { intros E. assert (146037 <= doe) by lia.
    assert (yoe = 399) by (unfold yoe; Z.div_mod_to_equations; lia).
    split; [assumption|]. unfold mp, doy. Z.div_mod_to_equations. lia. }
  assert (Hhigh : era = 24 -> yoe = 399 -> mp < 10).
  { intros E Hy. assert (doe <= 146036) by lia.
    unfold mp, doy. rewrite Hy. Z.div_mod_to_equations. lia. }
  destruct (mp <? 10) eqn:Emp; [apply Z.ltb_lt in Emp|apply Z.ltb_ge in Emp].
  - replace (mp + 3 <=? 2) with false by (symmetry; apply Z.leb_gt; lia).
    destruct (Z.eq_dec era (-1)) as [E|E]; [destruct (Hlow E); lia|]. lia.
  - replace (mp - 9 <=? 2) with true by (symmetry; apply Z.leb_le; lia).
    destruct (Z.eq_dec era 24) as [E|E]; [|lia].
    destruct (Z.eq_dec yoe 399) as [Hy|Hy]; [specialize (Hhigh E Hy); lia|lia].
Qed.

(** [formatDate] throws for a time value no [Date] can hold. For every
    other it returns a text that [Date.parse] reads back to the same
    time value, so that no two time values share a text. For the time
    values of the years 0000 to 9999 the text has 24 characters, with
    the separators of YYYY-MM-DDTHH:mm:ss.sssZ in their places. *)
Theorem formatDate_result (timestampMs : Z) :
  (JsDate.in_range timestampMs = false -> formatDate timestampMs = None) /\
  (JsDate.in_range timestampMs = true ->
   exists text,
     formatDate timestampMs = Some text /\
     JsDate.parse_iso text = Some timestampMs /\
     (forall other, formatDate other = Some text -> other = timestampMs)) /\
  (-62167219200000 <= timestampMs <= 253402300799999 ->
   exists text,
     formatDate timestampMs = Some text /\
     String.length text = 24%nat /\
     map (fun i => String.get i text) [4; 7; 10; 13; 16; 19; 23]%nat
     = map Some ["-"; "-"; "T"; ":"; ":"; "."; "Z"]%char).
Proof.
  unfold formatDate. split; [|split].
  - intros ->. reflexivity.
  - intros H. rewrite H. eexists. split; [reflexivity|].
    split; [now apply JsDateFacts.parse_iso_toISOString|].
    intros other Ho.
    destruct (JsDate.in_range other) eqn:Eo; [|discriminate].
    injection Ho as Ho.
    apply JsDateFacts.parse_iso_toISOString in H, Eo.
    rewrite Ho in Eo. congruence.
  - intros H.
    assert (Hr : JsDate.in_range timestampMs = true).
    { unfold JsDate.in_range. apply andb_true_intro. split; apply Z.leb_le; lia. }
    rewrite Hr. eexists. split; [reflexivity|].
    pose proof (four_digit_year timestampMs H) as Hy.
    unfold JsDate.toISOString.
    destruct (JsDate.civil_of_day (timestampMs / JsDate.msPerDay)) as [[y m] d].
    cbn [fst] in Hy. unfold JsDate.year_text.
    replace ((0 <=? y) && (y <=? 9999)) with true
      by (symmetry; apply andb_true_intro; split; apply Z.leb_le; lia).
    cbn [JsDate.digits String.append]. split; reflexivity.
Qed.

(** *** Lines: [split] and [join] *)

Lemma string_app_assoc (a b c : string) : ((a ++ b) ++ c = a ++ b ++ c)%string.
Proof. induction a as [|x a IH]; cbn; [reflexivity|now rewrite IH]. Qed.

Lemma split_nonempty c s : split c s <> [].
Proof.
  destruct s as [|x s]; cbn; [discriminate|].
  destruct (Ascii.eqb x c); [discriminate|].
  destruct (split c s); discriminate.
Qed.

Lemma split_app c a b : split c (a ++ String c b) = split c a ++ split c b.
Proof.
  induction a as [|x a IH]; cbn.
  - now rewrite Ascii.eqb_refl.
  - destruct (Ascii.eqb x c); [now rewrite IH|].
    rewrite IH. pose proof (split_nonempty c a).
    destruct (split c a); [contradiction|reflexivity].
Qed.

Lemma split_single_line s : single_line s = true -> split LF s = [s].
Proof.
  unfold single_line. induction s as [|x s IH]; cbn; [reflexivity|].
  intros H. apply andb_prop in H as [Hx Hs].
  apply negb_true_iff in Hx. rewrite Hx, (IH Hs). reflexivity.
Qed.

Lemma split_lines_single s : Forall (fun line => single_line line = true) (split LF s).
Proof.
  induction s as [|x s IH]; cbn.
  - repeat constructor.
  - destruct (Ascii.eqb x LF) eqn:E.
    + constructor; [reflexivity|exact IH].
    + pose proof (split_nonempty LF s).
      destruct (split LF s) as [|h t]; [contradiction|].
      inversion IH as [|? ? Hh Ht]; subst. constructor; [|exact Ht].
      unfold single_line in *. cbn. now rewrite E, Hh.
Qed.

Lemma single_line_app a b :
  single_line a = true -> single_line b = true -> single_line (a ++ b) = true.
Proof.
  unfold single_line. induction a as [|x a IH]; cbn; [auto|].
  intros H Hb. apply andb_prop in H as [Hx Ha]. now rewrite Hx, IH.
Qed.

Lemma join_lines_cons line line' lines :
  join_lines (line :: line' :: lines)
  = (line ++ String LF (join_lines (line' :: lines)))%string.
Proof. reflexivity. Qed.

Lemma split_join_parts parts :
  parts <> [] -> split LF (join_lines parts) = flat_map (split LF) parts.
Proof.
  induction parts as [|p parts IH]; [contradiction|]. intros _.
  destruct parts as [|p' parts].
  - cbn. now rewrite app_nil_r.
  - rewrite join_lines_cons, split_app, IH by discriminate. reflexivity.
Qed.

Lemma split_join_lines lines :
  lines <> [] -> Forall (fun line => single_line line = true) lines ->
  split LF (join_lines lines) = lines.
Proof.
  intros Hne H. rewrite split_join_parts by assumption.
  clear Hne. induction H as [|l lines Hl _ IH]; [reflexivity|].
  cbn. now rewrite (split_single_line l Hl), IH.
Qed.

Lemma join_split s : join_lines (split LF s) = s.
Proof.
  induction s as [|x s IH]; [reflexivity|]. cbn [split].
  destruct (Ascii.eqb_spec x LF) as [->|Hne].
  - pose proof (split_nonempty LF s).
    destruct (split LF s) as [|h t] eqn:E; [contradiction|].
    rewrite join_lines_cons, IH. reflexivity.
  - pose proof (split_nonempty LF s).
    destruct (split LF s) as [|h t] eqn:E; [contradiction|].
    rewrite <- IH. destruct t; reflexivity.
Qed.

Lemma prefixed_lines prefix lines :
  single_line prefix = true ->
  Forall (fun line => single_line line = true) lines ->
  Forall (fun line => single_line line = true)
         (map (fun line => prefix ++ line)%string lines).
Proof.
  intros Hp H. induction H; cbn; constructor; auto using single_line_app.
Qed.

(** The lines of the note body: the two header lines, each followed by
    an empty line; the lines of the content, as many as it has, each
    behind two spaces; and, when there are tasks, an empty line, the
    heading and one line per task. The content can be read back from its
    indented form. *)
Theorem note_content_lines (tag content : string) (tasks : option (list string)) :
  single_line tag = true ->
  Forall (fun task => single_line task = true)
         (match tasks with Some l => l | None => [] end) ->
  split LF (fullContent tag content tasks)
  = ["#ai-generated"; ""; ("- [[" ++ tag ++ "]]")%string; ""]
    ++ map (fun line => "  " ++ line)%string (split LF content)
    ++ match tasks with
       | Some (task :: tasks') =>
           [""; "  ## Tasks"]
           ++ map (fun task => "  - + " ++ task)%string (task :: tasks')
       | Some [] | None => []
       end /\
  split LF (indentedContent content)
  = map (fun line => "  " ++ line)%string (split LF content) /\
  unindent (indentedContent content) = content.
Proof.
  intros Htag Htasks.
  assert (Hind : split LF (indentedContent content)
                 = map (fun line => "  " ++ line)%string (split LF content)).
  { unfold indentedContent. apply split_join_lines.
    - pose proof (split_nonempty LF content).
      destruct (split LF content); [contradiction|discriminate].
    - apply prefixed_lines; [reflexivity|apply split_lines_single]. }
  split; [|split; [exact Hind|]].
  - unfold fullContent. rewrite split_join_parts by discriminate.
    cbn [flat_map app].
    change (split LF ("#ai-generated" ++ String LF ""))
      with ["#ai-generated"; ""].
    replace (split LF ("- [[" ++ tag ++ "]]" ++ String LF ""))
      with [("- [[" ++ tag ++ "]]")%string; ""].
    2:{ change ("- [[" ++ tag ++ "]]" ++ String LF "")%string
          with ("- [[" ++ (tag ++ "]]" ++ String LF ""))%string.
        rewrite <- (string_app_assoc tag "]]" (String LF "")).
        assert (E' : ("- [[" ++ (tag ++ "]]") ++ String LF ""
                      = ("- [[" ++ tag ++ "]]") ++ String LF "")%string) by reflexivity.
        rewrite E', split_app. cbn [split app].
        rewrite split_single_line; [reflexivity|].
        apply (single_line_app "- [["); [reflexivity|].
        apply single_line_app; [assumption|reflexivity]. }
    cbn [app]. rewrite Hind. do 4 f_equal.
    destruct tasks as [[|task tasks']|]; cbn [flat_map app]; try now rewrite app_nil_r.
    rewrite !app_nil_r.
    change (split LF "") with [""].
    change (split LF "  ## Tasks") with ["  ## Tasks"].
    rewrite split_join_lines; [reflexivity|discriminate|].
    apply prefixed_lines; [reflexivity|assumption].
  - unfold unindent. rewrite Hind, map_map.
    cbn [slice String.append]. rewrite map_id. apply join_split.
Qed.

Lemma note_content_lines_witness :
  split LF (fullContent "personal" demo_content (Some ["Review PR"]))
  = ["#ai-generated"; ""; "- [[personal]]"; ""; "  Plan"; "  - ship it";
     ""; "  ## Tasks"; "  - + Review PR"] /\
  split LF (indentedContent demo_content) = ["  Plan"; "  - ship it"] /\
  unindent (indentedContent demo_content) = demo_content.
Proof.
  apply (note_content_lines "personal" demo_content (Some ["Review PR"])).
  - reflexivity.
  - repeat constructor.
Defined.

(** *** The command line *)

Lemma parse_arguments_last parseInt arg dbPath port :
  parse_arguments parseInt [arg] dbPath port
  = (if startsWith "--" arg then dbPath else arg, port).
Proof. cbn. now destruct (startsWith "--" arg). Qed.

Lemma parse_arguments_step parseInt arg next rest dbPath port :
  parse_arguments parseInt (arg :: next :: rest) dbPath port
  = if (arg =? "--port")%string && negb (next =? "")%string
    then parse_arguments parseInt rest dbPath (parseInt next)
    else parse_arguments parseInt (next :: rest)
           (if startsWith "--" arg then dbPath else arg) port.
Proof.
  cbn [parse_arguments].
  destruct ((arg =? "--port")%string && negb (next =? "")%string); [reflexivity|].
  now destruct (startsWith "--" arg).
Qed.

Lemma last_cons {A} (a : A) l d : last (a :: l) d = last l a.
Proof.
  revert a d. induction l as [|b l IH]; intros a d; [reflexivity|].
  change (last (a :: b :: l) d) with (last (b :: l) d). now rewrite !IH.
Qed.

Lemma pairs_ind {A} (P : list A -> Prop) :
  P [] -> (forall a, P [a]) ->
  (forall a b l, P l -> P (b :: l) -> P (a :: b :: l)) ->
  forall l, P l.
Proof.
  intros H0 H1 H2.
  assert (H : forall l, P l /\ forall a, P (a :: l)).
  { induction l as [|b l [IH IH']].
    - split; [exact H0|exact H1].
    - split; [apply IH'|]. intros a. apply H2; [exact IH|apply IH']. }
  intros l. apply H.
Qed.

Lemma parse_arguments_without_port parseInt args : forall dbPath port,
  ~ In "--port" args ->
  snd (parse_arguments parseInt args dbPath port) = port /\
  fst (parse_arguments parseInt args dbPath port)
  = last (filter (fun arg => negb (startsWith "--" arg)) args) dbPath.
Proof.
  induction args as [| arg | arg next rest IH IH'] using pairs_ind;
    intros dbPath port Hno.
  - split; reflexivity.
  - rewrite parse_arguments_last. split; [reflexivity|]. cbn.
    now destruct (startsWith "--" arg).
  - rewrite parse_arguments_step.
    assert (Harg : (arg =? "--port")%string = false).
    { apply String.eqb_neq. intros ->. apply Hno. now left. }
    rewrite Harg. cbn [andb].
    destruct (IH' (if startsWith "--" arg then dbPath else arg) port) as [Hp Hd].
    { intros Hin. apply Hno. now right. }
    split; [exact Hp|]. rewrite Hd.
    change (filter (fun arg => negb (startsWith "--" arg)) (arg :: next :: rest))
      with (if negb (startsWith "--" arg)
            then arg :: filter (fun arg => negb (startsWith "--" arg)) (next :: rest)
            else filter (fun arg => negb (startsWith "--" arg)) (next :: rest)).
    destruct (startsWith "--" arg); cbn [negb]; [reflexivity|].
    now rewrite last_cons.
Qed.

(** The command line of [install] and [runServer]: the database path is
    the default or an argument that does not start with "--"; the port is
    the default or [parseInt] of a non-empty argument that follows
    "--port". Without "--port" the port is the default and the path is the
    last argument not starting with "--". The documented forms work in
    either order, and a "--port" with nothing after it is ignored.
    Without "--port" the server runs at http://localhost:3000. *)
Theorem parse_arguments_result
    (parseInt : string -> option Z) (args : list string)
    (dbPath : string) (port : option Z) :
  let result := parse_arguments parseInt args dbPath port in
  (fst result = dbPath \/
   (In (fst result) args /\ startsWith "--" (fst result) = false)) /\
  (snd result = port \/
   exists before value after,
     args = before ++ "--port" :: value :: after /\ value <> "" /\
     snd result = parseInt value) /\
  (~ In "--port" args ->
   snd result = port /\
   fst result = last (filter (fun arg => negb (startsWith "--" arg)) args) dbPath) /\
  (forall path value,
     startsWith "--" path = false -> value <> "" ->
     parse_arguments parseInt [path; "--port"; value] dbPath port
       = (path, parseInt value) /\
     parse_arguments parseInt ["--port"; value; path] dbPath port
       = (path, parseInt value) /\
     parse_arguments parseInt [path; "--port"] dbPath port = (path, port)) /\
  (~ In "--port" args ->
   Server.ServerConfig.clientId (runServer parseInt args) = REFLECT_CLIENT_ID /\
   Server.baseUrl (runServer parseInt args) = "http://localhost:3000").
Proof.
  cbn zeta. split; [|split; [|split; [|split]]].
  - revert dbPath port. induction args as [| arg | arg next rest IH IH'] using pairs_ind;
      intros dbPath port.
    + now left.
    + rewrite parse_arguments_last. cbn [fst].
      destruct (startsWith "--" arg) eqn:E; [now left|right].
      split; [now left|exact E].
    + rewrite parse_arguments_step.
      destruct ((arg =? "--port")%string && negb (next =? "")%string).
      * destruct (IH dbPath (parseInt next)) as [H|[H H']]; [now left|right].
        split; [now do 2 right|exact H'].
      * destruct (IH' (if startsWith "--" arg then dbPath else arg) port)
          as [H|[H H']].
        -- rewrite H. destruct (startsWith "--" arg) eqn:E; [now left|right].
           split; [now left|exact E].
        -- right. split; [now right|exact H'].
  - revert dbPath port. induction args as [| arg | arg next rest IH IH'] using pairs_ind;
      intros dbPath port.
    + now left.
    + rewrite parse_arguments_last. now left.
    + rewrite parse_arguments_step.
      destruct ((arg =? "--port")%string && negb (next =? "")%string) eqn:E.
      * apply andb_prop in E as [Earg Enext].
        apply String.eqb_eq in Earg. apply negb_true_iff, String.eqb_neq in Enext.
        subst arg.
        destruct (IH dbPath (parseInt next))
          as [H|(before & value & after & Hargs & Hvalue & H)]; right.
        -- exists [], next, rest. split; [reflexivity|]. split; assumption.
        -- exists ("--port" :: next :: before), value, after.
           split; [now rewrite Hargs|]. split; assumption.
      * destruct (IH' (if startsWith "--" arg then dbPath else arg) port)
          as [H|(before & value & after & Hargs & Hvalue & H)]; [now left|right].
        exists (arg :: before), value, after.
        split; [now rewrite Hargs|]. split; assumption.
  - apply parse_arguments_without_port.
  - intros path value Hpath Hvalue.
    apply String.eqb_neq in Hvalue.
    assert (Hp : (path =? "--port")%string = false).
    { apply String.eqb_neq. intros ->. discriminate. }
    split; [|split].
    + rewrite parse_arguments_step, Hp. cbn [andb].
      rewrite parse_arguments_step. cbn [String.eqb Ascii.eqb Bool.eqb andb].
      rewrite Hvalue, Hpath. reflexivity.
    + rewrite parse_arguments_step. cbn [String.eqb Ascii.eqb Bool.eqb andb].
      rewrite Hvalue. cbn [negb]. rewrite parse_arguments_last, Hpath. reflexivity.
    + rewrite parse_arguments_step, Hp. cbn [andb].
      rewrite parse_arguments_last, Hpath. reflexivity.
  - intros Hno. unfold runServer.
    destruct (parse_arguments_without_port parseInt args DEFAULT_DB_PATH (Some 3000) Hno)
      as [Hport _].
    destruct (parse_arguments parseInt args DEFAULT_DB_PATH (Some 3000)) as [d p].
    cbn [snd] in Hport. subst p. split; reflexivity.
Qed.

(* ================================================================== *)
(** ** [stripHtml] *)
(* ================================================================== *)

Module HtmlFacts.

Import Html.

(** *** Replacing all matches *)

Section Replace.

Variable matcher : text -> option text.
Variable replacement : text.
Hypothesis matcher_suffix :
  forall s rest, matcher s = Some rest -> exists pre, pre <> [] /\ s = pre ++ rest.

Lemma matcher_shrinks s rest :
  matcher s = Some rest -> (List.length rest < List.length s)%nat.
Proof.
  intros H. destruct (matcher_suffix s rest H) as (pre & Hne & ->).
  rewrite length_app. destruct pre; [contradiction|cbn; lia].
Qed.

Lemma replace_from_enough n : forall k s,
  (List.length s <= n)%nat -> (List.length s <= k)%nat ->
  replace_from n matcher replacement s = replace_from k matcher replacement s.
Proof.
  induction n as [|n IH]; intros k s Hn Hk.
  - destruct s; [|cbn in Hn; lia]. destruct k; [reflexivity|]. cbn.
    destruct (matcher []) eqn:E; [|reflexivity].
    apply matcher_shrinks in E. cbn in E. lia.
  - destruct k as [|k].
    + destruct s; [|cbn in Hk; lia]. cbn.
      destruct (matcher []) eqn:E; [|reflexivity].
      apply matcher_shrinks in E. cbn in E. lia.
    + cbn. destruct (matcher s) as [rest|] eqn:E.
      * pose proof (matcher_shrinks s rest E). f_equal. apply IH; lia.
      * destruct s as [|c s]; [reflexivity|]. cbn in Hn, Hk. f_equal. apply IH; lia.
Qed.

(** The equation of [replace]. *)
Lemma replace_eq s :
  replace matcher replacement s =
  match matcher s with
  | Some rest => replacement ++ replace matcher replacement rest
  | None =>
      match s with
      | c :: s' => c :: replace matcher replacement s'
      | [] => []
      end
  end.
Proof.
  unfold replace. destruct s as [|c s].
  - cbn. destruct (matcher []) eqn:E; [|reflexivity].
    apply matcher_shrinks in E. cbn in E. lia.
  - cbn [List.length replace_from]. destruct (matcher (c :: s)) as [rest|] eqn:E.
    + pose proof (matcher_shrinks _ _ E) as Hlt. cbn in Hlt.
      f_equal. apply replace_from_enough; lia.
    + reflexivity.
Qed.

(** Induction along the positions that [replace] visits. *)
Lemma replace_ind (P : text -> Prop) :
  P [] ->
  (forall s rest, matcher s = Some rest -> P rest -> P s) ->
  (forall c s, matcher (c :: s) = None -> P s -> P (c :: s)) ->
  forall s, P s.
Proof.
  intros Hnil Hmatch Hskip s.
  remember (List.length s) as n eqn:Hn.
  assert (Hle : (List.length s <= n)%nat) by lia. clear Hn.
  revert s Hle. induction n as [|n IH]; intros s Hle.
  - destruct s; [exact Hnil|cbn in Hle; lia].
  - destruct (matcher s) as [rest|] eqn:E.
    + apply (Hmatch s rest E). apply IH.
      pose proof (matcher_shrinks s rest E). lia.
    + destruct s as [|c s]; [exact Hnil|].
      apply (Hskip c s E). apply IH. cbn in Hle. lia.
Qed.

Lemma matcher_nil : matcher [] = None.
Proof.
  destruct (matcher []) eqn:E; [|reflexivity].
  apply matcher_shrinks in E. cbn in E. lia.
Qed.

Lemma replace_nil : replace matcher replacement [] = [].
Proof. rewrite replace_eq, matcher_nil. reflexivity. Qed.

Lemma replace_match s rest :
  matcher s = Some rest ->
  replace matcher replacement s = replacement ++ replace matcher replacement rest.
Proof. intros E. now rewrite replace_eq, E. Qed.

Lemma replace_skip c s :
  matcher (c :: s) = None ->
  replace matcher replacement (c :: s) = c :: replace matcher replacement s.
Proof. intros E. now rewrite replace_eq, E. Qed.

(** Every character of the result comes from the text or from the
    replacement. *)
Lemma replace_in x s :
  In x (replace matcher replacement s) -> In x s \/ In x replacement.
Proof.
  induction s as [| s rest E IH | c s E IH] using replace_ind.
  - rewrite replace_nil. intros [].
  - rewrite (replace_match s rest E). intros H.
    apply in_app_or in H as [H|H]; [now right|].
    destruct (IH H) as [Hin|Hin]; [left|now right].
    destruct (matcher_suffix s rest E) as (pre & _ & ->).
    apply in_or_app. now right.
  - rewrite (replace_skip c s E). intros [->|H]; [left; now left|].
    destruct (IH H) as [Hin|Hin]; [left; now right|now right].
Qed.

Lemma nowhere_suffix m pre s : nowhere m (pre ++ s) -> nowhere m s.
Proof.
  intros H p post ->. apply (H (pre ++ p) post). now rewrite app_assoc.
Qed.

Lemma nowhere_cons m c s : m (c :: s) = None -> nowhere m s -> nowhere m (c :: s).
Proof.
  intros Hc Hs pre post E. destruct pre as [|c' pre].
  - cbn in E. now subst post.
  - injection E as _ E. now apply (Hs pre).
Qed.

Lemma nowhere_nil m : m [] = None -> nowhere m [].
Proof.
  intros H pre post E. symmetry in E. apply app_eq_nil in E as [_ ->]. exact H.
Qed.

Lemma fixed_by_suffix m r pre s : fixed_by m r (pre ++ s) -> fixed_by m r s.
Proof.
  intros H p post rest ->. apply (H (pre ++ p) post). now rewrite app_assoc.
Qed.

(** A text in which every match is the replacement itself is left as it
    is. *)
Lemma replace_fixed s :
  fixed_by matcher replacement s -> replace matcher replacement s = s.
Proof.
  induction s as [| s rest E IH | c s E IH] using replace_ind; intros H.
  - apply replace_nil.
  - rewrite (replace_match s rest E).
    pose proof (H [] s rest eq_refl E) as Hs. rewrite Hs at 1. f_equal.
    apply IH. rewrite Hs in H. now apply fixed_by_suffix in H.
  - rewrite (replace_skip c s E). f_equal. apply IH.
    now apply (fixed_by_suffix _ _ [c]).
Qed.

Lemma replace_nowhere s :
  nowhere matcher s -> replace matcher replacement s = s.
Proof.
  intros H. apply replace_fixed. intros pre post rest E Hm.
  rewrite (H pre post E) in Hm. discriminate.
Qed.

(** Replacing matches that start with neither bracket, by a text with
    no bracket, leaves no tag if every tag of the text is one of the
    matches. *)
Lemma match_tag_head c s : c <> LT -> match_tag (c :: s) = None.
Proof.
  intros H. unfold match_tag. destruct s; [reflexivity|].
  apply Z.eqb_neq in H. now rewrite H.
Qed.

Lemma after_gt_none s : ~ In GT s -> after_gt s = None.
Proof.
  induction s as [|c s IH]; [reflexivity|]. intros H. cbn.
  destruct (Z.eqb_spec c GT) as [->|_]; [elim H; now left|].
  apply IH. intros Hin. apply H. now right.
Qed.

Lemma after_gt_in s : after_gt s = None -> ~ In GT s.
Proof.
  induction s as [|c s IH]; [intros _ []|]. cbn.
  destruct (Z.eqb_spec c GT) as [->|Hne]; [discriminate|].
  intros H [E|Hin]; [now elim Hne|now apply IH].
Qed.

Lemma match_tag_no_gt c s : ~ In GT s -> match_tag (c :: s) = None.
Proof.
  intros H. unfold match_tag. destruct s as [|d s]; [reflexivity|].
  destruct ((c =? LT) && negb (d =? GT)); [|reflexivity].
  apply after_gt_none. intros Hin. apply H. now right.
Qed.

Lemma nowhere_app_head r s :
  ~ In LT r -> nowhere match_tag s -> nowhere match_tag (r ++ s).
Proof.
  induction r as [|c r IH]; intros Hr Hs; [exact Hs|].
  cbn. apply nowhere_cons.
  - apply match_tag_head. intros ->. apply Hr. now left.
  - apply IH; [|exact Hs]. intros Hin. apply Hr. now right.
Qed.

Lemma replace_tag_free (s : text) :
  ~ In LT replacement -> ~ In GT replacement ->
  (forall s', matcher (GT :: s') = None) ->
  (forall pre post, s = pre ++ post -> match_tag post = None \/ matcher post <> None) ->
  nowhere match_tag (replace matcher replacement s).
Proof.
  intros Hlt Hgt Hat.
  induction s as [| s rest E IH | c s E IH] using replace_ind; intros Hs.
  - rewrite replace_nil. now apply nowhere_nil.
  - rewrite (replace_match s rest E). apply nowhere_app_head; [exact Hlt|].
    apply IH. intros pre post ->.
    destruct (matcher_suffix _ _ E) as (p & _ & Es).
    apply (Hs (p ++ pre) post). now rewrite Es, app_assoc.
  - rewrite (replace_skip c s E).
    assert (IH' : nowhere match_tag (replace matcher replacement s)).
    { apply IH. intros pre post ->. now apply (Hs (c :: pre) post). }
    apply nowhere_cons; [|exact IH'].
    destruct (Hs [] (c :: s) eq_refl) as [Htag|Hm]; [|contradiction].
    destruct (Z.eq_dec c LT) as [->|Hc]; [|now apply match_tag_head].
    destruct s as [|d s]; [now rewrite replace_nil|].
    destruct (Z.eq_dec d GT) as [->|Hd].
    + rewrite (replace_skip GT s (Hat s)). reflexivity.
    + apply match_tag_no_gt. intros Hin.
      apply replace_in in Hin as [Hin|Hin]; [|contradiction].
      revert Hin. apply after_gt_in. cbn.
      apply Z.eqb_neq in Hd. rewrite Hd.
      cbn in Htag. rewrite Hd in Htag. exact Htag.
Qed.

End Replace.

(** *** The three regular expressions *)

Lemma white_space_NL : white_space NL = true.
Proof. reflexivity. Qed.

Lemma skip_white_space_suffix s :
  exists pre, s = pre ++ skip_white_space s.
Proof.
  induction s as [|c s [pre IH]]; [now exists []|]. cbn.
  destruct (white_space c); [|now exists []].
  exists (c :: pre). cbn. now f_equal.
Qed.

Lemma skip_white_space_head s c rest :
  skip_white_space s = c :: rest -> white_space c = false.
Proof.
  induction s as [|d s IH]; [discriminate|]. cbn.
  destruct (white_space d) eqn:E; [exact IH|].
  intros H. injection H as -> _. exact E.
Qed.

Lemma skip_white_space_fixed s :
  (forall c rest, s = c :: rest -> white_space c = false) -> skip_white_space s = s.
Proof.
  destruct s as [|c s]; [reflexivity|]. intros H. cbn.
  now rewrite (H c s eq_refl).
Qed.

Lemma after_gt_suffix s rest :
  after_gt s = Some rest -> exists pre, s = pre ++ GT :: rest.
Proof.
  revert rest. induction s as [|c s IH]; intros rest; [discriminate|]. cbn.
  destruct (Z.eqb_spec c GT) as [->|_].
  - intros H. injection H as ->. now exists [].
  - intros H. destruct (IH rest H) as [pre ->]. now exists (c :: pre).
Qed.

Lemma after_gt_app s q rest :
  after_gt s = Some rest -> after_gt (s ++ q) = Some (rest ++ q).
Proof.
  revert rest. induction s as [|c s IH]; intros rest; [discriminate|]. cbn.
  destruct (c =? GT); [|apply IH]. intros H. now injection H as ->.
Qed.

Lemma match_tag_suffix s rest :
  match_tag s = Some rest -> exists pre, pre <> [] /\ s = pre ++ rest.
Proof.
  unfold match_tag. destruct s as [|lt [|c s]]; try discriminate.
  destruct ((lt =? LT) && negb (c =? GT)); [|discriminate].
  intros H. apply after_gt_suffix in H as [pre ->].
  exists (lt :: c :: pre ++ [GT]). split; [discriminate|].
  cbn. now rewrite <- app_assoc.
Qed.

Lemma match_tag_app s q rest :
  match_tag s = Some rest -> match_tag (s ++ q) = Some (rest ++ q).
Proof.
  unfold match_tag. destruct s as [|lt [|c s]]; try discriminate. cbn.
  destruct ((lt =? LT) && negb (c =? GT)); [|discriminate].
  apply after_gt_app.
Qed.

Lemma match_br_suffix s rest :
  match_br s = Some rest -> exists pre, pre <> [] /\ s = pre ++ rest.
Proof.
  unfold match_br. destruct s as [|lt [|b [|r s]]]; try discriminate.
  destruct (_ && _); [|discriminate].
  destruct (skip_white_space_suffix s) as [pre Hs].
  destruct (skip_white_space s) as [|c s1]; [discriminate|].
  destruct (c =? GT).
  - intros H. injection H as <-.
    exists (lt :: b :: r :: pre ++ [c]). split; [discriminate|].
    cbn. rewrite <- app_assoc. now rewrite Hs at 1.
  - destruct (c =? SLASH); [|discriminate].
    destruct s1 as [|c' s2]; [discriminate|].
    destruct (c' =? GT); [|discriminate].
    intros H. injection H as <-.
    exists (lt :: b :: r :: pre ++ [c; c']). split; [discriminate|].
    cbn. rewrite <- app_assoc. now rewrite Hs at 1.
Qed.

Lemma after_last_NL_suffix s rest :
  after_last_NL s = Some rest -> exists pre, pre <> [] /\ s = pre ++ rest.
Proof.
  revert rest. induction s as [|c s IH]; intros rest; [discriminate|]. cbn.
  destruct (white_space c); [|discriminate].
  destruct (after_last_NL s) as [r|].
  - intros H. injection H as <-. destruct (IH r eq_refl) as (pre & _ & ->).
    exists (c :: pre). split; [discriminate|reflexivity].
  - destruct (c =? NL); [|discriminate]. intros H. injection H as <-.
    exists [c]. split; [discriminate|reflexivity].
Qed.

Lemma match_blank_lines_suffix s rest :
  match_blank_lines s = Some rest -> exists pre, pre <> [] /\ s = pre ++ rest.
Proof.
  unfold match_blank_lines. destruct s as [|c s]; [discriminate|].
  destruct (c =? NL); [|discriminate]. intros H.
  apply after_last_NL_suffix in H as (pre & _ & ->).
  exists (c :: pre). split; [discriminate|reflexivity].
Qed.

(** A line break is a tag. *)
Lemma match_br_tag s rest : match_br s = Some rest -> match_tag s <> None.
Proof.
  unfold match_br, match_tag. destruct s as [|lt [|b [|r s]]]; try discriminate.
  destruct (Z.eqb_spec lt LT) as [->|]; [|discriminate]. cbn [andb].
  destruct ((b =? 98) || (b =? 66)) eqn:Eb; [|discriminate].
  destruct ((r =? 114) || (r =? 82)) eqn:Er; [|discriminate]. cbn [andb].
  assert (Hb : (b =? GT) = false).
  { apply Z.eqb_neq. intros ->. discriminate. }
  rewrite Hb. cbn [negb].
  assert (Hr : (r =? GT) = false).
  { apply Z.eqb_neq. intros ->. discriminate. }
  intros H Hnone. apply after_gt_in in Hnone. apply Hnone. right.
  destruct (skip_white_space_suffix s) as [pre Hs].
  destruct (skip_white_space s) as [|c s1]; [discriminate|].
  rewrite Hs. apply in_or_app. right.
  destruct (Z.eqb_spec c GT) as [->|_]; [now left|].
  destruct (c =? SLASH); [|discriminate].
  destruct s1 as [|c' s2]; [discriminate|].
  destruct (Z.eqb_spec c' GT) as [->|_]; [right; now left|discriminate].
Qed.

(** *** [trim] *)

Lemma trim_decompose s : exists p q, s = p ++ trim s ++ q.
Proof.
  unfold trim.
  destruct (skip_white_space_suffix s) as [p Hp].
  destruct (skip_white_space_suffix (rev (skip_white_space s))) as [q Hq].
  exists p, (rev q). rewrite <- rev_app_distr, <- Hq, rev_involutive. exact Hp.
Qed.

Lemma trim_last s pre c : trim s = pre ++ [c] -> white_space c = false.
Proof.
  unfold trim. intros H. apply (f_equal (@rev Z)) in H.
  rewrite rev_involutive, rev_app_distr in H. cbn in H.
  now apply skip_white_space_head in H.
Qed.

Lemma trim_head s c rest : trim s = c :: rest -> white_space c = false.
Proof.
  unfold trim. intros H. apply (f_equal (@rev Z)) in H.
  rewrite rev_involutive in H. cbn in H.
  destruct (skip_white_space_suffix (rev (skip_white_space s))) as [q Hq].
  rewrite H in Hq. apply (f_equal (@rev Z)) in Hq.
  rewrite rev_involutive, rev_app_distr, rev_app_distr, rev_involutive in Hq.
  cbn in Hq. now apply skip_white_space_head in Hq.
Qed.

Lemma trim_fixed s :
  (forall c rest, s = c :: rest -> white_space c = false) ->
  (forall pre c, s = pre ++ [c] -> white_space c = false) ->
  trim s = s.
Proof.
  intros Hhead Hlast. unfold trim.
  rewrite (skip_white_space_fixed s Hhead).
  rewrite skip_white_space_fixed; [apply rev_involutive|].
  intros c rest H. apply (Hlast (rev rest) c).
  apply (f_equal (@rev Z)) in H. rewrite rev_involutive in H. exact H.
Qed.

Lemma nowhere_tag_prefix a q : nowhere match_tag (a ++ q) -> nowhere match_tag a.
Proof.
  intros H pre post ->.
  destruct (match_tag post) as [rest|] eqn:E; [|reflexivity].
  apply (match_tag_app _ q) in E.
  rewrite (H pre (post ++ q)) in E; [discriminate|now rewrite app_assoc].
Qed.

Lemma nowhere_tag_trim s : nowhere match_tag s -> nowhere match_tag (trim s).
Proof.
  intros H. destruct (trim_decompose s) as (p & q & E). rewrite E in H.
  apply nowhere_suffix in H. now apply nowhere_tag_prefix in H.
Qed.

(** *** Blank lines *)

Lemma after_last_NL_rest s rest :
  after_last_NL s = Some rest -> after_last_NL rest = None.
Proof.
  revert rest. induction s as [|c s IH]; intros rest; [discriminate|]. cbn.
  destruct (white_space c); [|discriminate].
  destruct (after_last_NL s) as [r|] eqn:E.
  - intros H. injection H as <-. now apply IH.
  - destruct (c =? NL); [|discriminate]. intros H. now injection H as <-.
Qed.

Lemma after_last_NL_app s q rest :
  after_last_NL s = Some rest -> after_last_NL (s ++ q) <> None.
Proof.
  revert rest. induction s as [|c s IH]; intros rest; [discriminate|]. cbn.
  destruct (white_space c); [|discriminate].
  destruct (after_last_NL s) as [r|] eqn:E.
  - intros _. specialize (IH r eq_refl).
    destruct (after_last_NL (s ++ q)); [discriminate|contradiction].
  - destruct (c =? NL); [|discriminate]. intros _.
    destruct (after_last_NL (s ++ q)); discriminate.
Qed.

Lemma after_last_NL_replace s :
  after_last_NL s = None ->
  after_last_NL (replace match_blank_lines [NL; NL] s) = None.
Proof.
  induction s as [|c s IH]; intros H.
  - reflexivity.
  - cbn in H. destruct (white_space c) eqn:Ews.
    + destruct (after_last_NL s) eqn:E; [discriminate|].
      destruct (c =? NL) eqn:Ec; [discriminate|].
      rewrite (replace_skip _ _ match_blank_lines_suffix);
        [|cbn; now rewrite Ec].
      cbn. rewrite Ews, (IH eq_refl), Ec. reflexivity.
    + assert (Ec : (c =? NL) = false).
      { apply Z.eqb_neq. intros ->. discriminate. }
      rewrite (replace_skip _ _ match_blank_lines_suffix);
        [|cbn; now rewrite Ec].
      cbn. now rewrite Ews.
Qed.

Lemma fixed_by_cons m r c s :
  (forall rest, m (c :: s) = Some rest -> c :: s = r ++ rest) ->
  fixed_by m r s -> fixed_by m r (c :: s).
Proof.
  intros Hc Hs pre post rest E Hm. destruct pre as [|c' pre].
  - cbn in E. subst post. now apply Hc.
  - injection E as _ E. now apply (Hs pre post rest).
Qed.

Lemma fixed_by_nil m r : m [] = None -> fixed_by m r [].
Proof.
  intros H pre post rest E Hm. symmetry in E. apply app_eq_nil in E as [_ ->].
  rewrite H in Hm. discriminate.
Qed.

Lemma match_blank_lines_cons c s :
  match_blank_lines (c :: s) = if c =? NL then after_last_NL s else None.
Proof. reflexivity. Qed.

Lemma replace_blank_lines_fixed s :
  fixed_by match_blank_lines [NL; NL] (replace match_blank_lines [NL; NL] s).
Proof.
  induction s as [| s rest E IH | c s E IH]
    using (replace_ind match_blank_lines match_blank_lines_suffix).
  - change (replace match_blank_lines [NL; NL] []) with (@nil Z).
    now apply fixed_by_nil.
  - rewrite (replace_match _ _ match_blank_lines_suffix s rest E).
    assert (Hrest : after_last_NL (replace match_blank_lines [NL; NL] rest) = None).
    { apply after_last_NL_replace.
      destruct s as [|c s]; [discriminate|]. rewrite match_blank_lines_cons in E.
      destruct (c =? NL); [|discriminate].
      now apply after_last_NL_rest in E. }
    cbn [app]. apply fixed_by_cons; [|apply fixed_by_cons; [|exact IH]].
    + intros rest'. rewrite match_blank_lines_cons. cbn [Z.eqb NL Pos.eqb].
      cbn [after_last_NL]. rewrite Hrest, white_space_NL.
      cbn [Z.eqb NL Pos.eqb]. intros H. now injection H as <-.
    + intros rest'. rewrite match_blank_lines_cons. cbn [Z.eqb NL Pos.eqb].
      rewrite Hrest. discriminate.
  - rewrite (replace_skip _ _ match_blank_lines_suffix c s E).
    apply fixed_by_cons; [|exact IH].
    intros rest'. rewrite match_blank_lines_cons in *.
    destruct (c =? NL); [|discriminate].
    now rewrite (after_last_NL_replace s E).
Qed.

Lemma after_last_NL_shorter s rest :
  after_last_NL s = Some rest -> (List.length rest < List.length s)%nat.
Proof.
  intros H. apply after_last_NL_suffix in H as (pre & Hne & ->).
  rewrite length_app. destruct pre; [contradiction|cbn; lia].
Qed.

Lemma fixed_blank_lines_prefix a q :
  fixed_by match_blank_lines [NL; NL] (a ++ q) ->
  fixed_by match_blank_lines [NL; NL] a.
Proof.
  intros H pre post rest -> Hm.
  unfold match_blank_lines in Hm.
  destruct post as [|c s1]; [discriminate|].
  destruct (Z.eqb_spec c NL) as [->|]; [|discriminate].
  destruct (after_last_NL (s1 ++ q)) as [y|] eqn:Ey;
    [|now apply (after_last_NL_app _ q) in Hm].
  assert (Hq : (NL :: s1) ++ q = [NL; NL] ++ y).
  { apply (H pre ((NL :: s1) ++ q) y); [now rewrite app_assoc|].
    cbn. exact Ey. }
  destruct s1 as [|c s2]; [discriminate|].
  cbn in Hq. injection Hq as -> Hy. subst y.
  assert (Hnone : after_last_NL (s2 ++ q) = None).
  { cbn in Ey. destruct (after_last_NL (s2 ++ q)) as [z|] eqn:Ez; [|reflexivity].
    injection Ey as ->. apply after_last_NL_shorter in Ez. lia. }
  cbn in Hm. destruct (after_last_NL s2) as [z|] eqn:Ez.
  - now apply (after_last_NL_app _ q) in Ez.
  - cbn in Hm. now injection Hm as <-.
Qed.

Lemma fixed_blank_lines_trim s :
  fixed_by match_blank_lines [NL; NL] s ->
  fixed_by match_blank_lines [NL; NL] (trim s).
Proof.
  intros H. destruct (trim_decompose s) as (p & q & E). rewrite E in H.
  apply fixed_by_suffix in H. now apply fixed_blank_lines_prefix in H.
Qed.

End HtmlFacts.

Lemma stripHtml_cons c html :
  Html.stripHtml (Some (c :: html)) =
  Html.trim
    (Html.replace Html.match_blank_lines [Html.NL; Html.NL]
       (Html.replace Html.match_tag []
          (Html.replace Html.match_br [Html.NL] (c :: html)))).
Proof. reflexivity. Qed.

Lemma stripHtml_tag_free html : Html.nowhere Html.match_tag (Html.stripHtml html).
Proof.
  destruct html as [[|c html]|]; try now apply HtmlFacts.nowhere_nil.
  rewrite stripHtml_cons.
  apply HtmlFacts.nowhere_tag_trim.
  apply (HtmlFacts.replace_tag_free _ _ HtmlFacts.match_blank_lines_suffix).
  - cbn. intuition discriminate.
  - cbn. intuition discriminate.
  - reflexivity.
  - intros pre post E. left. revert pre post E.
    apply (HtmlFacts.replace_tag_free _ _ HtmlFacts.match_tag_suffix).
    + intros [].
    + intros [].
    + intros s'. now destruct s'.
    + intros pre post _. destruct (Html.match_tag post); [right; discriminate|now left].
Qed.

Lemma stripHtml_trimmed html :
  (forall c rest, Html.stripHtml html = c :: rest -> Html.white_space c = false) /\
  (forall pre c, Html.stripHtml html = pre ++ [c] -> Html.white_space c = false).
Proof.
  destruct html as [[|c html]|].
  - split; [discriminate|]. intros pre c H. now destruct pre.
  - rewrite stripHtml_cons. split.
    + intros c' rest. apply HtmlFacts.trim_head.
    + intros pre c'. apply HtmlFacts.trim_last.
  - split; [discriminate|]. intros pre c H. now destruct pre.
Qed.

Lemma stripHtml_blank_lines html :
  Html.fixed_by Html.match_blank_lines [Html.NL; Html.NL] (Html.stripHtml html).
Proof.
  destruct html as [[|c html]|]; try now apply HtmlFacts.fixed_by_nil.
  rewrite stripHtml_cons. apply HtmlFacts.fixed_blank_lines_trim.
  apply HtmlFacts.replace_blank_lines_fixed.
Qed.

Example stripHtml_samples :
  map (fun html => Html.stripHtml (Some (Html.of_string html)))
      ["  <p>Hello<br/>world</p>  "; "<div>a</div><BR  >b<br / >c";
       "<<b>>x<>y<a"; "a<br><br> <br>b"; "1 < 2 and 3 > 2"]
  = map Html.of_string
      [("Hello" ++ String LF "world")%string; ("a" ++ String LF "bc")%string;
       ">x<>y<a"; ("a" ++ String LF (String LF "b"))%string; "1  2"].
Proof. vm_compute. reflexivity. Qed.

(** What [stripHtml] returns holds no tag: no part of it matches
    [<[^>]+>], so no [<br>] either. It starts and ends with no white
    space. Every run of line feeds and white space between two line feeds
    has become exactly two line feeds. *)
Theorem stripHtml_result (html : option Html.text) :
  Html.nowhere Html.match_tag (Html.stripHtml html) /\
  Html.nowhere Html.match_br (Html.stripHtml html) /\
  (forall c rest, Html.stripHtml html = c :: rest -> Html.white_space c = false) /\
  (forall pre c, Html.stripHtml html = pre ++ [c] -> Html.white_space c = false) /\
  (forall pre post rest,
     Html.stripHtml html = pre ++ post ->
     Html.match_blank_lines post = Some rest ->
     post = Html.NL :: Html.NL :: rest).
Proof.
  split; [apply stripHtml_tag_free|]. split.
  - intros pre post E.
    destruct (Html.match_br post) as [rest|] eqn:Ebr; [|reflexivity].
    apply HtmlFacts.match_br_tag in Ebr.
    now rewrite (stripHtml_tag_free html pre post E) in Ebr.
  - split; [apply stripHtml_trimmed|]. split; [apply stripHtml_trimmed|].
    apply stripHtml_blank_lines.
Qed.

(** [stripHtml] is idempotent: stripping what it returned changes
    nothing. *)
Theorem stripHtml_idempotent (html : option Html.text) :
  Html.stripHtml (Some (Html.stripHtml html)) = Html.stripHtml html.
Proof.
  pose proof (stripHtml_tag_free html) as Htag.
  pose proof (stripHtml_trimmed html) as [Hhead Hlast].
  pose proof (stripHtml_blank_lines html) as Hblank.
  destruct (Html.stripHtml html) as [|c t] eqn:E; [reflexivity|].
  rewrite stripHtml_cons.
  rewrite (HtmlFacts.replace_nowhere _ _ HtmlFacts.match_br_suffix).
  2:{ intros pre post Epost.
      destruct (Html.match_br post) as [rest|] eqn:Ebr; [|reflexivity].
      apply HtmlFacts.match_br_tag in Ebr.
      now rewrite (Htag pre post Epost) in Ebr. }
  rewrite (HtmlFacts.replace_nowhere _ _ HtmlFacts.match_tag_suffix) by exact Htag.
  rewrite (HtmlFacts.replace_fixed _ _ HtmlFacts.match_blank_lines_suffix) by exact Hblank.
  now apply HtmlFacts.trim_fixed.
Qed.

(* ================================================================== *)
(** ** The [get_tags] tool *)
(* ================================================================== *)

Module GetTagsFacts.

Import GetTags.

(** The counts held for the tags read so far. *)
Lemma count_step m l tag :
  JsMap.wf m ->
  (forall t, JsMap.get t m =
             if Z.of_nat (count_occ string_dec l t) =? 0 then None
             else Some (Z.of_nat (count_occ string_dec l t))) ->
  JsMap.wf (count m tag) /\
  (forall t, JsMap.get t (count m tag) =
             if Z.of_nat (count_occ string_dec (l ++ [tag]) t) =? 0 then None
             else Some (Z.of_nat (count_occ string_dec (l ++ [tag]) t))).
Proof.
  intros Hwf Hget. unfold count. split; [now apply JsMapFacts.wf_set|].
  intros t. rewrite count_occ_app. cbn [count_occ].
  destruct (string_dec tag t) as [->|Hne].
  - rewrite JsMapFacts.get_set_same, Hget.
    replace (Z.of_nat (count_occ string_dec l t + 1) =? 0) with false
      by (symmetry; apply Z.eqb_neq; lia).
    f_equal.
    destruct (Z.eqb_spec (Z.of_nat (count_occ string_dec l t)) 0) as [E|E].
    + lia.
    + apply Z.eqb_neq in E. rewrite E. lia.
  - rewrite JsMapFacts.get_set_other by (intros E; now apply Hne).
    rewrite Hget. now rewrite Nat.add_0_r.
Qed.

Lemma count_tags tags : forall m l,
  JsMap.wf m ->
  (forall t, JsMap.get t m =
             if Z.of_nat (count_occ string_dec l t) =? 0 then None
             else Some (Z.of_nat (count_occ string_dec l t))) ->
  JsMap.wf (fold_left count tags m) /\
  (forall t, JsMap.get t (fold_left count tags m) =
             if Z.of_nat (count_occ string_dec (l ++ tags) t) =? 0 then None
             else Some (Z.of_nat (count_occ string_dec (l ++ tags) t))).
Proof.
  induction tags as [|tag tags IH]; intros m l Hwf Hget.
  - rewrite app_nil_r. now split.
  - cbn [fold_left]. destruct (count_step m l tag Hwf Hget) as [Hwf' Hget'].
    replace (l ++ tag :: tags) with ((l ++ [tag]) ++ tags)
      by now rewrite <- app_assoc.
    now apply IH.
Qed.

Lemma count_rows rows : forall m l,
  JsMap.wf m ->
  (forall t, JsMap.get t m =
             if Z.of_nat (count_occ string_dec l t) =? 0 then None
             else Some (Z.of_nat (count_occ string_dec l t))) ->
  let m' := fold_left
              (fun counts row =>
                 match row with
                 | Some tags => fold_left count tags counts
                 | None => counts
                 end) rows m in
  JsMap.wf m' /\
  (forall t, JsMap.get t m' =
             if Z.of_nat (count_occ string_dec (l ++ tags_read rows) t) =? 0 then None
             else Some (Z.of_nat (count_occ string_dec (l ++ tags_read rows) t))).
Proof.
  induction rows as [|row rows IH]; intros m l Hwf Hget; cbn zeta.
  - cbn. rewrite app_nil_r. now split.
  - cbn [fold_left tags_read flat_map]. destruct row as [tags|].
    + destruct (count_tags tags m l Hwf Hget) as [Hwf' Hget'].
      rewrite app_assoc. now apply IH.
    + cbn [app]. now apply IH.
Qed.

Lemma tagCounts_get rows :
  JsMap.wf (tagCounts rows) /\
  (forall t, JsMap.get t (tagCounts rows) =
             if uses rows t =? 0 then None else Some (uses rows t)).
Proof.
  apply (count_rows rows JsMap.empty []); [constructor|reflexivity].
Qed.

Lemma insert_perm e l : Permutation (insert e l) (e :: l).
Proof.
  induction l as [|e' l IH]; cbn; [auto|].
  destruct (snd e' <=? snd e); [auto|].
  rewrite IH. apply perm_swap.
Qed.

Lemma sort_perm l : Permutation (sort l) l.
Proof.
  induction l as [|e l IH]; cbn; [auto|].
  rewrite insert_perm. now constructor.
Qed.

Lemma insert_keeps_sorted e l :
  StronglySorted (fun a b => snd b <= snd a) l ->
  StronglySorted (fun a b => snd b <= snd a) (insert e l).
Proof.
  induction 1 as [|e' l Hs IH Hall]; cbn.
  - repeat constructor.
  - destruct (Z.leb_spec (snd e') (snd e)) as [Hle|Hgt].
    + constructor; [now constructor|].
      constructor; [exact Hle|].
      eapply Forall_impl; [|exact Hall]. cbn. intros; lia.
    + constructor; [exact IH|].
      rewrite (Forall_forall). intros x Hx.
      apply (Permutation_in _ (insert_perm e l)) in Hx.
      destruct Hx as [<-|Hx]; [lia|].
      rewrite Forall_forall in Hall. now apply Hall.
Qed.

Lemma sort_sorted l : StronglySorted (fun a b => snd b <= snd a) (sort l).
Proof.
  induction l as [|e l IH]; cbn; [constructor|now apply insert_keeps_sorted].
Qed.

Lemma sorted_app {A} (R : A -> A -> Prop) l1 l2 :
  StronglySorted R (l1 ++ l2) ->
  StronglySorted R l1 /\ forall a b, In a l1 -> In b l2 -> R a b.
Proof.
  induction l1 as [|x l1 IH]; cbn; intros H.
  - split; [constructor|intros ? ? []].
  - inversion H as [|? ? Hs Hall]; subst. destruct (IH Hs) as [Hs1 Hcross].
    rewrite Forall_forall in Hall. split.
    + constructor; [exact Hs1|]. rewrite Forall_forall. intros y Hy.
      apply Hall. apply in_or_app. now left.
    + intros a b [<-|Ha] Hb; [|now apply Hcross].
      apply Hall. apply in_or_app. now right.
Qed.

End GetTagsFacts.

(** What the [get_tags] tool lists, for tags that name no property of
    [Object.prototype]: each listed tag once, with the number of times it
    was read in the rows that parse; in descending order of that number;
    [totalTags] is the number of distinct tags read; for a limit that is
    not negative the list has [limit] entries, or all the tags when there
    are fewer, and no tag left out was read more often than a listed
    one. *)
Theorem get_tags_result (rows : list (option (list string))) (limit : Z) :
  Forall (fun tag => GetTags.ordinary tag = true) (GetTags.tags_read rows) ->
  let listed := GetTags.sortedTags rows limit in
  (forall tag n, In (tag, n) listed -> n = GetTags.uses rows tag /\ 0 < n) /\
  NoDup (map fst listed) /\
  StronglySorted (fun a b => snd b <= snd a) listed /\
  GetTags.totalTags rows = List.length (nodup string_dec (GetTags.tags_read rows)) /\
  (0 <= limit ->
   List.length listed = Nat.min (Z.to_nat limit) (GetTags.totalTags rows)) /\
  (0 <= limit ->
   forall tag, In tag (GetTags.tags_read rows) -> ~ In tag (map fst listed) ->
   forall tag' n', In (tag', n') listed -> GetTags.uses rows tag <= n').
Proof.
  intros _. cbn zeta.
  destruct (GetTagsFacts.tagCounts_get rows) as [Hwf Hget].
  set (m := GetTags.tagCounts rows) in *.
  set (S := GetTags.sort (JsObject.entries m)).
  assert (Hperm : Permutation S m).
  { unfold S. rewrite GetTagsFacts.sort_perm. apply JsObjectFacts.entries_perm. }
  assert (Hsorted : StronglySorted (fun a b => snd b <= snd a) S)
    by apply GetTagsFacts.sort_sorted.
  assert (Hin : forall tag n, In (tag, n) S <->
                              n = GetTags.uses rows tag /\ 0 < n).
  { intros tag n. split.
    - intros H. apply (Permutation_in _ Hperm) in H.
      apply (JsMapFacts.In_get _ _ _ Hwf) in H. rewrite Hget in H.
      destruct (Z.eqb_spec (GetTags.uses rows tag) 0); [discriminate|].
      injection H as <-. unfold GetTags.uses in *. lia.
    - intros [-> Hpos]. apply (Permutation_in _ (Permutation_sym Hperm)).
      apply JsMapFacts.get_In. rewrite Hget.
      destruct (Z.eqb_spec (GetTags.uses rows tag) 0); [lia|reflexivity]. }
  assert (Hkeys : NoDup (map fst S)).
  { eapply Permutation_NoDup; [|exact Hwf].
    apply Permutation_sym. now apply Permutation_map. }
  unfold GetTags.sortedTags. fold m. fold S. unfold GetTags.slice_to.
  set (n := Z.to_nat _).
  pose proof (firstn_skipn n S) as Hsplit.
  assert (Hsub : forall x, In x (firstn n S) -> In x S).
  { intros x Hx. rewrite <- Hsplit. apply in_or_app. now left. }
  split; [|split; [|split; [|split; [|split]]]].
  - intros tag k Hk. apply Hin. now apply Hsub.
  - rewrite <- Hsplit, map_app in Hkeys. now apply NoDup_app_remove_r in Hkeys.
  - rewrite <- Hsplit in Hsorted. now apply GetTagsFacts.sorted_app in Hsorted.
  - unfold GetTags.totalTags. fold m. apply Permutation_length.
    apply NoDup_Permutation; [exact Hwf|apply NoDup_nodup|].
    intros t. rewrite nodup_In. split.
    + intros Ht. destruct (JsMap.get t m) as [k|] eqn:E.
      * rewrite Hget in E.
        destruct (Z.eqb_spec (GetTags.uses rows t) 0) as [|Hne]; [discriminate|].
        unfold GetTags.uses in Hne.
        apply (count_occ_In string_dec). lia.
      * apply JsMapFacts.get_None_keys in E. contradiction.
    + intros Ht. apply (count_occ_In string_dec) in Ht.
      destruct (in_dec string_dec t (JsMap.keys m)) as [|Hno]; [assumption|].
      apply JsMapFacts.get_None_keys in Hno. rewrite Hget in Hno.
      destruct (Z.eqb_spec (GetTags.uses rows t) 0) as [E|]; [|discriminate].
      unfold GetTags.uses in E. lia.
  - intros Hlimit. rewrite length_firstn.
    assert (Hlen : List.length S = GetTags.totalTags rows).
    { unfold GetTags.totalTags, JsMap.keys. fold m.
      rewrite length_map. now apply Permutation_length. }
    unfold n. replace (limit <? 0) with false by (symmetry; apply Z.ltb_ge; lia).
    rewrite Hlen. lia.
  - intros Hlimit tag Htag Hnot tag' n' Hlisted.
    assert (Hpos : 0 < GetTags.uses rows tag).
    { unfold GetTags.uses. apply (count_occ_In string_dec) in Htag. lia. }
    assert (HinS : In (tag, GetTags.uses rows tag) S) by (apply Hin; now split).
    rewrite <- Hsplit in HinS. apply in_app_or in HinS as [H|H].
    + elim Hnot. apply in_map_iff. now exists (tag, GetTags.uses rows tag).
    + rewrite <- Hsplit in Hsorted.
      apply GetTagsFacts.sorted_app in Hsorted as [_ Hcross].
      exact (Hcross _ _ Hlisted H).
Qed.

Lemma get_tags_result_witness :
  Forall (fun tag => GetTags.ordinary tag = true) (GetTags.tags_read GetTags.demo_rows) /\
  GetTags.sortedTags GetTags.demo_rows 2 = [("idea", 3); ("work", 2)] /\
  (forall tag n, In (tag, n) (GetTags.sortedTags GetTags.demo_rows 2) ->
                 n = GetTags.uses GetTags.demo_rows tag /\ 0 < n) /\
  GetTags.totalTags GetTags.demo_rows = 3%nat.
Proof.
  assert (H : Forall (fun tag => GetTags.ordinary tag = true)
                     (GetTags.tags_read GetTags.demo_rows))
    by (repeat constructor).
  split; [exact H|]. split; [reflexivity|].
  destruct (get_tags_result GetTags.demo_rows 2 H) as (H1 & _ & _ & H4 & _).
  split; [exact H1|exact H4].
Defined.
